(** * JPEG encoding tutorial: a shallow embedding of the notebook's pipeline

    The notebook [jpeg_encoding_tutorial.ipynb] converts RGB pixels to YCbCr,
    transforms 8x8 blocks, quantizes them, reorders them in zig-zag order and
    run-length encodes the AC coefficients.  This file embeds the integer and
    IEEE-754 parts of that pipeline and proves properties of them.

    Conventions.  NumPy [int8]/[uint8] values are integers of [Z] with the
    wrap-around written out ([np_int8], [np_uint8]); [float64] values are the
    kernel's binary64 floats ([PrimFloat.float]), their values and
    rounding errors rationals ([Q]); Python lists are lists; 8x8 arrays are
    lists of rows, read with [get2]. *)

From Stdlib Require Import ZArith List Bool Lia PeanoNat.
From Stdlib Require Import Uint63 Floats.
From Stdlib Require Import QArith Qabs Qpower.
Import ListNotations.

Set Warnings "-inexact-float".

Local Open Scope Z_scope.

(* ================================================================== *)
(** ** Fixed-width integers *)

Module Int8.

(** [np.int8(z)]: the two's complement reading of the low eight bits. *)
Definition np_int8 (z : Z) : Z :=
  let u := z mod 256 in
  if u <? 128 then u else u - 256.

(** [np.uint8(z)]: the low eight bits. *)
Definition np_uint8 (z : Z) : Z := z mod 256.

Definition in_int8 (z : Z) : Prop := -128 <= z <= 127.

(** [np.abs] on an [int8] scalar stays in [int8]: the magnitude of -128
    is not representable and comes back as -128. *)
Definition np_abs (a : Z) : Z := np_int8 (Z.abs a).

End Int8.
Import Int8.

(* ================================================================== *)
(** ** 8x8 arrays *)

Definition array2 (A : Type) := list (list A).
Definition block := array2 Z.

(** [B[p]] for an index pair [p = (row, column)].  NumPy raises on an index
    outside the array; the pipeline only reads cells of 8x8 arrays at indices
    below 8, and there [d] plays no part. *)
Definition get2 {A : Type} (d : A) (B : array2 A) (p : nat * nat) : A :=
  nth (snd p) (nth (fst p) B []) d.

(** [arr[p] = v] on a two-dimensional array. *)
Fixpoint set_nth {A : Type} (n : nat) (v : A) (l : list A) : list A :=
  match l, n with
  | [], _ => []
  | _ :: t, O => v :: t
  | h :: t, S k => h :: set_nth k v t
  end.

Definition set2 {A : Type} (B : array2 A) (p : nat * nat) (v : A) : array2 A :=
  set_nth (fst p) (set_nth (snd p) v (nth (fst p) B [])) B.

Definition is_8x8 {A : Type} (B : array2 A) : Prop :=
  length B = 8%nat /\ Forall (fun row => length row = 8%nat) B.

Definition int8_block (B : block) : Prop :=
  Forall (Forall in_int8) B.

(** Both as tests, to run on a given block. *)
Definition is_8x8b {A : Type} (B : array2 A) : bool :=
  (length B =? 8)%nat && forallb (fun row => (length row =? 8)%nat) B.

Definition int8_blockb (B : block) : bool :=
  forallb (forallb (fun z => (-128 <=? z) && (z <=? 127))) B.

(* ================================================================== *)
(** ** The zig-zag access pattern *)

Module ZigZag.

(** One pass of the inner loop:
    [for index_1 in range(start, length+1-start)]. *)
Definition diagonal (left_right : bool) (start length : nat) : list (nat * nat) :=
  map (fun index_1 =>
         let index_2 := (length - index_1)%nat in
         if left_right then (index_1, index_2) else (index_2, index_1))
      (seq start (length + 1 - start - start)).

(** The three variables the outer loop updates. *)
Record loop_state := mk_loop_state {
  zz_index : list (list (nat * nat));
  left_right : bool;
  start : nat
}.

Definition loop_init : loop_state := mk_loop_state [] false 0.

(** The body of [for length in range(15)]. *)
Definition loop_body (st : loop_state) (length : nat) : loop_state :=
  let start' := if (8 <=? length)%nat then S (start st) else start st in
  mk_loop_state (zz_index st ++ [diagonal (left_right st) start' length])
                (negb (left_right st))
                start'.

Definition zig_zag_index : list (list (nat * nat)) :=
  zz_index (fold_left loop_body (seq 0 15) loop_init).

(** [[index_pair for diagonal in zig_zag_index for index_pair in diagonal]] *)
Definition zig_zag_flat : list (nat * nat) := concat zig_zag_index.

(** The validation cell of the notebook:
    [for i in range(64): access_pattern[zig_zag_flat[i]] = i],
    on an array that [np.empty] leaves with whatever content [arr0]. *)
Definition access_pattern_from (arr0 : array2 nat) : array2 nat :=
  fold_left (fun arr i => set2 arr (nth i zig_zag_flat (0, 0)%nat) i)
            (seq 0 64) arr0.

Definition access_pattern : array2 nat :=
  access_pattern_from (repeat (repeat 0%nat 8) 8).

(** Reading a block along the access pattern, as the encoder does with
    [B_int[zig_zag_flat[i]]]. *)
Definition flatten (B : block) : list Z := map (get2 0 B) zig_zag_flat.

(** The inverse reindexing: cell [(v,u)] takes the entry whose position
    [access_pattern] records for it. *)
Definition unflatten (s : list Z) : block :=
  map (fun v => map (fun u => nth (get2 0%nat access_pattern (v, u)) s 0)
                    (seq 0 8))
      (seq 0 8).

(** Following the description of the traversal: the cells of anti-diagonal
    [d] of the 8x8 grid, listed by ascending row. *)
Definition antidiagonal_by_row (d : nat) : list (nat * nat) :=
  filter (fun p => (snd p <? 8)%nat)
         (map (fun r => (r, d - r)%nat) (seq 0 (Nat.min 8 (S d)))).

(** Odd diagonals run top to bottom, even ones bottom to top. *)
Definition antidiagonal_alternating (d : nat) : list (nat * nat) :=
  if Nat.odd d then antidiagonal_by_row d else rev (antidiagonal_by_row d).

Definition in_grid (p : nat * nat) : Prop := (fst p < 8 /\ snd p < 8)%nat.

End ZigZag.
Import ZigZag.

(* ================================================================== *)
(** ** The run-length / symbol encoder, [apply_Huffman_encoding] *)

Module Huffman.

(** The bit-counting loop
    [while (number): size += number & 1; number >>= 1].
    [>>] on a signed NumPy integer is an arithmetic shift, which is
    [Z.shiftr]; the loop need not terminate, hence the fuel. *)
Fixpoint count_loop (fuel : nat) (size number : Z) : option Z :=
  match fuel with
  | O => None
  | S k =>
      if number =? 0 then Some size
      else count_loop k (size + Z.land number 1) (Z.shiftr number 1)
  end.

Record state := mk_state {
  runlength : Z;
  overflow_counter : nat;
  output : list Z
}.

Definition init : state := mk_state 0 0 [].

(** The pair appended [overflow_counter] times before a coefficient:
    [output.append(np.int8(runlength)<<4); output.append(np.int8(0))].
    The shift and the sum of symbol 1 are taken in [Z]: NumPy may carry
    them in [int8] or in a wider integer, and the byte that the final
    [np.array(output, dtype=np.int8)] stores is the same either way
    ([symbol1_width_independent] below). *)
Definition overflow_pair (runlength : Z) : list Z :=
  [Z.shiftl (np_int8 runlength) 4; np_int8 0].

(** What [for i in range(overflow_counter)] appends. *)
Definition pending_overflow_pairs (runlength : Z) (overflow_counter : nat)
  : list Z :=
  concat (repeat (overflow_pair runlength) overflow_counter).

(** The body of the loop over the AC positions, for the coefficient
    [amplitude = B_int[index_pair]].  [None] when the bit-counting loop
    has not finished within [fuel] iterations. *)
Definition step (fuel : nat) (st : state) (amplitude : Z) : option state :=
  if amplitude =? 0 then
    let r := runlength st + 1 in
    if r =? 15
    then Some (mk_state 0 (S (overflow_counter st)) (output st))
    else Some (mk_state r (overflow_counter st) (output st))
  else
    match count_loop fuel 0 (np_abs amplitude) with
    | None => None
    | Some size =>
        let r := runlength st in
        Some (mk_state 0 (overflow_counter st)
                (output st
                 ++ pending_overflow_pairs r (overflow_counter st)
                 ++ [Z.shiftl (np_int8 r) 4 + np_int8 size;
                     np_int8 amplitude]))
    end.

Fixpoint run (fuel : nat) (st : state) (amplitudes : list Z) : option state :=
  match amplitudes with
  | [] => Some st
  | a :: rest =>
      match step fuel st a with
      | None => None
      | Some st' => run fuel st' rest
      end
  end.

(** After the loop: [output.append(np.int8(0))] and the conversion
    [np.array(output, dtype=np.int8)]. *)
Definition finish (st : state) : list Z :=
  map np_int8 (output st ++ [np_int8 0]).

(** The encoder on the sequence a block presents along the access
    pattern: position 0 is the DC value, the rest the AC coefficients. *)
Definition encode_sequence (fuel : nat) (s : list Z) : option (Z * list Z) :=
  match run fuel init (tl s) with
  | None => None
  | Some st => Some (np_int8 (hd 0 s), finish st)
  end.

(** [apply_Huffman_encoding(B_int)]: the loop runs over
    [range(1, len(zig_zag_flat))] and reads [B_int[zig_zag_flat[id]]];
    the DC value is [np.int8(B_int[0,0])]. *)
Definition apply_Huffman_encoding (fuel : nat) (B_int : block)
  : option (Z * list Z) :=
  let ids := seq 1 (length zig_zag_flat - 1) in
  let amplitudes :=
    map (fun id => get2 0 B_int (nth id zig_zag_flat (0, 0)%nat)) ids in
  match run fuel init amplitudes with
  | None => None
  | Some st => Some (np_int8 (get2 0 B_int (0, 0)%nat), finish st)
  end.

(** The fields packed in a stored symbol-1 byte. *)
Definition run_field (symbol1 : Z) : Z := Z.shiftr (symbol1 mod 256) 4.
Definition size_field (symbol1 : Z) : Z := Z.land symbol1 15.

(** Number of set bits among the low [k] bits of [n]. *)
Fixpoint popcount (k : nat) (n : Z) : Z :=
  match k with
  | O => 0
  | S k' => Z.b2z (Z.testbit n 0) + popcount k' (Z.div2 n)
  end.


(** Amplitudes on which the encoder is used and returns: an [int8] value
    other than -128. *)
Definition amplitude_ok (a : Z) : Prop := -127 <= a <= 127.

(** The run-length counter stays between 0 and 14. *)
Definition runlength_ok (st : state) : Prop := 0 <= runlength st < 15.

(** A sequence as a block presents it: the DC value, [n] zeros, the value
    [a], zeros up to position 63. *)
Definition zeros_then (dc : Z) (n : nat) (a : Z) : list Z :=
  dc :: repeat 0 n ++ [a] ++ repeat 0 (62 - n).

End Huffman.
Import Huffman.

(* ================================================================== *)
(** ** Binary64 values and their conversions to integers

    The arithmetic is the kernel's ([PrimFloat]: IEEE-754 binary64,
    round to nearest even), read through [Prim2SF] as sign, mantissa and
    exponent when an integer has to come out of a float. *)

Module Float64.

(** An unsigned integer scalar entering a float expression. *)
Definition of_int (z : Z) : float := of_uint63 (Uint63.of_Z z).

(** The exact value of a finite float as a fraction [num / den], [den]
    a power of two. *)
Definition SF_fraction (x : spec_float) : option (Z * Z) :=
  match x with
  | S754_zero _ => Some (0, 1)
  | S754_finite s m e =>
      let n := cond_Zopp s (Zpos m) in
      if 0 <=? e then Some (n * 2 ^ e, 1) else Some (n, 2 ^ (- e))
  | _ => None
  end.

Definition fraction (x : float) : option (Z * Z) := SF_fraction (Prim2SF x).

(** Truncation toward zero, the conversion of a float to an integer
    type.  Not defined on infinities and NaN. *)
Definition SF_trunc (x : spec_float) : option Z :=
  match x with
  | S754_zero _ => Some 0
  | S754_finite s m e => Some (cond_Zopp s (Z.shiftl (Zpos m) e))
  | _ => None
  end.

Definition trunc (x : float) : option Z := SF_trunc (Prim2SF x).

(** [np.round] on a float64 rounds to the nearest integer and sends a
    value halfway between two integers to the even one.  The result is
    given as the integer it denotes. *)
Definition SF_rint (x : spec_float) : option Z :=
  match x with
  | S754_zero _ => Some 0
  | S754_finite s m e =>
      let a :=
        if 0 <=? e then Z.shiftl (Zpos m) e
        else
          let den := 2 ^ (- e) in
          let q := Zpos m / den in
          let r := Zpos m mod den in
          match 2 * r ?= den with
          | Lt => q
          | Gt => q + 1
          | Eq => if Z.even q then q else q + 1
          end in
      Some (cond_Zopp s a)
  | _ => None
  end.

Definition np_round (x : float) : option Z := SF_rint (Prim2SF x).

(** [np.int8(r)] on the float64 [r] that [np.round] returned, [r] given by
    the integer it denotes, or [None] for an infinity or a NaN.  The
    conversion is the C cast from a double: it goes through a 32-bit
    integer, of which the low byte is kept.  Where the value does not fit
    a 32-bit integer, and for an infinity or a NaN, the 32-bit conversion
    gives 0x80000000, whose low byte is 0. *)
Definition in_int32 (z : Z) : bool :=
  (-2147483648 <=? z) && (z <=? 2147483647).

Definition np_int8_of_float (r : option Z) : Z :=
  match r with
  | Some n => if in_int32 n then np_int8 n else 0
  | None => 0
  end.

(** [np.uint8(x)] on a float: truncate, keep the low eight bits. *)
Definition np_uint8_of_float (x : float) : option Z :=
  option_map np_uint8 (trunc x).

(** [n] is the integer nearest to [num / den], the even one on a tie. *)
Definition nearest_ties_even (num den n : Z) : Prop :=
  2 * Z.abs (num - n * den) <= den /\
  (2 * Z.abs (num - n * den) = den -> Z.even n = true).

(** Rounding [num / den] to the nearest integer with ties away from
    zero: the sign times [floor (|num/den| + 1/2)]. *)
Definition round_half_away (num den : Z) : Z :=
  Z.sgn num * ((2 * Z.abs num + den) / (2 * den)).

(** [num / den] lies within one of [b]: [|num/den - b| < 1]. *)
Definition within_one (num den b : Z) : Prop := Z.abs (num - b * den) < den.

End Float64.
Import Float64.

(* ================================================================== *)
(** ** The values of binary64 floats as rationals

    A finite float denotes the rational [(-1)^s * m * 2^e]; the rounding
    errors of the transform are bounded over these values. *)

Module Float64Value.

Definition pow2 (e : Z) : Q := (2 ^ e)%Q.

(** Unit roundoff and half the smallest subnormal. *)
Definition u64 : Q := pow2 (-53).
Definition eta64 : Q := pow2 (-1075).

Definition signed (s : bool) (m e : Z) : Q :=
  (inject_Z (cond_Zopp s m) * pow2 e)%Q.

(** [x] is finite and denotes [v]. *)
Definition has_value (x : spec_float) (v : Q) : Prop :=
  match x with
  | S754_zero _ => (v == 0)%Q
  | S754_finite s m e => (v == signed s (Zpos m) e)%Q
  | _ => False
  end.

Definition value_of (x : float) (v : Q) : Prop := has_value (Prim2SF x) v.

(** The value of a finite float; 0 for the others. *)
Definition float_value (x : float) : Q :=
  match Prim2SF x with
  | S754_finite s m e => signed s (Zpos m) e
  | _ => 0%Q
  end.

(** The error of one operation on values below [2 ^ 15]. *)
Definition delta : Q := pow2 (-37).

(** What [j >= 1] steps of [shr_1] keep of a number [M >= 0]: the
    quotient by [2 ^ j], the bit below it, and whether anything is set
    further down. *)
Definition shifted (M : Z) (j : Z) (mrs : shr_record) : Prop :=
  0 <= shr_m mrs
  /\ exists low,
       M = shr_m mrs * 2 ^ j + Z.b2z (shr_r mrs) * 2 ^ (j - 1) + low
       /\ 0 <= low < 2 ^ (j - 1)
       /\ (shr_s mrs = false <-> low = 0).

(** A rounded result by its mantissa [m'] (0 for a zero) and exponent
    [e']. *)
Definition SF_of (s : bool) (m' e' : Z) : spec_float :=
  match m' with
  | Zpos p => S754_finite s p e'
  | _ => S754_zero s
  end.

End Float64Value.
Import Float64Value.

(* ================================================================== *)
(** ** Colour transform *)

Module Colour.

Local Open Scope float_scope.

(** The three right-hand sides of the conversion loop, before the cast,
    on the components already converted to float64. *)
Definition Y_expr (r g b : float) : float :=
  0.0 + 0.299 * r + 0.587 * g + 0.114 * b.

Definition Cb_expr (r g b : float) : float :=
  128.0 - 0.168736 * r - 0.331264 * g + 0.5 * b.

Definition Cr_expr (r g b : float) : float :=
  128.0 + 0.5 * r - 0.418688 * g - 0.081312 * b.

(** On the [uint8] components of [data_RGB[i_y, i_x, :]]. *)
Definition Y_float (R G B : Z) : float :=
  Y_expr (of_int R) (of_int G) (of_int B).

Definition Cb_float (R G B : Z) : float :=
  Cb_expr (of_int R) (of_int G) (of_int B).

Definition Cr_float (R G B : Z) : float :=
  Cr_expr (of_int R) (of_int G) (of_int B).

(** [data_YCbCr[i_y, i_x, :]] from [data_RGB[i_y, i_x, :]]. *)
Definition convert_pixel (R G B : Z) : option Z * option Z * option Z :=
  (np_uint8_of_float (Y_float R G B),
   np_uint8_of_float (Cb_float R G B),
   np_uint8_of_float (Cr_float R G B)).

(** A float strictly between -1 and 256. *)
Definition truncates_to_uint8 (x : float) : bool :=
  ((-1) <? x) && (x <? 256).

Definition pixel_truncates_to_uint8 (r g b : float) : bool :=
  truncates_to_uint8 (Y_expr r g b)
  && truncates_to_uint8 (Cb_expr r g b)
  && truncates_to_uint8 (Cr_expr r g b).

(** The 256 values a component can take, as floats. *)
Definition levels : list float :=
  map (fun k => of_int (Z.of_nat k)) (seq 0 256).

Definition forall_triples {A : Type} (P : A -> A -> A -> bool) (l : list A)
  : bool :=
  forallb (fun r => forallb (fun g => forallb (fun b => P r g b) l) l) l.

End Colour.
Import Colour.

(* ================================================================== *)
(** ** Forward DCT, [perform_DCT_on_block] *)

Module DCT.

Local Open Scope float_scope.

(** A signed integer scalar entering a float expression. *)
Definition of_int8 (z : Z) : float :=
  if (z <? 0)%Z then - of_int (- z) else of_int z.

Definition np_pi : float := 3.141592653589793.

(** [1.0 / np.sqrt(2)] *)
Definition sqrt2_inv : float := 1.0 / sqrt 2.

(** [(2. * i_x + 1) * i_u * np.pi / 16.] *)
Definition angle (i_x i_u : nat) : float :=
  (2.0 * of_int (Z.of_nat i_x) + 1) * of_int (Z.of_nat i_u) * np_pi / 16.0.

Section WithCosine.

(** [np.cos] is the cosine of the platform's math library; the transform
    is defined over whatever function it is. *)
Variable np_cos : float -> float.

(** The two inner loops: the sum over all pixels, in the order of the
    loops, starting from [0.0].  The samples are read with [get2]; where
    the 8x8 window at the offset does not lie inside the plane the code
    raises an [IndexError], and the sum stands for the code only where the
    window does lie inside. *)
Definition pixel_sum (g_int : block) (offset_y offset_x i_v i_u : nat) : float :=
  fold_left
    (fun acc i_y =>
       fold_left
         (fun acc i_x =>
            acc + of_int8 (get2 0%Z g_int (offset_y + i_y, offset_x + i_x)%nat)
                  * np_cos (angle i_x i_u)
                  * np_cos (angle i_y i_v))
         (seq 0 8) acc)
    (seq 0 8) 0.0.

Definition alpha (i : nat) : float :=
  if (i =? 0)%nat then sqrt2_inv else 1.0.

(** [G_int[i_v, i_u]] after [G_int[i_v, i_u] *= 1./4. * alpha_v * alpha_u]. *)
Definition frequency (g_int : block) (offset_y offset_x i_v i_u : nat) : float :=
  pixel_sum g_int offset_y offset_x i_v i_u * (1.0 / 4.0 * alpha i_v * alpha i_u).

Definition perform_DCT_on_block (g_int : block) (offset_y offset_x : nat)
  : array2 float :=
  map (fun i_v =>
         map (fun i_u => frequency g_int offset_y offset_x i_v i_u) (seq 0 8))
      (seq 0 8).

(** What the transform needs of the cosine on the angles it uses: a finite
    value. *)
Definition finite_float (x : float) : bool :=
  match Prim2SF x with
  | S754_zero _ | S754_finite _ _ _ => true
  | _ => false
  end.

Definition cosine_finite : Prop :=
  forall i j : nat, (i < 8)%nat -> (j < 8)%nat ->
    finite_float (np_cos (angle i j)) = true.

End WithCosine.

(** An 8x8 block with the same sample everywhere. *)
Definition uniform_block (k : Z) : block := repeat (repeat k 8) 8.

(** [x = nx/dx] equals [y = ny/dy] within the relative tolerance 1e-6:
    [|x - y| <= 1e-6 * |y|]. *)
Definition within_relative_tolerance (nx dx ny dy : Z) : Prop :=
  (1000000 * Z.abs (nx * dy - ny * dx) <= Z.abs ny * dx)%Z.

(** The DC term of a uniform block when the cosine of 0 is 1: the 64
    products are the sample itself. *)
Definition dc_of_uniform (k : Z) : float :=
  frequency (fun _ => 1) (uniform_block k) 0 0 0 0.

(** [dc_of_uniform k] is finite and within 1e-6, relatively, of [8 * k]. *)
Definition dc_near_8k (k : Z) : bool :=
  match fraction (dc_of_uniform k) with
  | Some (num, den) =>
      (0 <? den)%Z
      && (1000000 * Z.abs (num * 1 - 8 * k * den) <=? Z.abs (8 * k) * den)%Z
  | None => false
  end.

(** The signed bytes, -128..127. *)
Definition int8_values : list Z := map (fun i => (Z.of_nat i - 128)%Z) (seq 0 256).

(** A cosine to run the transform with: the argument reduced by whole
    turns, then the Taylor polynomial of degree 22. *)
Definition round_to_integer (t : float) : float :=
  (t + 6755399441055744) - 6755399441055744.

Definition cos_approx (x : float) : float :=
  let two_pi := 2 * np_pi in
  let r := x - two_pi * round_to_integer (x / two_pi) in
  let y := r * r in
  1 - y / 2 * (1 - y / 12 * (1 - y / 30 * (1 - y / 56 * (1 - y / 90
    * (1 - y / 132 * (1 - y / 182 * (1 - y / 240 * (1 - y / 306
    * (1 - y / 380 * (1 - y / 462)))))))))).

(** [x] is finite and its value is [q]. *)
Definition value_check (x : float) (q : Q) : bool :=
  finite_float x && Qeq_bool (float_value x) q.

(** The value of [np.cos] on the angle of pixel [i] and frequency [j]. *)
Definition cos_value (np_cos : float -> float) (i j : nat) : Q :=
  float_value (np_cos (angle i j)).

(** The exact sum of the eight cosines of one frequency. *)
Definition column_sum (np_cos : float -> float) (i_u : nat) : Q :=
  fold_left (fun s i_x => (s + cos_value np_cos i_x i_u)%Q) (seq 0 8) 0%Q.

Definition cos_sum_eps : Q := pow2 (-20).

(** What the AC terms of a uniform block need of the cosine: on the angles
    used its values are finite and within [-1, 1], and the eight values of
    each frequency other than 0, which cancel for the cosine itself, sum
    to at most [2 ^ -20] in magnitude. *)
Definition cosine_balancedb (np_cos : float -> float) : bool :=
  forallb (fun i => forallb (fun j =>
     finite_float (np_cos (angle i j))
     && Qle_bool (Qabs (cos_value np_cos i j)) 1%Q) (seq 0 8)) (seq 0 8)
  && forallb (fun j => Qle_bool (Qabs (column_sum np_cos j)) cos_sum_eps)
             (seq 1 7).

Definition cosine_balanced (np_cos : float -> float) : Prop :=
  cosine_balancedb np_cos = true.

(** The pixel sum of a uniform block in the rationals, over the values of
    the cosine, in the order of the loops. *)
Definition exact_sum (np_cos : float -> float) (K : Q) (i_v i_u : nat) : Q :=
  fold_left
    (fun s i_y =>
       fold_left
         (fun s i_x =>
            (s + K * (cos_value np_cos i_x i_u * cos_value np_cos i_y i_v))%Q)
         (seq 0 8) s)
    (seq 0 8) 0%Q.

(** The error of one term of the pixel sum, added to the sum: two
    products and a sum. *)
Definition step_err : Q := (3 * delta)%Q.

(** The accumulator after [n] terms: a finite float within [n] step
    errors of the exact sum [s], itself at most [n] samples. *)
Definition sum_invariant (K : Q) (acc : float) (s : Q) (n : nat) : Prop :=
  exists a : Q,
    value_of acc a
    /\ (Qabs (a - s) <= inject_Z (Z.of_nat n) * step_err)%Q
    /\ (Qabs s <= inject_Z (Z.of_nat n) * Qabs K)%Q.

(** [x = num / den] is zero within the tolerance 1e-6 of [ref]:
    [|x| <= 1e-6 * |ref|]. *)
Definition negligible_against (num den ref : Z) : Prop :=
  (1000000 * Z.abs num <= Z.abs ref * den)%Z.

End DCT.
Import DCT.

(* ================================================================== *)
(** ** Quantization *)

Module Quantization.

Definition Q_50 : array2 Z :=
  [ [ 16 ; 11 ; 10 ; 16 ;  24 ;  40 ;  51 ;  61 ];
    [ 12 ; 12 ; 14 ; 19 ;  26 ;  58 ;  60 ;  55 ];
    [ 14 ; 13 ; 16 ; 24 ;  40 ;  57 ;  69 ;  56 ];
    [ 14 ; 17 ; 22 ; 29 ;  51 ;  87 ;  80 ;  62 ];
    [ 18 ; 22 ; 37 ; 56 ;  68 ; 109 ; 103 ;  77 ];
    [ 24 ; 35 ; 55 ; 64 ;  81 ; 104 ; 113 ;  92 ];
    [ 49 ; 64 ; 78 ; 87 ; 103 ; 121 ; 120 ; 101 ];
    [ 72 ; 92 ; 95 ; 98 ; 112 ; 100 ; 103 ;  99 ] ].

(** The quotient [G_int[i_v, i_u] / Q[i_v, i_u]] as the code computes it:
    a float64 division. *)
Definition quotient (g : float) (q : Z) : float := (g / of_int q)%float.

(** [np.int8(np.round(G_int[i_v, i_u] / Q[i_v, i_u]))].  A byte is stored
    whatever the quotient is; [Some] tells it from a read outside the 8x8
    array, which [get2 None] answers with [None]. *)
Definition quantize_cell (g : float) (q : Z) : option Z :=
  Some (np_int8_of_float (np_round (quotient g q))).

Definition perform_quantization_on_block (G_int : array2 float) (Q : array2 Z)
  : array2 (option Z) :=
  map (fun i_v =>
         map (fun i_u =>
                quantize_cell (get2 0%float G_int (i_v, i_u))
                              (get2 0 Q (i_v, i_u)))
             (seq 0 8))
      (seq 0 8).

Definition table_ok (Q : array2 Z) : Prop :=
  is_8x8 Q /\ Forall (Forall (fun q => 1 <= q <= 255)) Q.

(** A frequency block with the same value in every cell. *)
Definition constant_block (g : float) : array2 float := repeat (repeat g 8) 8.

End Quantization.
Import Quantization.

(* ================================================================== *)
(** ** Option results *)

Module Opt.

Definition bind {A B : Type} (x : option A) (f : A -> option B) : option B :=
  match x with
  | Some a => f a
  | None => None
  end.

(** Running [f] over a list in order; the first failure is the result. *)
Fixpoint mapM {A B : Type} (f : A -> option B) (l : list A) : option (list B) :=
  match l with
  | [] => Some []
  | x :: t =>
      match f x with
      | None => None
      | Some y =>
          match mapM f t with
          | None => None
          | Some ys => Some (y :: ys)
          end
      end
  end.

End Opt.

Notation "x <- c ;; k" := (Opt.bind c (fun x => k))
  (at level 61, c at next level, right associativity).

(* ================================================================== *)
(** ** Pixel planes: clipping, chroma subsampling, range modification *)

Module Planes.

(** [np.uint16(z)] *)
Definition np_uint16 (z : Z) : Z := z mod 65536.

(** An array of [N_y] rows of [N_x] entries. *)
Definition has_shape {A : Type} (N_y N_x : nat) (data : array2 A) : Prop :=
  length data = N_y /\ Forall (fun row => length row = N_x) data.

Definition has_shapeb {A : Type} (N_y N_x : nat) (data : array2 A) : bool :=
  (length data =? N_y)%nat && forallb (fun row => (length row =? N_x)%nat) data.

Definition uint8_plane (data : array2 Z) : Prop :=
  Forall (Forall (fun z => 0 <= z <= 255)) data.

(** [(N // 16) * 16] *)
Definition clipped (N : nat) : nat := (N / 16 * 16)%nat.

(** [data_RGB[0:(N_y // 16) * 16, 0:(N_x // 16) * 16, :]]: a slice keeps
    the leading rows and columns. *)
Definition clip {A : Type} (N_y N_x : nat) (data : array2 A) : array2 A :=
  map (firstn (clipped N_x)) (firstn (clipped N_y) data).

(** [arr[i_y, i_x]] when it may lie outside the array: NumPy raises an
    [IndexError], here [None]. *)
Definition read2 {A : Type} (data : array2 A) (i_y i_x : nat) : option A :=
  match nth_error data i_y with
  | Some row => nth_error row i_x
  | None => None
  end.

(** [range(0, N, 2)] *)
Definition evens (N : nat) : list nat :=
  map (fun j => (2 * j)%nat) (seq 0 ((N + 1) / 2)).

(** [np.uint8((np.uint16(a) + np.uint16(b) + np.uint16(c) + np.uint16(d)) // 4)]:
    the sums are [uint16] sums. *)
Definition subsample_cell (a b c d : Z) : Z :=
  np_uint8
    (np_uint16 (np_uint16 (np_uint16 (np_uint16 a + np_uint16 b) + np_uint16 c)
                + np_uint16 d)
     / 4).

(** The right-hand side for one [(i_y, i_x)] of the loop; the four reads
    are made in the order of the source. *)
Definition subsample_at (data : array2 Z) (i_y i_x : nat) : option Z :=
  a <- read2 data i_y i_x ;;
  b <- read2 data (i_y + 1) i_x ;;
  c <- read2 data i_y (i_x + 1) ;;
  d <- read2 data (i_y + 1) (i_x + 1) ;;
  Some (subsample_cell a b c d).

(** The subsampling loops over one chroma plane of shape [(N_y, N_x)].
    The result array has [N_y // 2] rows; the loops write its cell
    [(i_y // 2, i_x // 2)]. *)
Definition subsample_plane (N_y N_x : nat) (data : array2 Z)
  : option (array2 Z) :=
  option_map (firstn (N_y / 2))
    (Opt.mapM (fun i_y => Opt.mapM (fun i_x => subsample_at data i_y i_x)
                                   (evens N_x))
              (evens N_y)).

(** [np.int8(data_Y[i_y, i_x] - 128)] *)
Definition shift_sample (y : Z) : Z := np_int8 (y - 128).

Definition shift_plane (data : array2 Z) : array2 Z :=
  map (map shift_sample) data.

(** The number of 8x8 blocks along an axis: [N // 8] for the luma plane
    and, counted from the size of the luma plane, [N // 8 // 2] for a
    subsampled chroma plane. *)
Definition N_blocks (N : nat) : nat := (N / 8)%nat.
Definition N_blocks_c (N : nat) : nat := (N / 8 / 2)%nat.

End Planes.
Import Planes.

(** ** Cells of the subsampled plane *)

(** The cell the loops compute for the output position [(i, j)]. *)
Definition mean_of_2x2 (data : array2 Z) (i j : nat) : Z :=
  subsample_cell (get2 0 data (2 * i, 2 * j)%nat)
                 (get2 0 data (2 * i + 1, 2 * j)%nat)
                 (get2 0 data (2 * i, 2 * j + 1)%nat)
                 (get2 0 data (2 * i + 1, 2 * j + 1)%nat).

(* ================================================================== *)
(** ** The stored AC stream and its reading *)

Module Stream.

(** Zero and nonzero entries of a coefficient sequence. *)
Definition zeros (l : list Z) : nat :=
  length (filter (fun a => a =? 0) l).

Definition nonzeros (l : list Z) : nat :=
  length (filter (fun a => negb (a =? 0)) l).

(** What the loop of [apply_Huffman_encoding] appends to [output] on the
    coefficients [l], from the counters [runlength = r] and
    [overflow_counter = c], with the size of an amplitude already
    evaluated. *)
Fixpoint pairs_from (r : Z) (c : nat) (l : list Z) : list Z :=
  match l with
  | [] => []
  | a :: rest =>
      if a =? 0 then
        if r + 1 =? 15 then pairs_from 0 (S c) rest
        else pairs_from (r + 1) c rest
      else
        pending_overflow_pairs r c
        ++ [Z.shiftl (np_int8 r) 4 + np_int8 (popcount 8 (Z.abs a));
            np_int8 a]
        ++ pairs_from 0 c rest
  end.

(** A reader for the stored bytes.  A pair whose amplitude byte is 0 is an
    overflow pair; [k] counts those met since the last coefficient, [cp]
    those that preceded the last coefficient.  A coefficient follows
    [15 * (k - cp)] zeros and the zeros of its run field. *)
Fixpoint decode_pairs (cp k : nat) (bytes : list Z) : list Z :=
  match bytes with
  | symbol1 :: amplitude :: rest =>
      if amplitude =? 0 then decode_pairs cp (S k) rest
      else repeat 0 (15 * (k - cp) + Z.to_nat (run_field symbol1))
           ++ amplitude :: decode_pairs k 0 rest
  | _ => []
  end.

(** Zeros up to the length [n]. *)
Definition pad (n : nat) (l : list Z) : list Z :=
  l ++ repeat 0 (n - length l).

(** The block a DC value and an AC stream stand for. *)
Definition decode_block (dc : Z) (ac : list Z) : block :=
  unflatten (dc :: pad 63 (decode_pairs 0 0 ac)).

End Stream.
Import Stream.

(* ================================================================== *)
(** ** The loops over the blocks of a channel *)

Module Channel.

(** The part of a plane that [perform_DCT_on_block] reads at an offset,
    [g_int[offset_y : offset_y + 8, offset_x : offset_x + 8]]. *)
Definition window (g_int : block) (offset_y offset_x : nat) : block :=
  map (fun i_y =>
         map (fun i_x => get2 0 g_int (offset_y + i_y, offset_x + i_x)%nat)
             (seq 0 8))
      (seq 0 8).

(** A quantized block all of whose cells are determined. *)
Definition all_defined (B : array2 (option Z)) : option block :=
  Opt.mapM (Opt.mapM (fun cell => cell)) B.

Section WithCosine.

Variable np_cos : float -> float.

(** The body of the loops over the blocks: transform, quantize with
    [Q_50], encode. *)
Definition encode_block (fuel : nat) (data_int : array2 Z) (i_y_b i_x_b : nat)
  : option (Z * list Z) :=
  let offset_y := (i_y_b * 8)%nat in
  let offset_x := (i_x_b * 8)%nat in
  let G := perform_DCT_on_block np_cos data_int offset_y offset_x in
  B <- all_defined (perform_quantization_on_block G Q_50) ;;
  apply_Huffman_encoding fuel B.

(** [Y_dc, Y_ac] (and likewise for Cb and Cr): the DC values as an array
    with one entry for each block, the AC streams of the blocks one after
    the other, rows first. *)
Definition encode_channel (fuel : nat) (data_int : array2 Z)
  (N_y_blocks N_x_blocks : nat) : option (array2 Z * list Z) :=
  blocks <- Opt.mapM
              (fun i_y_b =>
                 Opt.mapM (fun i_x_b => encode_block fuel data_int i_y_b i_x_b)
                          (seq 0 N_x_blocks))
              (seq 0 N_y_blocks) ;;
  Some (map (map fst) blocks, map np_int8 (concat (map snd (concat blocks)))).

End WithCosine.

(** What the loop body returns for a block: a DC byte and between 1 and
    199 AC bytes. *)
Definition block_result_ok (r : Z * list Z) : Prop :=
  in_int8 (fst r) /\ Forall in_int8 (snd r) /\ (1 <= length (snd r) <= 199)%nat.

(** A plane of 8 rows and 16 columns, two blocks, to run the loops on. *)
Definition example_plane : array2 Z :=
  map (fun i_y => map (fun i_x => (Z.of_nat ((i_y + 2 * i_x) mod 7) - 3) * 9)
                      (seq 0 16))
      (seq 0 8).

End Channel.
Import Channel.

(* ================================================================== *)
(** ** Storing the results of several blocks *)

Module Store.


End Store.
Import Store.

(* ================================================================== *)
(** * Properties *)

(* ================================================================== *)
(** ** Zig-zag scanner *)

Section Blocks.

Lemma is_8x8b_ok {A : Type} (B : array2 A) : is_8x8b B = true -> is_8x8 B.
Proof.
  unfold is_8x8b, is_8x8. rewrite andb_true_iff, Nat.eqb_eq.
  intros [Hlen Hrows]. split; [assumption|].
  rewrite forallb_forall in Hrows. apply Forall_forall.
  intros row Hin. apply Nat.eqb_eq. now apply Hrows.
Qed.

Lemma int8_blockb_ok (B : block) : int8_blockb B = true -> int8_block B.
Proof.
  unfold int8_blockb, int8_block. rewrite forallb_forall.
  intros H. apply Forall_forall. intros row Hrow.
  specialize (H row Hrow). rewrite forallb_forall in H.
  apply Forall_forall. intros z Hz. specialize (H z Hz).
  rewrite andb_true_iff, !Z.leb_le in H. exact H.
Qed.

End Blocks.

Section ZigZagFacts.

Lemma list_of_length_8 {A : Type} (l : list A) :
  length l = 8%nat ->
  exists a0 a1 a2 a3 a4 a5 a6 a7, l = [a0; a1; a2; a3; a4; a5; a6; a7].
Proof.
  intros H.
  do 8 (destruct l as [|? l]; [discriminate H|]).
  destruct l; [|discriminate H].
  repeat eexists.
Qed.

(** An 8x8 array is eight rows of eight named cells. *)
Ltac explode_8x8 H :=
  match type of H with
  | is_8x8 ?B =>
      let Hlen := fresh "Hlen" in
      let Hrows := fresh "Hrows" in
      destruct H as [Hlen Hrows];
      destruct (list_of_length_8 B Hlen) as (? & ? & ? & ? & ? & ? & ? & ? & ?);
      subst B; clear Hlen;
      repeat rewrite Forall_cons_iff in Hrows;
      destruct Hrows as (? & ? & ? & ? & ? & ? & ? & ? & _);
      repeat match goal with
             | Hr : length ?r = 8%nat |- _ =>
                 is_var r;
                 destruct (list_of_length_8 r Hr)
                   as (? & ? & ? & ? & ? & ? & ? & ? & ?);
                 subst r; clear Hr
             end
  end.

Lemma zig_zag_flat_length : length zig_zag_flat = 64%nat.
Proof. reflexivity. Qed.

Lemma zig_zag_flat_NoDup : NoDup zig_zag_flat.
Proof.
  apply (NoDup_map_inv (fun p => get2 0%nat access_pattern p)).
  change (NoDup (seq 0 64)). apply seq_NoDup.
Qed.

Lemma zig_zag_flat_in_grid : forall p, In p zig_zag_flat -> in_grid p.
Proof.
  assert (H : Forall in_grid zig_zag_flat).
  { vm_compute. repeat (constructor; [split; simpl; lia|]). constructor. }
  intros p Hp. rewrite Forall_forall in H. now apply H.
Qed.

Lemma grid_in_zig_zag_flat : forall p, in_grid p -> In p zig_zag_flat.
Proof.
  intros [r c] [Hr Hc]; simpl in *.
  do 8 (destruct r as [|r]; [ do 8 (destruct c as [|c]; [vm_compute; tauto|]); lia |]).
  lia.
Qed.

(** [access_pattern] is the inverse of [zig_zag_flat] on positions... *)
Lemma access_pattern_left_inverse :
  forall i, (i < 64)%nat ->
    get2 0%nat access_pattern (nth i zig_zag_flat (0, 0)%nat) = i.
Proof.
  intros i Hi.
  do 64 (destruct i as [|i]; [reflexivity|]). lia.
Qed.

(** ... and on cells. *)
Lemma access_pattern_right_inverse :
  forall p, in_grid p ->
    nth (get2 0%nat access_pattern p) zig_zag_flat (0, 0)%nat = p
    /\ (get2 0%nat access_pattern p < 64)%nat.
Proof.
  intros [r c] [Hr Hc]; simpl in *.
  do 8 (destruct r as [|r];
        [ do 8 (destruct c as [|c]; [vm_compute; split; [reflexivity|lia]|]); lia |]).
  lia.
Qed.

(** The loop assigns all 64 cells: what [np.empty] left in the array
    does not show. *)
Lemma access_pattern_any_initial (arr0 : array2 nat) :
  is_8x8 arr0 -> access_pattern_from arr0 = access_pattern.
Proof. intros H. explode_8x8 H. reflexivity. Qed.

Lemma zig_zag_index_alternates :
  zig_zag_index = map antidiagonal_alternating (seq 0 15).
Proof. reflexivity. Qed.

Lemma unflatten_flatten (B : block) : is_8x8 B -> unflatten (flatten B) = B.
Proof. intros H. explode_8x8 H. reflexivity. Qed.

End ZigZagFacts.

(** C4.  The zig-zag sequence generated by the notebook lists each of the
    64 cells of the 8x8 grid exactly once, so it is a bijection between
    positions 0..63 and cells, with [access_pattern] as the inverse map; its
    diagonals are the anti-diagonals of the grid traversed alternately in
    the two directions; position 0 is cell (0,0) and position 63 is cell
    (7,7); and for every 8x8 integer block, reading it along the sequence
    and reindexing by the inverse permutation gives the block back. *)
Theorem zig_zag_bijection_and_round_trip :
  length zig_zag_flat = 64%nat
  /\ NoDup zig_zag_flat
  /\ (forall p, In p zig_zag_flat <-> in_grid p)
  /\ (forall i, (i < 64)%nat ->
        get2 0%nat access_pattern (nth i zig_zag_flat (0, 0)%nat) = i)
  /\ (forall p, in_grid p ->
        nth (get2 0%nat access_pattern p) zig_zag_flat (0, 0)%nat = p
        /\ (get2 0%nat access_pattern p < 64)%nat)
  /\ zig_zag_index = map antidiagonal_alternating (seq 0 15)
  /\ zig_zag_flat = concat zig_zag_index
  /\ nth 0 zig_zag_flat (1, 1)%nat = (0, 0)%nat
  /\ nth 63 zig_zag_flat (0, 0)%nat = (7, 7)%nat
  /\ (forall B : block, is_8x8 B -> unflatten (flatten B) = B).
Proof.
  split; [exact zig_zag_flat_length|].
  split; [exact zig_zag_flat_NoDup|].
  split; [intros p; split;
          [apply zig_zag_flat_in_grid | apply grid_in_zig_zag_flat]|].
  split; [exact access_pattern_left_inverse|].
  split; [exact access_pattern_right_inverse|].
  split; [exact zig_zag_index_alternates|].
  split; [reflexivity|].
  split; [reflexivity|].
  split; [reflexivity|].
  exact unflatten_flatten.
Qed.

Lemma zig_zag_round_trip_witness : unflatten (flatten Q_50) = Q_50.
Proof.
  apply (proj2 (proj2 (proj2 (proj2 (proj2 (proj2 (proj2 (proj2 (proj2
           zig_zag_bijection_and_round_trip))))))))).
  apply is_8x8b_ok. reflexivity.
Defined.

(* ================================================================== *)
(** ** Signed bytes *)

Section Int8Facts.

Lemma np_int8_small z : in_int8 z -> np_int8 z = z.
Proof.
  unfold in_int8, np_int8. intros H.
  pose proof (Z.mod_pos_bound z 256 eq_refl).
  pose proof (Z.div_mod z 256 ltac:(lia)).
  destruct (Z.ltb_spec (z mod 256) 128); lia.
Qed.

Lemma np_int8_range z : in_int8 (np_int8 z).
Proof.
  unfold in_int8, np_int8.
  pose proof (Z.mod_pos_bound z 256 eq_refl).
  destruct (Z.ltb_spec (z mod 256) 128); lia.
Qed.

Lemma np_int8_shift z : exists k, np_int8 z = z + 256 * k.
Proof.
  unfold np_int8.
  pose proof (Z.div_mod z 256 ltac:(lia)).
  destruct (Z.ltb_spec (z mod 256) 128).
  - exists (- (z / 256)). lia.
  - exists (- (z / 256) - 1). lia.
Qed.

Lemma np_int8_congruent z : np_int8 z mod 256 = z mod 256.
Proof.
  destruct (np_int8_shift z) as [k ->].
  rewrite Z.mul_comm. apply Z.mod_add. lia.
Qed.

Lemma np_int8_of_congruent a b : a mod 256 = b mod 256 -> np_int8 a = np_int8 b.
Proof. unfold np_int8. now intros ->. Qed.

(** Wrapping the shift and the sum of symbol 1 on the way does not change
    the byte that is stored. *)
Lemma symbol1_width_independent r size :
  np_int8 (np_int8 (Z.shiftl r 4) + np_int8 size) = np_int8 (Z.shiftl r 4 + size).
Proof.
  apply np_int8_of_congruent.
  rewrite Z.add_mod, !np_int8_congruent, <- Z.add_mod by lia. reflexivity.
Qed.


Lemma np_abs_ok a : amplitude_ok a -> np_abs a = Z.abs a.
Proof.
  unfold amplitude_ok, np_abs. intros H.
  apply np_int8_small. unfold in_int8. lia.
Qed.

Lemma np_abs_min : np_abs (-128) = -128.
Proof. reflexivity. Qed.

Lemma in_int8_cases a : in_int8 a -> amplitude_ok a \/ a = -128.
Proof. unfold in_int8, amplitude_ok. lia. Qed.

Lemma int8_block_get2 (B : block) p : int8_block B -> in_int8 (get2 0 B p).
Proof.
  intros HB. unfold get2.
  destruct (Nat.lt_ge_cases (fst p) (length B)) as [Hr | Hr].
  - assert (Hrow : Forall in_int8 (nth (fst p) B [])).
    { unfold int8_block in HB. rewrite Forall_forall in HB.
      apply HB. now apply nth_In. }
    destruct (Nat.lt_ge_cases (snd p) (length (nth (fst p) B []))) as [Hc | Hc].
    + rewrite Forall_forall in Hrow. apply Hrow. now apply nth_In.
    + rewrite nth_overflow by assumption. unfold in_int8. lia.
  - rewrite (nth_overflow B) by assumption.
    destruct (snd p); unfold in_int8; simpl; lia.
Qed.

End Int8Facts.

(* ================================================================== *)
(** ** The bit-counting loop *)

Section CountLoop.

Lemma popcount_zero k : popcount k 0 = 0.
Proof. induction k as [|k IH]; simpl; [reflexivity|]. exact IH. Qed.

Lemma popcount_bounds k n : 0 <= popcount k n <= Z.of_nat k.
Proof.
  revert n. induction k as [|k IH]; intros n.
  - simpl. lia.
  - cbn [popcount]. specialize (IH (Z.div2 n)).
    destruct (Z.testbit n 0); cbn [Z.b2z]; lia.
Qed.

Lemma popcount8_bounds n : 0 <= popcount 8 n <= 8.
Proof. exact (popcount_bounds 8 n). Qed.

(** Low bits beyond the magnitude's width add nothing. *)
Lemma popcount_more k j n :
  0 <= n < 2 ^ Z.of_nat k -> popcount (k + j) n = popcount k n.
Proof.
  revert n. induction k as [|k IH]; intros n Hn.
  - assert (n = 0) by (simpl in Hn; lia). subst n.
    now rewrite !popcount_zero.
  - cbn [Nat.add popcount]. f_equal. apply IH.
    rewrite Z.div2_div.
    rewrite Nat2Z.inj_succ, Z.pow_succ_r in Hn by lia.
    split; [apply Z.div_pos; lia|].
    apply Z.div_lt_upper_bound; lia.
Qed.

Lemma land_one n : Z.land n 1 = Z.b2z (Z.testbit n 0).
Proof.
  change 1 with (Z.ones 1). rewrite Z.land_ones by lia.
  rewrite Z.bit0_mod. reflexivity.
Qed.

(** A nonnegative number of [k] bits is counted within [k + 1] tests. *)
Lemma count_loop_returns k : forall fuel size n,
  0 <= n < 2 ^ Z.of_nat k -> (k < fuel)%nat ->
  count_loop fuel size n = Some (size + popcount k n).
Proof.
  induction k as [|k IH]; intros fuel size n Hn Hfuel.
  - assert (n = 0) by (simpl in Hn; lia). subst n.
    destruct fuel as [|fuel]; [lia|]. simpl. f_equal. lia.
  - destruct fuel as [|fuel]; [lia|].
    cbn [count_loop]. destruct (Z.eqb_spec n 0) as [-> | Hnz].
    + rewrite popcount_zero. f_equal. lia.
    + rewrite IH.
      * cbn [popcount]. rewrite land_one, Z.div2_spec. f_equal. lia.
      * rewrite Z.shiftr_div_pow2 by lia. change (2 ^ 1) with 2.
        rewrite Nat2Z.inj_succ, Z.pow_succ_r in Hn by lia.
        split; [apply Z.div_pos; lia|].
        apply Z.div_lt_upper_bound; lia.
      * lia.
Qed.

(** Whatever the fuel, a result is the number of set bits. *)
Lemma count_loop_sound k : forall fuel size n s,
  0 <= n < 2 ^ Z.of_nat k ->
  count_loop fuel size n = Some s -> s = size + popcount k n.
Proof.
  induction k as [|k IH]; intros fuel size n s Hn Hs.
  - assert (n = 0) by (simpl in Hn; lia). subst n.
    destruct fuel as [|fuel]; [discriminate|]. simpl in Hs.
    injection Hs as <-. simpl. lia.
  - destruct fuel as [|fuel]; [discriminate|].
    cbn [count_loop] in Hs. destruct (Z.eqb_spec n 0) as [-> | Hnz].
    + injection Hs as <-. rewrite popcount_zero. lia.
    + apply IH in Hs.
      * rewrite Hs. cbn [popcount]. rewrite land_one, Z.div2_spec. lia.
      * rewrite Z.shiftr_div_pow2 by lia. change (2 ^ 1) with 2.
        rewrite Nat2Z.inj_succ, Z.pow_succ_r in Hn by lia.
        split; [apply Z.div_pos; lia|].
        apply Z.div_lt_upper_bound; lia.
Qed.

(** On a negative number the shift never reaches zero: the loop runs
    forever. *)
Lemma count_loop_negative : forall fuel size n,
  n < 0 -> count_loop fuel size n = None.
Proof.
  induction fuel as [|fuel IH]; intros size n Hn; [reflexivity|].
  cbn [count_loop]. destruct (Z.eqb_spec n 0); [lia|].
  apply IH. now apply Z.shiftr_neg.
Qed.

Lemma count_loop_amplitude fuel a :
  amplitude_ok a -> (8 <= fuel)%nat ->
  count_loop fuel 0 (np_abs a) = Some (popcount 8 (Z.abs a)).
Proof.
  intros Ha Hfuel. rewrite np_abs_ok by assumption.
  assert (Hr : 0 <= Z.abs a < 2 ^ Z.of_nat 7)
    by (unfold amplitude_ok in Ha; simpl; lia).
  rewrite (count_loop_returns 7) by (assumption || lia).
  change 8%nat with (7 + 1)%nat. now rewrite popcount_more.
Qed.

Lemma count_loop_amplitude_sound fuel a s :
  in_int8 a -> count_loop fuel 0 (np_abs a) = Some s ->
  s = popcount 8 (Z.abs a).
Proof.
  intros Ha Hs. destruct (in_int8_cases a Ha) as [Hok | ->].
  - rewrite np_abs_ok in Hs by assumption.
    apply (count_loop_sound 8) in Hs; [lia|].
    unfold amplitude_ok in Hok. simpl. lia.
  - rewrite np_abs_min, count_loop_negative in Hs by lia. discriminate.
Qed.

End CountLoop.

(* ================================================================== *)
(** ** Steps of the encoder *)

Section EncoderSteps.

Lemma init_runlength_ok : runlength_ok Huffman.init.
Proof. unfold runlength_ok. simpl. lia. Qed.

Lemma step_zero fuel st :
  Huffman.step fuel st 0 =
    Some (if runlength st + 1 =? 15
          then Huffman.mk_state 0 (S (overflow_counter st)) (output st)
          else Huffman.mk_state (runlength st + 1) (overflow_counter st) (output st)).
Proof. unfold Huffman.step. simpl. now destruct (runlength st + 1 =? 15). Qed.

Lemma step_nonzero fuel st a :
  a <> 0 -> amplitude_ok a -> (8 <= fuel)%nat ->
  Huffman.step fuel st a =
    Some (Huffman.mk_state 0 (overflow_counter st)
            (output st
             ++ pending_overflow_pairs (runlength st) (overflow_counter st)
             ++ [Z.shiftl (np_int8 (runlength st)) 4
                 + np_int8 (popcount 8 (Z.abs a));
                 np_int8 a])).
Proof.
  intros Hnz Hok Hfuel. unfold Huffman.step.
  destruct (Z.eqb_spec a 0); [contradiction|].
  now rewrite count_loop_amplitude.
Qed.

Lemma step_nonzero_inv fuel st a st' :
  a <> 0 -> in_int8 a -> Huffman.step fuel st a = Some st' ->
  st' = Huffman.mk_state 0 (overflow_counter st)
          (output st
           ++ pending_overflow_pairs (runlength st) (overflow_counter st)
           ++ [Z.shiftl (np_int8 (runlength st)) 4
               + np_int8 (popcount 8 (Z.abs a));
               np_int8 a]).
Proof.
  intros Hnz Hin. unfold Huffman.step.
  destruct (Z.eqb_spec a 0); [contradiction|].
  destruct (count_loop fuel 0 (np_abs a)) as [s|] eqn:Hs; [|discriminate].
  apply count_loop_amplitude_sound in Hs; [|assumption]. subst s.
  now intros [= <-].
Qed.

(** The value -128 makes the encoder loop forever. *)
Lemma step_diverges fuel st : Huffman.step fuel st (-128) = None.
Proof.
  unfold Huffman.step. simpl (_ =? _). cbv iota.
  rewrite np_abs_min, count_loop_negative by lia. reflexivity.
Qed.



Lemma run_app fuel : forall l1 l2 st,
  Huffman.run fuel st (l1 ++ l2) =
    match Huffman.run fuel st l1 with
    | Some st' => Huffman.run fuel st' l2
    | None => None
    end.
Proof.
  induction l1 as [|a l1 IH]; intros l2 st; [reflexivity|].
  simpl. destruct (Huffman.step fuel st a); [apply IH | reflexivity].
Qed.




(** The encoder returns on every sequence free of -128. *)
Lemma run_returns fuel : forall l st,
  (8 <= fuel)%nat -> Forall amplitude_ok l ->
  exists st', Huffman.run fuel st l = Some st'.
Proof.
  induction l as [|a l IH]; intros st Hfuel Hl; simpl.
  - now exists st.
  - inversion Hl as [|? ? Ha Hl']; subst.
    destruct (Z.eq_dec a 0) as [-> | Hnz].
    + rewrite step_zero. now apply IH.
    + rewrite step_nonzero by assumption. now apply IH.
Qed.

(** A stretch of zeros only moves the two counters: the run-length
    wraps at 15 and each wrap is one more pending overflow. *)
Lemma run_zeros fuel : forall n st,
  runlength_ok st ->
  Huffman.run fuel st (repeat 0 n) =
    Some (Huffman.mk_state ((runlength st + Z.of_nat n) mod 15)
            (overflow_counter st
             + Z.to_nat ((runlength st + Z.of_nat n) / 15))
            (output st)).
Proof.
  unfold runlength_ok.
  induction n as [|n IH]; intros st Hst.
  - simpl. rewrite Z.add_0_r, Z.mod_small, Z.div_small by lia.
    simpl. rewrite Nat.add_0_r. now destruct st.
  - cbn [repeat Huffman.run]. rewrite step_zero.
    destruct (Z.eqb_spec (runlength st + 1) 15) as [E | E].
    + rewrite IH by (simpl; lia). simpl runlength. simpl overflow_counter.
      simpl output.
      replace (runlength st + Z.of_nat (S n)) with (Z.of_nat n + 1 * 15) by lia.
      rewrite Z.mod_add, Z.div_add by lia. simpl (0 + _).
      f_equal. f_equal.
      assert (0 <= Z.of_nat n / 15) by (apply Z.div_pos; lia). lia.
    + rewrite IH by (simpl; lia). simpl runlength. simpl overflow_counter.
      simpl output.
      replace (runlength st + 1 + Z.of_nat n)
        with (runlength st + Z.of_nat (S n)) by lia.
      reflexivity.
Qed.


Lemma finish_output st :
  finish st = map np_int8 (output st) ++ [0].
Proof. unfold finish. now rewrite map_app. Qed.


Lemma run_field_packed r size :
  0 <= r < 16 -> 0 <= size < 16 ->
  run_field (np_int8 (Z.shiftl r 4 + size)) = r.
Proof.
  intros Hr Hs. unfold run_field.
  rewrite np_int8_congruent.
  rewrite Z.shiftl_mul_pow2 by lia. change (2 ^ 4) with 16.
  rewrite Z.mod_small by lia.
  rewrite Z.shiftr_div_pow2 by lia. change (2 ^ 4) with 16.
  rewrite Z.add_comm, Z.div_add by lia.
  rewrite Z.div_small by lia. lia.
Qed.

Lemma map_nth_seq {A : Type} (d : A) : forall l : list A,
  map (fun i => nth i l d) (seq 0 (length l)) = l.
Proof.
  induction l as [|x l IH]; [reflexivity|].
  cbn [length seq map nth]. f_equal.
  rewrite <- seq_shift, map_map. exact IH.
Qed.

Lemma map_nth_seq_tail {A B : Type} (d : A) (f : A -> B) (l : list A) :
  map (fun i => f (nth i l d)) (seq 1 (length l - 1)) = tl (map f l).
Proof.
  destruct l as [|x l]; [reflexivity|].
  cbn [length tl map]. rewrite Nat.sub_succ, Nat.sub_0_r.
  rewrite <- seq_shift, map_map. cbn [nth].
  rewrite <- (map_map (fun i => nth i l d) f), map_nth_seq. reflexivity.
Qed.

(** The encoder reads a block through the access pattern only. *)
Lemma apply_Huffman_encoding_flatten fuel (B : block) :
  apply_Huffman_encoding fuel B = encode_sequence fuel (flatten B).
Proof.
  unfold apply_Huffman_encoding, encode_sequence, flatten.
  rewrite (map_nth_seq_tail (0, 0)%nat (get2 0 B) zig_zag_flat).
  reflexivity.
Qed.

Lemma hd_flatten (B : block) : hd 0 (flatten B) = get2 0 B (0, 0)%nat.
Proof. reflexivity. Qed.






End EncoderSteps.

(* ================================================================== *)
(** ** Run-length / symbol encoder: the boundary cases *)

Section EncoderClaims.

Lemma run_zeros_then fuel n a :
  (8 <= fuel)%nat -> (n <= 62)%nat -> a <> 0 -> amplitude_ok a ->
  Huffman.run fuel Huffman.init (repeat 0 n ++ [a] ++ repeat 0 (62 - n)) =
    let r := Z.of_nat n mod 15 in
    let c := Z.to_nat (Z.of_nat n / 15) in
    Some (Huffman.mk_state (Z.of_nat (62 - n) mod 15)
            (c + Z.to_nat (Z.of_nat (62 - n) / 15))
            (pending_overflow_pairs r c
             ++ [Z.shiftl (np_int8 r) 4 + np_int8 (popcount 8 (Z.abs a));
                 np_int8 a])).
Proof.
  intros Hfuel Hn Hnz Hok.
  rewrite run_app, run_zeros by apply init_runlength_ok.
  rewrite run_app. cbn [Huffman.run].
  rewrite step_nonzero by assumption.
  rewrite run_zeros by (unfold runlength_ok; simpl; lia).
  reflexivity.
Qed.

End EncoderClaims.

(** C1 (as the code has it).  With an AC part of exactly 15 zeros followed
    by one value of magnitude 5, the 15th zero wraps the run-length counter,
    so the AC output is one overflow pair with amplitude byte 0, then the
    pair (run=0, size=2) with the amplitude byte, then the end-of-block
    byte; with 16 zeros it is one overflow pair with amplitude byte 0, then
    the pair (run=1, size=2) with the amplitude byte, then the end-of-block
    byte.  The size is the number of set bits of 5, which is 2. *)
Theorem run_length_overflow_boundary :
  forall (fuel : nat) (B : block) (dc a : Z),
    (8 <= fuel)%nat -> is_8x8 B -> int8_block B -> (a = 5 \/ a = -5) ->
    (flatten B = zeros_then dc 15 a ->
       exists overflow_symbol symbol1,
         apply_Huffman_encoding fuel B
           = Some (dc, [overflow_symbol; 0; symbol1; a; 0])
         /\ size_field overflow_symbol = 0
         /\ run_field symbol1 = 0 /\ size_field symbol1 = 2)
    /\
    (flatten B = zeros_then dc 16 a ->
       exists overflow_symbol symbol1,
         apply_Huffman_encoding fuel B
           = Some (dc, [overflow_symbol; 0; symbol1; a; 0])
         /\ size_field overflow_symbol = 0
         /\ run_field symbol1 = 1 /\ size_field symbol1 = 2).
Proof.
  intros fuel B dc a Hfuel H8 HB Ha.
  assert (Hnz : a <> 0) by lia.
  assert (Hok : amplitude_ok a) by (unfold amplitude_ok; lia).
  assert (Hdc : forall n, flatten B = zeros_then dc n a -> np_int8 dc = dc).
  { intros n E. apply np_int8_small.
    replace dc with (get2 0 B (0, 0)%nat).
    - now apply int8_block_get2.
    - change (get2 0 B (0, 0)%nat) with (hd 0 (flatten B)). now rewrite E. }
  split; intros E; rewrite apply_Huffman_encoding_flatten;
    unfold encode_sequence; rewrite E; specialize (Hdc _ E);
    unfold zeros_then; cbn [tl hd];
    rewrite run_zeros_then by (assumption || lia);
    rewrite Hdc;
    destruct Ha as [-> | ->]; do 2 eexists; (split; [reflexivity|]);
    repeat split; reflexivity.
Qed.

Lemma run_length_overflow_boundary_witness :
  exists overflow_symbol symbol1,
    apply_Huffman_encoding 8 (unflatten (zeros_then 7 15 5))
      = Some (7, [overflow_symbol; 0; symbol1; 5; 0])
    /\ size_field overflow_symbol = 0
    /\ run_field symbol1 = 0 /\ size_field symbol1 = 2.
Proof.
  apply (run_length_overflow_boundary 8 (unflatten (zeros_then 7 15 5)) 7 5).
  - lia.
  - apply is_8x8b_ok. reflexivity.
  - apply int8_blockb_ok. reflexivity.
  - left; reflexivity.
  - reflexivity.
Defined.

(** C1, as stated, fails: 15 zeros then 5 does not give the single pair
    (run=15, size=3) but an overflow pair and the pair (run=0, size=2);
    16 zeros then 5 gives neither the overflow byte of (15,0) nor the pair
    (run=0, size=3). *)
Lemma run_length_overflow_boundary_counterexample :
  apply_Huffman_encoding 8 (unflatten (zeros_then 7 15 5))
    = Some (7, [0; 0; 2; 5; 0])
  /\ [0; 0; 2; 5; 0] <> [np_int8 (15 * 16 + 3); 5; 0]
  /\ apply_Huffman_encoding 8 (unflatten (zeros_then 7 16 5))
    = Some (7, [16; 0; 18; 5; 0])
  /\ [16; 0; 18; 5; 0] <> [np_int8 (15 * 16 + 0); 0; np_int8 (0 * 16 + 3); 5; 0].
Proof.
  split; [reflexivity|]. split; [discriminate|].
  split; [reflexivity|]. discriminate.
Qed.



(** The failing input: a block whose first AC coefficient is -128.  The
    encoder gives no result for any of the fuels tried, where a size field
    of 1, the number of set bits of 128, was to be stored; with 5 in its
    place the stored bytes are the symbol byte [9 * 16 + 2 - 256], the
    amplitude and the end-of-block byte. *)
Example minus_128_never_encoded :
  map (fun fuel => apply_Huffman_encoding fuel (unflatten (zeros_then 7 0 (-128))))
      [0; 8; 64; 1000]%nat
  = [None; None; None; None]
  /\ apply_Huffman_encoding 8 (unflatten (zeros_then 7 9 5)) = Some (7, [-110; 5; 0]).
Proof. split; reflexivity. Qed.

(** The quantizer stores the coefficient -128 for the frequency -128.0 at
    a table entry 1, and for 128.0 as well, where the rounded quotient 128
    wraps; at the entry 11 of [Q_50] it does so for -1408.0. *)
Example minus_128_from_quantizer :
  quantize_cell (-128) 1 = Some (-128)
  /\ quantize_cell 128 1 = Some (-128)
  /\ get2 0 Q_50 (0, 1)%nat = 11
  /\ quantize_cell (-1408) 11 = Some (-128).
Proof. repeat split; reflexivity. Qed.

(** C3.  When all 63 AC entries of the block are zero, the AC output is the
    single end-of-block byte 0: the four overflows counted on the way are
    never emitted.  The DC value returned is the entry at position 0. *)
Theorem all_zero_ac_gives_end_of_block :
  forall (fuel : nat) (B : block),
    is_8x8 B -> int8_block B -> tl (flatten B) = repeat 0 63 ->
    apply_Huffman_encoding fuel B = Some (hd 0 (flatten B), [0])
    /\ hd 0 (flatten B) = get2 0 B (0, 0)%nat
    /\ Huffman.run fuel Huffman.init (tl (flatten B))
       = Some (Huffman.mk_state 3 4 []).
Proof.
  intros fuel B H8 HB Hac.
  rewrite apply_Huffman_encoding_flatten. unfold encode_sequence.
  rewrite Hac, run_zeros by apply init_runlength_ok.
  change (hd 0 (flatten B)) with (get2 0 B (0, 0)%nat).
  rewrite np_int8_small by now apply int8_block_get2.
  repeat split.
Qed.

Lemma all_zero_ac_gives_end_of_block_witness :
  apply_Huffman_encoding 0 (unflatten (-3 :: repeat 0 63))
    = Some (hd 0 (flatten (unflatten (-3 :: repeat 0 63))), [0])
  /\ hd 0 (flatten (unflatten (-3 :: repeat 0 63)))
     = get2 0 (unflatten (-3 :: repeat 0 63)) (0, 0)%nat
  /\ Huffman.run 0 Huffman.init (tl (flatten (unflatten (-3 :: repeat 0 63))))
     = Some (Huffman.mk_state 3 4 []).
Proof.
  apply (all_zero_ac_gives_end_of_block 0 (unflatten (-3 :: repeat 0 63))).
  - apply is_8x8b_ok. reflexivity.
  - apply int8_blockb_ok. reflexivity.
  - reflexivity.
Defined.



(** The same on one input: after 15 zeros the coefficients 3 and 7 each
    get the overflow pair in front. *)
Example overflow_pair_before_both :
  encode_sequence 8 (zeros_then 0 15 3) = Some (0, [0; 0; 2; 3; 0])
  /\ encode_sequence 8 (0 :: repeat 0 15 ++ [3; 7] ++ repeat 0 46)
     = Some (0, [0; 0; 2; 3; 0; 0; 3; 7; 0]).
Proof. split; reflexivity. Qed.



(** Eight zeros before the coefficient 1: the packed value 129 is stored
    as -127. *)
Example negative_symbol1 :
  apply_Huffman_encoding 8 (unflatten (zeros_then 0 8 1)) = Some (0, [-127; 1; 0])
  /\ apply_Huffman_encoding 8 (unflatten (zeros_then 0 7 1)) = Some (0, [113; 1; 0]).
Proof. split; reflexivity. Qed.

(* ================================================================== *)
(** ** Binary64: mantissas, truncation and rounding *)

Section FloatFacts.

Lemma digits2_pos_bound (m : positive) : Zpos m < 2 ^ Zpos (digits2_pos m).
Proof.
  induction m as [m IH | m IH |]; cbn [digits2_pos].
  - rewrite Pos2Z.inj_succ, Z.pow_succ_r by lia. lia.
  - rewrite Pos2Z.inj_succ, Z.pow_succ_r by lia. lia.
  - reflexivity.
Qed.

(** A valid binary64 mantissa has at most 53 bits. *)
Lemma bounded_mantissa m e :
  bounded prec emax m e = true -> Zpos m < 2 ^ 53.
Proof.
  unfold bounded, canonical_mantissa, fexp.
  rewrite andb_true_iff, Z.eqb_eq. intros [Hc _].
  assert (Hd : Zpos (digits2_pos m) <= 53) by (unfold prec in Hc; lia).
  pose proof (digits2_pos_bound m) as Hm.
  pose proof (Z.pow_le_mono_r 2 _ 53 ltac:(lia) Hd). lia.
Qed.

Lemma shiftl_small m k :
  0 < k -> Zpos m < 2 ^ k -> Z.shiftl (Zpos m) (- k) = 0.
Proof.
  intros Hk Hm. rewrite Z.shiftl_div_pow2, Z.opp_involutive by lia.
  apply Z.div_small. lia.
Qed.

Lemma shiftl_below m e b :
  e < 0 -> 0 < b -> Zpos m < b * 2 ^ (- e) -> Z.shiftl (Zpos m) e < b.
Proof.
  intros He Hb Hm. rewrite Z.shiftl_div_pow2 by lia.
  apply Z.div_lt_upper_bound; [apply Z.pow_pos_nonneg; lia | lia].
Qed.

Lemma Prim2SF_minus_one :
  Prim2SF (-1)%float = S754_finite true 4503599627370496 (-52).
Proof. vm_compute. reflexivity. Qed.

Lemma Prim2SF_256 :
  Prim2SF 256%float = S754_finite false 4503599627370496 (-44).
Proof. vm_compute. reflexivity. Qed.

(** A float strictly between -1 and 256 truncates into 0..255. *)
Lemma truncates_to_uint8_ok (x : float) :
  truncates_to_uint8 x = true ->
  exists z, trunc x = Some z /\ 0 <= z <= 255.
Proof.
  unfold truncates_to_uint8, trunc. rewrite andb_true_iff, !ltb_spec.
  rewrite Prim2SF_minus_one, Prim2SF_256.
  pose proof (Prim2SF_valid x) as Hv.
  destruct (Prim2SF x) as [s | s | | s m e]; cbn [SF_trunc].
  - intros _. exists 0. split; [reflexivity | lia].
  - destruct s; cbn; intros [? ?]; discriminate.
  - cbn. intros [? ?]; discriminate.
  - cbn [valid_binary] in Hv. apply bounded_mantissa in Hv.
    unfold SFltb, SFcompare. intros [Hlo Hhi].
    eexists. split; [reflexivity|].
    destruct s; cbn [cond_Zopp].
    + (* negative, above -1: the magnitude is below 1 *)
      assert (Z.shiftl (Zpos m) e = 0) as ->; [|lia].
      destruct (Z.compare_spec (-52) e) as [He | He | He]; try discriminate.
      * subst e. apply (shiftl_small m 52); [lia|].
        unfold CompOpp in Hlo.
        destruct (Pos.compare_cont Eq 4503599627370496 m) eqn:Hc;
          try discriminate.
        pose proof (proj1 (Pos.compare_gt_iff 4503599627370496 m) Hc) as Hm.
        change (2 ^ 52) with 4503599627370496. exact Hm.
      * replace e with (- (- e)) by lia. apply shiftl_small; [lia|].
        pose proof (Z.pow_le_mono_r 2 53 (- e) ltac:(lia) ltac:(lia)). lia.
    + (* positive, below 256 *)
      split; [apply Z.shiftl_nonneg; lia|].
      assert (Z.shiftl (Zpos m) e < 256); [|lia].
      destruct (Z.compare_spec e (-44)) as [He | He | He]; try discriminate.
      * subst e. apply shiftl_below; [lia | lia |].
        destruct (Pos.compare_cont Eq m 4503599627370496) eqn:Hc;
          try discriminate.
        pose proof (proj1 (Pos.compare_lt_iff m 4503599627370496) Hc) as Hm.
        change (2 ^ (- -44)) with 17592186044416.
        change (256 * 17592186044416) with 4503599627370496. exact Hm.
      * apply shiftl_below; [lia | lia |].
        pose proof (Z.pow_le_mono_r 2 45 (- e) ltac:(lia) ltac:(lia)).
        change (2 ^ 53) with (256 * 2 ^ 45) in Hv. nia.
Qed.

(** [np.round] gives the nearest integer, the even one on a tie. *)
Lemma SF_rint_nearest (x : spec_float) :
  match SF_fraction x with
  | None => SF_rint x = None
  | Some (num, den) =>
      0 < den /\ exists n, SF_rint x = Some n /\ nearest_ties_even num den n
  end.
Proof.
  destruct x as [s | s | | s m e]; cbn [SF_fraction SF_rint]; try reflexivity.
  - split; [lia|]. exists 0. split; [reflexivity|].
    unfold nearest_ties_even. simpl. split; [lia | discriminate].
  - destruct (Z.leb_spec 0 e) as [He | He].
    + split; [lia|]. eexists. split; [reflexivity|].
      rewrite Z.shiftl_mul_pow2 by lia.
      unfold nearest_ties_even.
      assert (0 < 2 ^ e) by (apply Z.pow_pos_nonneg; lia).
      destruct s; cbn [cond_Zopp]; split; intros; lia.
    + set (den := 2 ^ (- e)).
      assert (Hden : 0 < den) by (apply Z.pow_pos_nonneg; lia).
      split; [assumption|]. eexists. split; [reflexivity|].
      pose proof (Z.div_mod (Zpos m) den ltac:(lia)) as Hdm.
      pose proof (Z.mod_pos_bound (Zpos m) den Hden) as Hr.
      set (q := Zpos m / den) in *. set (r := Zpos m mod den) in *.
      unfold nearest_ties_even.
      assert (Hopp : forall a, Z.even (- a) = Z.even a)
        by (intros a; apply Z.even_opp).
      destruct (Z.compare_spec (2 * r) den) as [Hc | Hc | Hc].
      * destruct (Z.even q) eqn:Hq.
        -- destruct s; cbn [cond_Zopp]; rewrite ?Hopp; split;
             intros; (assumption || nia).
        -- assert (Z.even (q + 1) = true)
             by (rewrite Z.add_1_r, Z.even_succ, <- Z.negb_even, Hq;
                 reflexivity).
           destruct s; cbn [cond_Zopp]; rewrite ?Hopp; split;
             intros; (assumption || nia).
      * destruct s; cbn [cond_Zopp]; split; intros; nia.
      * destruct s; cbn [cond_Zopp]; split; intros; nia.
Qed.

Lemma np_round_nearest (x : float) :
  match fraction x with
  | None => np_round x = None
  | Some (num, den) =>
      0 < den /\ exists n, np_round x = Some n /\ nearest_ties_even num den n
  end.
Proof. exact (SF_rint_nearest (Prim2SF x)). Qed.

End FloatFacts.

(* ================================================================== *)
(** ** Colour transform *)

Section ColourFacts.

(** All 256^3 pixels, by evaluation. *)
Lemma all_pixels_truncate :
  forall_triples pixel_truncates_to_uint8 levels = true.
Proof. vm_compute. reflexivity. Qed.

Lemma level_in_levels c : 0 <= c <= 255 -> In (of_int c) levels.
Proof.
  intros Hc. unfold levels.
  replace c with (Z.of_nat (Z.to_nat c)) by lia.
  apply (in_map (fun k => of_int (Z.of_nat k))).
  apply in_seq. lia.
Qed.

Lemma forall_triples_In {A : Type} (P : A -> A -> A -> bool) (l : list A) :
  forall_triples P l = true ->
  forall r g b, In r l -> In g l -> In b l -> P r g b = true.
Proof.
  unfold forall_triples. intros H r g b Hr Hg Hb.
  rewrite forallb_forall in H. specialize (H r Hr).
  rewrite forallb_forall in H. specialize (H g Hg).
  rewrite forallb_forall in H. exact (H b Hb).
Qed.

Lemma pixel_truncates R G B :
  0 <= R <= 255 -> 0 <= G <= 255 -> 0 <= B <= 255 ->
  truncates_to_uint8 (Y_float R G B) = true
  /\ truncates_to_uint8 (Cb_float R G B) = true
  /\ truncates_to_uint8 (Cr_float R G B) = true.
Proof.
  intros HR HG HB.
  pose proof (forall_triples_In _ _ all_pixels_truncate
                (of_int R) (of_int G) (of_int B)
                (level_in_levels R HR) (level_in_levels G HG)
                (level_in_levels B HB)) as H.
  unfold pixel_truncates_to_uint8 in H.
  apply andb_true_iff in H. destruct H as [H HCr].
  apply andb_true_iff in H. destruct H as [HY HCb].
  split; [exact HY|]. split; [exact HCb | exact HCr].
Qed.

End ColourFacts.

(** C7.  For every pixel with components in 0..255 the three float
    expressions of the colour transform truncate toward zero to integers in
    0..255, so the cast to an unsigned byte stores the truncated value
    itself and never wraps. *)
Theorem colour_transform_in_range :
  forall c1 c2 c3 : Z,
    0 <= c1 <= 255 -> 0 <= c2 <= 255 -> 0 <= c3 <= 255 ->
    exists Y Cb Cr,
      trunc (Y_float c1 c2 c3) = Some Y
      /\ trunc (Cb_float c1 c2 c3) = Some Cb
      /\ trunc (Cr_float c1 c2 c3) = Some Cr
      /\ 0 <= Y <= 255 /\ 0 <= Cb <= 255 /\ 0 <= Cr <= 255
      /\ convert_pixel c1 c2 c3 = (Some Y, Some Cb, Some Cr).
Proof.
  intros c1 c2 c3 H1 H2 H3.
  destruct (pixel_truncates c1 c2 c3 H1 H2 H3) as (HY & HCb & HCr).
  apply truncates_to_uint8_ok in HY, HCb, HCr.
  destruct HY as (Y & EY & HY), HCb as (Cb & ECb & HCb), HCr as (Cr & ECr & HCr).
  exists Y, Cb, Cr. repeat (split; [assumption|]).
  unfold convert_pixel, np_uint8_of_float, np_uint8.
  rewrite EY, ECb, ECr. cbn [option_map].
  rewrite !Z.mod_small by lia. reflexivity.
Qed.

Lemma colour_transform_in_range_witness :
  exists Y Cb Cr,
    trunc (Y_float 255 255 0) = Some Y
    /\ trunc (Cb_float 255 255 0) = Some Cb
    /\ trunc (Cr_float 255 255 0) = Some Cr
    /\ 0 <= Y <= 255 /\ 0 <= Cb <= 255 /\ 0 <= Cr <= 255
    /\ convert_pixel 255 255 0 = (Some Y, Some Cb, Some Cr).
Proof.
  apply (colour_transform_in_range 255 255 0); lia.
Defined.

(** White, and the two pixels at which Cb is extreme. *)
Example convert_pixel_samples :
  convert_pixel 255 255 255 = (Some 255, Some 128, Some 127)
  /\ convert_pixel 0 0 255 = (Some 29, Some 255, Some 107)
  /\ convert_pixel 255 255 0 = (Some 225, Some 0, Some 148).
Proof. vm_compute. repeat split. Qed.

(* ================================================================== *)
(** ** Quantizer *)

Section QuantizerFacts.

Lemma quantized_cell (G : array2 float) (Q : array2 Z) (v u : nat) :
  (v < 8)%nat -> (u < 8)%nat ->
  get2 None (perform_quantization_on_block G Q) (v, u)
  = quantize_cell (get2 0%float G (v, u)) (get2 0 Q (v, u)).
Proof.
  intros Hv Hu. unfold perform_quantization_on_block.
  do 8 (destruct v as [|v];
        [do 8 (destruct u as [|u]; [reflexivity|]); lia|]).
  lia.
Qed.

Lemma Q_50_ok : table_ok Q_50.
Proof.
  split; [apply is_8x8b_ok; reflexivity|].
  unfold Q_50. repeat (constructor; [repeat (constructor; [lia|]); constructor|]).
  constructor.
Qed.

Lemma constant_block_8x8 g : is_8x8 (constant_block g).
Proof. apply is_8x8b_ok. reflexivity. Qed.

Lemma np_int8_of_float_range (r : option Z) : in_int8 (np_int8_of_float r).
Proof.
  destruct r as [n|]; cbn [np_int8_of_float];
    [destruct (in_int32 n); [apply np_int8_range|] |]; unfold in_int8; lia.
Qed.

Lemma quantize_cell_in_int8 (g : float) (q n : Z) :
  quantize_cell g q = Some n -> in_int8 n.
Proof.
  unfold quantize_cell. intros H. injection H as <-.
  apply np_int8_of_float_range.
Qed.

End QuantizerFacts.

(** C5 (as the code has it).  For every 8x8 frequency block and table with
    entries in 1..255 and every cell whose float quotient [G/Q] is finite,
    [np.round] takes the quotient to the nearest integer and a tie to the
    even neighbour (0.5 to 0, 2.5 to 2), and the cell stores that integer
    cast to a signed byte: the integer itself when it lies in -128..127,
    its low byte as a signed byte when it fits 32 bits, and 0 beyond.  A
    cell whose quotient is an infinity or a NaN stores 0. *)
Theorem quantizer_rounds_half_to_even :
  forall (G : array2 float) (Q : array2 Z) (v u : nat),
    is_8x8 G -> table_ok Q -> (v < 8)%nat -> (u < 8)%nat ->
    let x := quotient (get2 0%float G (v, u)) (get2 0 Q (v, u)) in
    let cell := get2 None (perform_quantization_on_block G Q) (v, u) in
    match fraction x with
    | None => cell = Some 0
    | Some (num, den) =>
        0 < den
        /\ exists n, nearest_ties_even num den n
                     /\ (- 2 ^ 31 <= n < 2 ^ 31 -> cell = Some (np_int8 n))
                     /\ (n < - 2 ^ 31 \/ 2 ^ 31 <= n -> cell = Some 0)
                     /\ (in_int8 n -> cell = Some n)
    end.
Proof.
  intros G Q v u HG HQ Hv Hu x cell.
  unfold cell. rewrite quantized_cell by assumption.
  unfold quantize_cell. fold x.
  pose proof (np_round_nearest x) as H.
  destruct (fraction x) as [[num den]|].
  - destruct H as (Hden & n & -> & Hn). split; [assumption|].
    exists n. cbn [np_int8_of_float]. split; [exact Hn|].
    unfold in_int32. change (2 ^ 31) with 2147483648.
    split; [|split].
    + intros Hin.
      replace ((-2147483648 <=? n) && (n <=? 2147483647)) with true; [reflexivity|].
      symmetry. apply andb_true_iff. split; apply Z.leb_le; lia.
    + intros Hout.
      replace ((-2147483648 <=? n) && (n <=? 2147483647)) with false; [reflexivity|].
      symmetry. apply andb_false_iff.
      destruct Hout; [left | right]; apply Z.leb_gt; lia.
    + intros Hin. unfold in_int8 in Hin.
      replace ((-2147483648 <=? n) && (n <=? 2147483647)) with true.
      * now rewrite np_int8_small.
      * symmetry. apply andb_true_iff. split; apply Z.leb_le; lia.
  - now rewrite H.
Qed.

Lemma quantizer_rounds_half_to_even_witness :
  let x := quotient (get2 0%float (constant_block 40) (0, 0)%nat)
                    (get2 0 Q_50 (0, 0)%nat) in
  let cell :=
    get2 None (perform_quantization_on_block (constant_block 40) Q_50)
         (0, 0)%nat in
  match fraction x with
  | None => cell = Some 0
  | Some (num, den) =>
      0 < den
      /\ exists n, nearest_ties_even num den n
                   /\ (- 2 ^ 31 <= n < 2 ^ 31 -> cell = Some (np_int8 n))
                   /\ (n < - 2 ^ 31 \/ 2 ^ 31 <= n -> cell = Some 0)
                   /\ (in_int8 n -> cell = Some n)
  end.
Proof.
  apply (quantizer_rounds_half_to_even (constant_block 40) Q_50 0 0).
  - apply constant_block_8x8.
  - apply Q_50_ok.
  - lia.
  - lia.
Defined.

(** The cast on single cells: 300 keeps its low byte 44, 2^31 + 5 is
    beyond 32 bits and stores 0, and so do an infinity and a NaN. *)
Example quantize_cell_cast :
  quantize_cell 4800 16 = Some 44
  /\ quantize_cell 34359738448 16 = Some 0
  /\ quantize_cell infinity 16 = Some 0
  /\ quantize_cell nan 16 = Some 0.
Proof. repeat split; reflexivity. Qed.

(** C5, as stated, fails on ties: with every frequency 8.0 and the table
    [Q_50] the quotient of cell (0,0) is exactly 1/2 and the cell is 0,
    where rounding half away from zero gives 1; with 40.0 the quotient is
    5/2 and the cell is 2, not 3. *)
Lemma quantizer_half_away_counterexample :
  fraction (quotient 8 16) = Some (4503599627370496, 9007199254740992)
  /\ get2 None (perform_quantization_on_block (constant_block 8) Q_50) (0, 0)%nat
     = Some 0
  /\ round_half_away 4503599627370496 9007199254740992 = 1
  /\ fraction (quotient 40 16) = Some (5629499534213120, 2251799813685248)
  /\ get2 None (perform_quantization_on_block (constant_block 40) Q_50) (0, 0)%nat
     = Some 2
  /\ round_half_away 5629499534213120 2251799813685248 = 3.
Proof. vm_compute. repeat split. Qed.

(** C6 (as the code has it).  For every cell whose float quotient [G/Q] is
    finite and rounds to an integer in -128..127, the stored value is that
    integer and lies within 1/2, hence within 1, of the quotient. *)
Theorem quantizer_error_below_one_in_range :
  forall (G : array2 float) (Q : array2 Z) (v u : nat) (num den n : Z),
    is_8x8 G -> table_ok Q -> (v < 8)%nat -> (u < 8)%nat ->
    let x := quotient (get2 0%float G (v, u)) (get2 0 Q (v, u)) in
    fraction x = Some (num, den) -> np_round x = Some n -> in_int8 n ->
    get2 None (perform_quantization_on_block G Q) (v, u) = Some n
    /\ 2 * Z.abs (num - n * den) <= den
    /\ within_one num den n.
Proof.
  intros G Q v u num den n HG HQ Hv Hu x Hx Hn Hin.
  rewrite quantized_cell by assumption.
  unfold quantize_cell. fold x.
  pose proof (np_round_nearest x) as H. rewrite Hx in H.
  destruct H as (Hden & n' & Hn' & Hnear & _).
  rewrite Hn in Hn'. injection Hn' as <-.
  rewrite Hn. cbn [np_int8_of_float].
  assert (E32 : in_int32 n = true).
  { unfold in_int32, in_int8 in *. apply andb_true_iff.
    split; apply Z.leb_le; lia. }
  rewrite E32, np_int8_small by assumption.
  unfold within_one. repeat split; lia.
Qed.

Lemma quantizer_error_below_one_in_range_witness :
  get2 None (perform_quantization_on_block (constant_block 40) Q_50) (0, 0)%nat
    = Some 2
  /\ 2 * Z.abs (5629499534213120 - 2 * 2251799813685248) <= 2251799813685248
  /\ within_one 5629499534213120 2251799813685248 2.
Proof.
  apply (quantizer_error_below_one_in_range
           (constant_block 40) Q_50 0 0
           5629499534213120 2251799813685248 2).
  - apply constant_block_8x8.
  - apply Q_50_ok.
  - lia.
  - lia.
  - vm_compute. reflexivity.
  - vm_compute. reflexivity.
  - unfold in_int8. lia.
Defined.

(** C6, as stated, fails where the rounded quotient leaves the signed
    byte: with every frequency 4096.0 and the table [Q_50] the quotient of
    cell (0,0) is 256, the stored byte is 0, and no signed byte at all lies
    within 1 of 256. *)
Lemma quantizer_error_counterexample :
  fraction (quotient 4096 16) = Some (4503599627370496, 17592186044416)
  /\ get2 None (perform_quantization_on_block (constant_block 4096) Q_50)
          (0, 0)%nat
     = Some 0
  /\ ~ within_one 4503599627370496 17592186044416 0
  /\ (forall b, in_int8 b -> ~ within_one 4503599627370496 17592186044416 b).
Proof.
  split; [vm_compute; reflexivity|].
  split; [vm_compute; reflexivity|].
  unfold within_one, in_int8. split; [lia|]. intros b Hb. lia.
Qed.

(* ================================================================== *)
(** ** Rounding errors of binary64 products and sums

    [SFmul] and [SFadd] round through [binary_round_aux]: the mantissa is
    shifted right, bit by bit, and rounded to nearest even.  Away from
    overflow the result is finite and off the exact value by at most
    [u64] relatively, or [eta64]. *)

Section ShiftRight.

Lemma digits2_pos_lower (m : positive) : 2 ^ (Zpos (digits2_pos m) - 1) <= Zpos m.
Proof.
  induction m as [m IH | m IH |]; cbn [digits2_pos].
  - rewrite Pos2Z.inj_succ. replace (Z.succ (Zpos (digits2_pos m)) - 1)
      with (Z.succ (Zpos (digits2_pos m) - 1)) by lia.
    rewrite Z.pow_succ_r by lia. lia.
  - rewrite Pos2Z.inj_succ. replace (Z.succ (Zpos (digits2_pos m)) - 1)
      with (Z.succ (Zpos (digits2_pos m) - 1)) by lia.
    rewrite Z.pow_succ_r by lia. lia.
  - reflexivity.
Qed.

Lemma iter_pos_nat {A : Type} (f : A -> A) : forall (p : positive) (x : A),
  SpecFloat.iter_pos f p x = Nat.iter (Pos.to_nat p) f x.
Proof.
  induction p as [p IH | p IH |]; intros x; cbn [SpecFloat.iter_pos].
  - rewrite !IH, Pos2Nat.inj_xI.
    replace (S (2 * Pos.to_nat p)) with (Pos.to_nat p + S (Pos.to_nat p))%nat by lia.
    rewrite Nat.iter_add. f_equal. now rewrite Nat.iter_succ_r.
  - rewrite !IH, Pos2Nat.inj_xO.
    replace (2 * Pos.to_nat p)%nat with (Pos.to_nat p + Pos.to_nat p)%nat by lia.
    now rewrite Nat.iter_add.
  - reflexivity.
Qed.

Lemma shr_1_first (M : Z) :
  0 <= M -> shifted M 1 (shr_1 (Build_shr_record M false false)).
Proof.
  intros HM. unfold shifted.
  destruct M as [|p|p]; [| |exfalso; lia].
  - cbn [shr_1 orb shr_m shr_r shr_s Z.b2z]. split; [lia|]. exists 0.
    change (2 ^ (1 - 1)) with 1. change (2 ^ 1) with 2.
    split; [lia|]. split; [lia|]. tauto.
  - destruct p as [p|p|]; cbn [shr_1 orb shr_m shr_r shr_s Z.b2z];
      (split; [lia|]); exists 0; change (2 ^ (1 - 1)) with 1;
      change (2 ^ 1) with 2; (split; [lia|]); (split; [lia|]); tauto.
Qed.

Lemma shr_1_next (M j : Z) (mrs : shr_record) :
  1 <= j -> shifted M j mrs -> shifted M (j + 1) (shr_1 mrs).
Proof.
  intros Hj (Hm & low & HM & Hlow & Hs).
  destruct mrs as [m r s]. cbn [shr_m shr_r shr_s] in *.
  assert (E1 : 2 ^ (j + 1) = 2 * 2 ^ j) by (rewrite Z.pow_add_r by lia; lia).
  assert (E2 : 2 ^ j = 2 * 2 ^ (j - 1)).
  { replace j with (j - 1 + 1) at 1 by lia. rewrite Z.pow_add_r by lia. lia. }
  assert (Hp : 0 < 2 ^ (j - 1)) by (apply Z.pow_pos_nonneg; lia).
  unfold shifted. replace (j + 1 - 1) with j by lia.
  assert (Hs' : orb r s = false <-> Z.b2z r * 2 ^ (j - 1) + low = 0).
  { split; intros H.
    - destruct r; [discriminate|]. destruct s; [discriminate|].
      cbn [Z.b2z]. assert (low = 0) by (apply Hs; reflexivity). lia.
    - destruct r; cbn [Z.b2z] in H; [lia|].
      assert (E0 : low = 0) by lia. apply Hs in E0. now subst s. }
  destruct m as [|p|p]; [| |exfalso; lia].
  - cbn [shr_1 shr_m shr_r shr_s Z.b2z]. split; [lia|].
    exists (Z.b2z r * 2 ^ (j - 1) + low).
    split; [lia|]. split; [destruct r; cbn [Z.b2z]; lia | exact Hs'].
  - destruct p as [p|p|]; cbn [shr_1 shr_m shr_r shr_s Z.b2z];
      (split; [lia|]); exists (Z.b2z r * 2 ^ (j - 1) + low);
      (split; [rewrite E1; lia|]);
      (split; [destruct r; cbn [Z.b2z]; lia | exact Hs']).
Qed.

Lemma iter_shr_1 (M : Z) : forall k : nat,
  0 <= M ->
  shifted M (Z.of_nat (S k)) (Nat.iter (S k) shr_1 (Build_shr_record M false false)).
Proof.
  induction k as [|k IH]; intros HM.
  - apply shr_1_first. assumption.
  - replace (Z.of_nat (S (S k))) with (Z.of_nat (S k) + 1) by lia.
    cbn [Nat.iter]. apply shr_1_next; [lia|]. apply IH. assumption.
Qed.

Lemma shr_shifted (M : Z) (p : positive) :
  0 <= M -> shifted M (Zpos p) (SpecFloat.iter_pos shr_1 p (Build_shr_record M false false)).
Proof.
  intros HM. rewrite iter_pos_nat.
  destruct (Pos.to_nat p) as [|k] eqn:E; [lia|].
  replace (Zpos p) with (Z.of_nat (S k)) by lia.
  now apply iter_shr_1.
Qed.

(** Rounding the shifted number to nearest even is within half a unit. *)
Lemma round_shifted (M j : Z) (mrs : shr_record) :
  1 <= j -> shifted M j mrs ->
  let m1 := round_nearest_even (shr_m mrs) (loc_of_shr_record mrs) in
  0 <= m1
  /\ Z.abs (M - m1 * 2 ^ j) <= 2 ^ (j - 1)
  /\ m1 <= M / 2 ^ j + 1.
Proof.
  intros Hj (Hm & low & HM & Hlow & Hs) m1.
  destruct mrs as [m r s]. cbn [shr_m shr_r shr_s] in *.
  assert (E2 : 2 ^ j = 2 * 2 ^ (j - 1)).
  { replace j with (j - 1 + 1) at 1 by lia. rewrite Z.pow_add_r by lia. lia. }
  assert (Hp : 0 < 2 ^ (j - 1)) by (apply Z.pow_pos_nonneg; lia).
  assert (Hq : M / 2 ^ j = m).
  { symmetry. apply (Z.div_unique M (2 ^ j) m (Z.b2z r * 2 ^ (j - 1) + low)).
    - left. destruct r; cbn [Z.b2z]; lia.
    - lia. }
  rewrite Hq.
  unfold m1, round_nearest_even, loc_of_shr_record.
  destruct r, s; cbn [Z.b2z] in *.
  - assert (low <> 0) by (intros E; apply Hs in E; discriminate). lia.
  - assert (low = 0) by (apply Hs; reflexivity). destruct (Z.even m); lia.
  - assert (low <> 0) by (intros E; apply Hs in E; discriminate). lia.
  - assert (low = 0) by (apply Hs; reflexivity). lia.
Qed.

End ShiftRight.

Section RoundAux.

Lemma fexp_eq z : fexp 53 1024 z = Z.max (z - 53) (-1074).
Proof. reflexivity. Qed.

Lemma shr_nonpos mrs e n : n <= 0 -> shr mrs e n = (mrs, e).
Proof. intros H. destruct n; [reflexivity | lia | reflexivity]. Qed.

Lemma shr_pos mrs e p :
  shr mrs e (Zpos p) = (SpecFloat.iter_pos shr_1 p mrs, e + Zpos p).
Proof. reflexivity. Qed.

Lemma binary_round_aux_int (s : bool) (m : positive) (e : Z) :
  Zpos (digits2_pos m) + e <= 972 ->
  let n := fexp 53 1024 (Zpos (digits2_pos m) + e) - e in
  exists m' e',
    0 <= m' /\ e <= e'
    /\ binary_round_aux 53 1024 s (Zpos m) e loc_Exact = SF_of s m' e'
    /\ (n <= 0 -> m' = Zpos m /\ e' = e)
    /\ (0 < n -> Z.abs (Zpos m - m' * 2 ^ (e' - e)) <= 2 ^ (n - 1)).
Proof.
  intros Hbound n.
  pose proof (digits2_pos_bound m) as Hup.
  pose proof (digits2_pos_lower m) as Hlo.
  set (d := Zpos (digits2_pos m)) in *.
  assert (Hn : n = Z.max (d + e - 53) (-1074) - e) by reflexivity.
  unfold binary_round_aux, shr_fexp. cbn [Zdigits2 shr_record_of_loc].
  fold d. fold n.
  destruct (Z_lt_le_dec 0 n) as [Hpos | Hnonpos].
  - (* the mantissa is shifted and rounded *)
    destruct n as [|p|p] eqn:En; [lia | | lia].
    rewrite shr_pos.
    pose proof (shr_shifted (Zpos m) p ltac:(lia)) as Hsh.
    set (mrs := SpecFloat.iter_pos shr_1 p (Build_shr_record (Zpos m) false false)) in *.
    destruct (round_shifted (Zpos m) (Zpos p) mrs ltac:(lia) Hsh)
      as (Hm1 & Herr & Hq).
    set (m1 := round_nearest_even (shr_m mrs) (loc_of_shr_record mrs)) in *.
    assert (Hm1le : m1 <= 2 ^ 53).
    { destruct (Z_lt_le_dec d (Zpos p)) as [Hd | Hd].
      - assert (Zpos m / 2 ^ Zpos p = 0).
        { apply Z.div_small. split; [lia|].
          apply Z.lt_le_trans with (2 ^ d); [assumption|].
          apply Z.pow_le_mono_r; lia. }
        assert (1 <= 2 ^ 53) by (change 1 with (2 ^ 0); apply Z.pow_le_mono_r; lia).
        lia.
      - assert (Zpos m / 2 ^ Zpos p < 2 ^ (d - Zpos p)).
        { apply Z.div_lt_upper_bound; [apply Z.pow_pos_nonneg; lia|].
          rewrite <- Z.pow_add_r by lia. now replace (Zpos p + (d - Zpos p)) with d by lia. }
        assert (2 ^ (d - Zpos p) <= 2 ^ 53) by (apply Z.pow_le_mono_r; lia).
        lia. }
    destruct m1 as [|p1|p1] eqn:Em1; [| |lia].
    + (* rounded to zero *)
      cbn [Zdigits2]. rewrite shr_nonpos by (rewrite fexp_eq; lia).
      cbn [shr_m]. exists 0, (e + Zpos p).
      split; [lia|]. split; [lia|]. split; [reflexivity|].
      split; [lia|]. intros _. cbn [Z.mul] in Herr |- *. rewrite Z.sub_0_r in *. exact Herr.
    + cbn [Zdigits2].
      pose proof (digits2_pos_bound p1) as Hup1.
      pose proof (digits2_pos_lower p1) as Hlo1.
      set (d1 := Zpos (digits2_pos p1)) in *.
      assert (Hd1 : d1 <= 54).
      { destruct (Z_lt_le_dec 54 d1) as [H|H]; [|assumption].
        assert (2 ^ 54 <= 2 ^ (d1 - 1)) by (apply Z.pow_le_mono_r; lia).
        assert (2 ^ 53 < 2 ^ 54) by (apply Z.pow_lt_mono_r; lia). lia. }
      destruct (Z.eq_dec d1 54) as [E54 | N54].
      * (* the rounding carried into a 54th bit *)
        assert (Zpos p1 = 2 ^ 53).
        { rewrite E54 in Hlo1. change (54 - 1) with 53 in Hlo1. lia. }
        replace (fexp 53 1024 (d1 + (e + Zpos p)) - (e + Zpos p)) with 1
          by (rewrite fexp_eq; lia).
        change (shr (Build_shr_record (Zpos p1) false false) (e + Zpos p) 1)
          with (shr_1 (Build_shr_record (Zpos p1) false false), e + Zpos p + 1).
        assert (Hp1 : p1 = (2 ^ 53)%positive) by lia.
        rewrite Hp1. cbn [Pos.pow].
        exists (2 ^ 52), (e + Zpos p + 1).
        split; [lia|]. split; [lia|].
        split.
        { vm_compute (shr_1 _). cbn [shr_m].
          replace (e + Zpos p + 1 <=? 1024 - 53) with true
            by (symmetry; apply Z.leb_le; lia).
          reflexivity. }
        split; [lia|]. intros _.
        replace (e + Zpos p + 1 - e) with (Zpos p + 1) by lia.
        rewrite Z.pow_add_r by lia.
        replace (2 ^ 52 * (2 ^ Zpos p * 2 ^ 1)) with (2 ^ 53 * 2 ^ Zpos p)
          by (change (2 ^ 53) with (2 ^ 52 * 2 ^ 1); ring).
        rewrite <- H. exact Herr.
      * rewrite shr_nonpos by (rewrite fexp_eq; lia).
        cbn [shr_m].
        replace (e + Zpos p <=? 1024 - 53) with true
          by (symmetry; apply Z.leb_le; lia).
        exists (Zpos p1), (e + Zpos p).
        split; [lia|]. split; [lia|]. split; [reflexivity|].
        split; [lia|]. intros _.
        replace (e + Zpos p - e) with (Zpos p) by lia. exact Herr.
  - (* nothing is shifted out: the result is exact *)
    rewrite shr_nonpos by assumption.
    cbn [loc_of_shr_record shr_m round_nearest_even Zdigits2 shr_record_of_loc].
    fold d. fold n. rewrite shr_nonpos by assumption. cbn [shr_m].
    replace (e <=? 1024 - 53) with true by (symmetry; apply Z.leb_le; lia).
    exists (Zpos m), e.
    split; [lia|]. split; [lia|]. split; [reflexivity|].
    split; [tauto|]. lia.
Qed.

End RoundAux.

Section Pow2.

Lemma pow2_pos e : (0 < pow2 e)%Q.
Proof. apply Qpower_0_lt. reflexivity. Qed.

Lemma pow2_add a b : (pow2 (a + b) == pow2 a * pow2 b)%Q.
Proof. apply Qpower_plus. discriminate. Qed.

Lemma pow2_inject k : 0 <= k -> (inject_Z (2 ^ k) == pow2 k)%Q.
Proof. intros H. unfold pow2. now rewrite Zpower_Qpower. Qed.

Lemma pow2_le a b : a <= b -> (pow2 a <= pow2 b)%Q.
Proof. intros H. apply Qpower_le_compat_l; [assumption | discriminate]. Qed.

Lemma pow2_lt_inv a b : (pow2 a < pow2 b)%Q -> a < b.
Proof. intros H. apply (Qpower_lt_compat_l_inv 2); [exact H | reflexivity]. Qed.

Lemma u64_pos : (0 < u64)%Q.
Proof. apply pow2_pos. Qed.

Lemma eta64_pos : (0 < eta64)%Q.
Proof. apply pow2_pos. Qed.

End Pow2.

Section RoundValue.

Lemma has_value_SF_of s m' e' :
  0 <= m' -> has_value (SF_of s m' e') (signed s m' e').
Proof.
  intros H. destruct m' as [|p|p]; [| |lia]; cbn [SF_of has_value].
  - unfold signed. destruct s; cbn [cond_Zopp Z.opp]; ring.
  - reflexivity.
Qed.

Lemma has_value_eq x v w : has_value x v -> (v == w)%Q -> has_value x w.
Proof.
  destruct x; cbn [has_value]; intros H E; try assumption; now rewrite <- E.
Qed.

Lemma signed_diff s a b e :
  (signed s a e - signed s b e == signed s (a - b) e)%Q.
Proof.
  unfold signed. destruct s; cbn [cond_Zopp];
    rewrite ?inject_Z_opp; unfold Z.sub; rewrite inject_Z_plus, ?inject_Z_opp; ring.
Qed.

Lemma Qabs_signed s a e : (Qabs (signed s a e) == inject_Z (Z.abs a) * pow2 e)%Q.
Proof.
  unfold signed. rewrite Qabs_Qmult.
  rewrite (Qabs_pos (pow2 e)) by (apply Qlt_le_weak, pow2_pos).
  apply Qmult_comp; [|reflexivity].
  destruct s; cbn [cond_Zopp]; rewrite ?inject_Z_opp, ?Qabs_opp;
    unfold inject_Z, Qabs; reflexivity.
Qed.

Lemma signed_shift s m k e :
  0 <= k -> (signed s m (e + k) == signed s (m * 2 ^ k) e)%Q.
Proof.
  intros Hk. unfold signed.
  replace (cond_Zopp s (m * 2 ^ k)) with (cond_Zopp s m * 2 ^ k)
    by (destruct s; cbn [cond_Zopp]; ring).
  rewrite inject_Z_mult, pow2_add, (pow2_inject k Hk). ring.
Qed.

(** [binary_round_aux] on the exact value [m * 2 ^ e]: a finite result
    whose value is off by at most [u64] relatively, or [eta64]. *)
Lemma round_aux_value (s : bool) (m : positive) (e : Z) :
  Zpos (digits2_pos m) + e <= 972 ->
  exists v,
    has_value (binary_round_aux 53 1024 s (Zpos m) e loc_Exact) v
    /\ (Qabs (v - signed s (Zpos m) e)
        <= u64 * (inject_Z (Zpos m) * pow2 e) + eta64)%Q.
Proof.
  intros Hb.
  destruct (binary_round_aux_int s m e Hb) as (m' & e' & Hm' & He' & Hres & Hexact & Hround).
  pose proof (digits2_pos_lower m) as Hlo.
  set (d := Zpos (digits2_pos m)) in *.
  set (n := fexp 53 1024 (d + e) - e) in *.
  pose proof (pow2_pos e) as Pe. pose proof u64_pos as Pu. pose proof eta64_pos as Peta.
  assert (Pm : (0 < inject_Z (Zpos m))%Q) by (unfold Qlt; cbn; lia).
  assert (Pme : (0 < inject_Z (Zpos m) * pow2 e)%Q).
  { apply Qmult_lt_0_compat; assumption. }
  assert (Pume : (0 < u64 * (inject_Z (Zpos m) * pow2 e))%Q).
  { apply Qmult_lt_0_compat; assumption. }
  exists (signed s m' e'). rewrite Hres.
  split; [now apply has_value_SF_of|].
  destruct (Z_lt_le_dec 0 n) as [Hn | Hn].
  - specialize (Hround Hn).
    replace e' with (e + (e' - e)) by lia.
    rewrite signed_shift by lia. rewrite signed_diff, Qabs_signed.
    assert (Hr' : Z.abs (m' * 2 ^ (e' - e) - Zpos m) <= 2 ^ (n - 1)).
    { rewrite <- Z.abs_opp. replace (- (m' * 2 ^ (e' - e) - Zpos m))
        with (Zpos m - m' * 2 ^ (e' - e)) by ring. exact Hround. }
    rewrite Zle_Qle in Hr'. rewrite (pow2_inject (n - 1)) in Hr' by lia.
    apply Qle_trans with (pow2 (n - 1) * pow2 e)%Q.
    { apply Qmult_le_compat_r; [exact Hr' | now apply Qlt_le_weak]. }
    rewrite <- pow2_add.
    assert (Hfexp : n - 1 + e = Z.max (d + e - 53) (-1074) - 1)
      by (unfold n; rewrite fexp_eq; lia).
    rewrite Hfexp.
    destruct (Z.max_spec (d + e - 53) (-1074)) as [[_ ->] | [_ ->]].
    + change (pow2 (-1074 - 1)) with eta64.
      rewrite <- (Qplus_0_l eta64) at 1.
      apply Qplus_le_compat; [now apply Qlt_le_weak | apply Qle_refl].
    + replace (d + e - 53 - 1) with (-53 + ((d - 1) + e)) by lia.
      rewrite !pow2_add. fold u64.
      assert (Hd : (pow2 (d - 1) <= inject_Z (Zpos m))%Q).
      { rewrite <- (pow2_inject (d - 1)) by (unfold d; lia).
        rewrite <- Zle_Qle. exact Hlo. }
      assert ((pow2 (d - 1) * pow2 e <= inject_Z (Zpos m) * pow2 e)%Q)
        by (apply Qmult_le_compat_r; [assumption | now apply Qlt_le_weak]).
      assert ((u64 * (pow2 (d - 1) * pow2 e)
               <= u64 * (inject_Z (Zpos m) * pow2 e))%Q)
        by (apply Qmult_le_l; assumption).
      apply Qle_trans with (1 := H0).
      rewrite <- (Qplus_0_r (u64 * (inject_Z (Zpos m) * pow2 e))) at 1.
      apply Qplus_le_r. now apply Qlt_le_weak.
  - destruct (Hexact Hn) as [-> ->].
    setoid_replace (signed s (Zpos m) e - signed s (Zpos m) e)%Q with 0%Q by ring.
    change (Qabs 0) with 0%Q.
    rewrite <- (Qplus_0_r 0) at 1.
    apply Qplus_le_compat; now apply Qlt_le_weak.
Qed.

End RoundValue.

Section OpValue.

Lemma pow2_le_inv a b : (pow2 a <= pow2 b)%Q -> a <= b.
Proof. intros H. apply (Qpower_le_compat_l_inv 2); [exact H | reflexivity]. Qed.

Lemma inject_pos_pos m : (0 < inject_Z (Zpos m))%Q.
Proof. unfold Qlt; cbn; lia. Qed.

Lemma digits_bound m e b :
  (inject_Z (Zpos m) * pow2 e <= pow2 b)%Q -> Zpos (digits2_pos m) + e <= b + 1.
Proof.
  intros H. pose proof (digits2_pos_lower m) as Hlo.
  set (d := Zpos (digits2_pos m)) in *.
  assert (Hd : (pow2 (d - 1) <= inject_Z (Zpos m))%Q).
  { rewrite <- (pow2_inject (d - 1)) by (unfold d; lia).
    rewrite <- Zle_Qle. exact Hlo. }
  assert (H1 : (pow2 (d - 1 + e) <= pow2 b)%Q).
  { rewrite pow2_add. apply Qle_trans with (2 := H).
    apply Qmult_le_compat_r; [exact Hd | apply Qlt_le_weak, pow2_pos]. }
  apply pow2_le_inv in H1. lia.
Qed.

Lemma round_value (s : bool) (m : positive) (e : Z) :
  (inject_Z (Zpos m) * pow2 e <= pow2 970)%Q ->
  exists v,
    has_value (binary_round_aux 53 1024 s (Zpos m) e loc_Exact) v
    /\ (Qabs (v - signed s (Zpos m) e)
        <= u64 * (inject_Z (Zpos m) * pow2 e) + eta64)%Q.
Proof.
  intros H. apply round_aux_value. apply digits_bound in H. lia.
Qed.

Lemma shl_align_value (m : positive) (e e' : Z) :
  (inject_Z (Zpos (fst (shl_align m e e'))) * pow2 (snd (shl_align m e e'))
   == inject_Z (Zpos m) * pow2 e)%Q.
Proof.
  unfold shl_align. destruct (e' - e) as [|d|d] eqn:E; cbn [fst snd];
    try reflexivity.
  change (PosDef.Pos.iter xO m d) with (shift_pos d m).
  rewrite shift_pos_correct, Z.pow_pos_fold.
  replace e with (e' + Zpos d) by lia.
  rewrite pow2_add, inject_Z_mult, (pow2_inject (Zpos d)) by lia. ring.
Qed.

Lemma shl_align_down (m : positive) (e e' : Z) :
  e' <= e -> Zpos (fst (shl_align m e e')) = Zpos m * 2 ^ (e - e').
Proof.
  intros H. unfold shl_align. destruct (e' - e) as [|d|d] eqn:E; cbn [fst];
    try lia.
  - replace (e - e') with 0 by lia. lia.
  - change (PosDef.Pos.iter xO m d) with (shift_pos d m).
    rewrite shift_pos_correct, Z.pow_pos_fold.
    replace (e - e') with (Zpos d) by lia. ring.
Qed.

Lemma binary_round_value (s : bool) (m : positive) (e : Z) :
  (inject_Z (Zpos m) * pow2 e <= pow2 970)%Q ->
  exists v,
    has_value (binary_round 53 1024 s m e) v
    /\ (Qabs (v - signed s (Zpos m) e)
        <= u64 * (inject_Z (Zpos m) * pow2 e) + eta64)%Q.
Proof.
  intros H. unfold binary_round.
  pose proof (shl_align_value m e (fexp 53 1024 (Zpos (digits2_pos m) + e))) as E.
  destruct (shl_align m e (fexp 53 1024 (Zpos (digits2_pos m) + e))) as [mz ez].
  cbn [fst snd] in E.
  destruct (round_value s mz ez) as (v & Hv & Hb).
  { rewrite E. exact H. }
  exists v. split; [exact Hv|].
  assert (Es : (signed s (Zpos m) e == signed s (Zpos mz) ez)%Q).
  { unfold signed. destruct s; cbn [cond_Zopp];
      rewrite ?inject_Z_opp; rewrite <- ?E; [|now rewrite E].
    setoid_replace (- inject_Z (Zpos m) * pow2 e)%Q
      with (- (inject_Z (Zpos m) * pow2 e))%Q by ring.
    rewrite <- E. ring. }
  rewrite Es, <- E. exact Hb.
Qed.

Lemma signed_mul sx sy mx my ex ey :
  (signed sx mx ex * signed sy my ey
   == signed (xorb sx sy) (mx * my) (ex + ey))%Q.
Proof.
  unfold signed. rewrite pow2_add.
  destruct sx, sy; cbn [xorb cond_Zopp];
    rewrite ?inject_Z_opp, inject_Z_mult; ring.
Qed.

Lemma Qabs_zero_le (w : Q) : (w == 0 -> Qabs (0 - w) <= u64 * Qabs w + eta64)%Q.
Proof.
  intros E. rewrite E. change (Qabs (0 - 0)) with 0%Q. change (Qabs 0) with 0%Q.
  setoid_replace (u64 * 0 + eta64)%Q with eta64 by ring.
  apply Qlt_le_weak, eta64_pos.
Qed.

(** A product of two finite values, far from overflow, is finite and off
    the exact product by at most [u64] relatively, or [eta64]. *)
Lemma SFmul_value (x y : spec_float) (vx vy : Q) :
  has_value x vx -> has_value y vy ->
  (Qabs (vx * vy) <= pow2 970)%Q ->
  exists v,
    has_value (SFmul 53 1024 x y) v
    /\ (Qabs (v - vx * vy) <= u64 * Qabs (vx * vy) + eta64)%Q.
Proof.
  intros Hx Hy Hb.
  destruct x as [sx | sx | | sx mx ex]; cbn [has_value] in Hx; try contradiction;
    destruct y as [sy | sy | | sy my ey]; cbn [has_value] in Hy; try contradiction;
    cbn [SFmul].
  - exists 0%Q. split; [reflexivity|]. apply Qabs_zero_le. rewrite Hx. ring.
  - exists 0%Q. split; [reflexivity|]. apply Qabs_zero_le. rewrite Hx. ring.
  - exists 0%Q. split; [reflexivity|]. apply Qabs_zero_le. rewrite Hy. ring.
  - assert (E : (vx * vy == signed (xorb sx sy) (Zpos (mx * my)) (ex + ey))%Q).
    { rewrite Hx, Hy. apply signed_mul. }
    assert (Ea : (Qabs (vx * vy) == inject_Z (Zpos (mx * my)) * pow2 (ex + ey))%Q).
    { rewrite E, Qabs_signed. reflexivity. }
    destruct (round_value (xorb sx sy) (mx * my) (ex + ey)) as (v & Hv & He).
    { rewrite <- Ea. exact Hb. }
    exists v. split; [exact Hv|]. rewrite E at 1. rewrite Ea. exact He.
Qed.

Lemma signed_add sx sy mx my ex ey :
  let ez := Z.min ex ey in
  (signed sx (Zpos mx) ex + signed sy (Zpos my) ey
   == inject_Z (cond_Zopp sx (Zpos (fst (shl_align mx ex ez)))
                + cond_Zopp sy (Zpos (fst (shl_align my ey ez))))
      * pow2 ez)%Q.
Proof.
  intros ez.
  rewrite !shl_align_down by (unfold ez; lia).
  replace ex with (ez + (ex - ez)) at 1 by lia.
  replace ey with (ez + (ey - ez)) at 1 by lia.
  rewrite !signed_shift by (unfold ez; lia).
  unfold signed. rewrite inject_Z_plus. ring.
Qed.

Lemma binary_normalize_value (M e : Z) :
  (Qabs (inject_Z M * pow2 e) <= pow2 970)%Q ->
  exists v,
    has_value (binary_normalize 53 1024 M e false) v
    /\ (Qabs (v - inject_Z M * pow2 e)
        <= u64 * Qabs (inject_Z M * pow2 e) + eta64)%Q.
Proof.
  intros Hb. destruct M as [|m|m]; cbn [binary_normalize].
  - exists 0%Q. split; [reflexivity|]. apply Qabs_zero_le. ring.
  - assert (Ea : (Qabs (inject_Z (Zpos m) * pow2 e) == inject_Z (Zpos m) * pow2 e)%Q).
    { apply Qabs_pos. apply Qlt_le_weak, Qmult_lt_0_compat;
        [apply inject_pos_pos | apply pow2_pos]. }
    destruct (binary_round_value false m e) as (v & Hv & He).
    { rewrite <- Ea. exact Hb. }
    exists v. split; [exact Hv|]. rewrite Ea. exact He.
  - assert (Ea : (Qabs (inject_Z (Zneg m) * pow2 e) == inject_Z (Zpos m) * pow2 e)%Q).
    { change (inject_Z (Zneg m) * pow2 e)%Q with (signed true (Zpos m) e).
      rewrite Qabs_signed. reflexivity. }
    destruct (binary_round_value true m e) as (v & Hv & He).
    { rewrite <- Ea. exact Hb. }
    exists v. split; [exact Hv|]. rewrite Ea. exact He.
Qed.

Lemma Qabs_exact_le (w v : Q) : (v == w -> Qabs (v - w) <= u64 * Qabs w + eta64)%Q.
Proof.
  intros E. setoid_replace (v - w)%Q with 0%Q by (rewrite E; ring).
  change (Qabs 0) with 0%Q.
  rewrite <- (Qplus_0_r 0) at 1.
  apply Qplus_le_compat; [|apply Qlt_le_weak, eta64_pos].
  apply Qmult_le_0_compat; [apply Qlt_le_weak, u64_pos | apply Qabs_nonneg].
Qed.

(** The same for a sum. *)
Lemma SFadd_value (x y : spec_float) (vx vy : Q) :
  has_value x vx -> has_value y vy ->
  (Qabs (vx + vy) <= pow2 970)%Q ->
  exists v,
    has_value (SFadd 53 1024 x y) v
    /\ (Qabs (v - (vx + vy)) <= u64 * Qabs (vx + vy) + eta64)%Q.
Proof.
  intros Hx Hy Hb.
  destruct x as [sx | sx | | sx mx ex]; cbn [has_value] in Hx; try contradiction;
    destruct y as [sy | sy | | sy my ey]; cbn [has_value] in Hy; try contradiction;
    cbn [SFadd].
  - exists 0%Q. split; [destruct sx, sy; reflexivity|].
    apply Qabs_zero_le. rewrite Hx, Hy. ring.
  - exists vy. split; [exact Hy|]. apply Qabs_exact_le. rewrite Hx. ring.
  - exists vx. split; [exact Hx|]. apply Qabs_exact_le. rewrite Hy. ring.
  - pose proof (signed_add sx sy mx my ex ey) as E. cbv zeta in E.
    change (IntDef.Z.min ex ey) with (Z.min ex ey).
    set (M := cond_Zopp sx (Zpos (fst (shl_align mx ex (Z.min ex ey))))
              + cond_Zopp sy (Zpos (fst (shl_align my ey (Z.min ex ey))))) in *.
    assert (E' : (vx + vy == inject_Z M * pow2 (Z.min ex ey))%Q).
    { rewrite Hx, Hy. exact E. }
    destruct (binary_normalize_value M (Z.min ex ey)) as (v & Hv & He).
    { rewrite <- E'. exact Hb. }
    exists v. split; [exact Hv|]. rewrite E'. exact He.
Qed.

End OpValue.

Section QFacts.
Local Open Scope Q_scope.

Lemma Qabs_mult_le (a b A B : Q) :
  Qabs a <= A -> Qabs b <= B -> Qabs (a * b) <= A * B.
Proof.
  intros Ha Hb. rewrite Qabs_Qmult.
  pose proof (Qabs_nonneg a). pose proof (Qabs_nonneg b).
  apply Qle_trans with (Qabs a * B).
  - rewrite (Qmult_comm (Qabs a) (Qabs b)), (Qmult_comm (Qabs a) B).
    apply Qmult_le_compat_r; assumption.
  - apply Qmult_le_compat_r; [assumption|]. apply Qle_trans with (Qabs b); assumption.
Qed.

Lemma Qabs_plus_le (a b A B : Q) :
  Qabs a <= A -> Qabs b <= B -> Qabs (a + b) <= A + B.
Proof.
  intros Ha Hb. apply Qle_trans with (1 := Qabs_triangle a b).
  apply Qplus_le_compat; assumption.
Qed.

Lemma Qabs_near (a b e B : Q) : Qabs (a - b) <= e -> Qabs b <= B -> Qabs a <= B + e.
Proof.
  intros H1 H2. setoid_replace a with (b + (a - b)) by ring.
  now apply Qabs_plus_le.
Qed.

Lemma Qabs_chain (a b c e1 e2 : Q) :
  Qabs (a - b) <= e1 -> Qabs (b - c) <= e2 -> Qabs (a - c) <= e1 + e2.
Proof.
  intros H1 H2. setoid_replace (a - c) with ((a - b) + (b - c)) by ring.
  now apply Qabs_plus_le.
Qed.

(** The product of two approximations. *)
Lemma Qabs_mult_near (a a' b b' ea eb A' B : Q) :
  Qabs (a - a') <= ea -> Qabs (b - b') <= eb -> Qabs a' <= A' -> Qabs b <= B ->
  Qabs (a * b - a' * b') <= ea * B + A' * eb.
Proof.
  intros Ha Hb HA HB.
  setoid_replace (a * b - a' * b') with ((a - a') * b + a' * (b - b')) by ring.
  apply Qabs_plus_le; now apply Qabs_mult_le.
Qed.

Lemma Qmult_le_l_nonneg (x y z : Q) : 0 <= z -> x <= y -> z * x <= z * y.
Proof.
  intros Hz H. rewrite (Qmult_comm z x), (Qmult_comm z y).
  now apply Qmult_le_compat_r.
Qed.

End QFacts.

Section FloatValue.
Local Open Scope Q_scope.

Lemma round_err_small (w : Q) :
  Qabs w <= pow2 15 -> u64 * Qabs w + eta64 <= delta.
Proof.
  intros H.
  assert (H1 : u64 * Qabs w <= pow2 (-38)).
  { setoid_replace (pow2 (-38)) with (u64 * pow2 15) by reflexivity.
    apply Qmult_le_l; [apply u64_pos | exact H]. }
  assert (H2 : eta64 <= pow2 (-38)) by (apply pow2_le; lia).
  setoid_replace delta with (pow2 (-38) + pow2 (-38)) by reflexivity.
  now apply Qplus_le_compat.
Qed.

Lemma pow2_15_le_970 : pow2 15 <= pow2 970.
Proof. apply pow2_le. lia. Qed.

Lemma mul_value (x y : float) (vx vy : Q) :
  value_of x vx -> value_of y vy -> Qabs (vx * vy) <= pow2 15 ->
  exists v, value_of (x * y)%float v /\ Qabs (v - vx * vy) <= delta.
Proof.
  intros Hx Hy Hb. unfold value_of in *. rewrite mul_spec.
  destruct (SFmul_value _ _ _ _ Hx Hy) as (v & Hv & He).
  { apply Qle_trans with (1 := Hb), pow2_15_le_970. }
  exists v. split; [exact Hv|].
  apply Qle_trans with (1 := He). now apply round_err_small.
Qed.

Lemma add_value (x y : float) (vx vy : Q) :
  value_of x vx -> value_of y vy -> Qabs (vx + vy) <= pow2 15 ->
  exists v, value_of (x + y)%float v /\ Qabs (v - (vx + vy)) <= delta.
Proof.
  intros Hx Hy Hb. unfold value_of in *. rewrite add_spec.
  destruct (SFadd_value _ _ _ _ Hx Hy) as (v & Hv & He).
  { apply Qle_trans with (1 := Hb), pow2_15_le_970. }
  exists v. split; [exact Hv|].
  apply Qle_trans with (1 := He). now apply round_err_small.
Qed.

End FloatValue.

(* ================================================================== *)
(** ** Forward DCT *)

Section DCTFacts.

Lemma fold_left_ext_in {A B : Type} (f g : A -> B -> A) (l : list B) :
  (forall a x, In x l -> f a x = g a x) ->
  forall a, fold_left f l a = fold_left g l a.
Proof.
  induction l as [|x l IH]; intros H a; [reflexivity|].
  cbn [fold_left]. rewrite H by (left; reflexivity).
  apply IH. intros a' x' Hx'. apply H. now right.
Qed.

(** The pixel sum only looks at the cosine on the angles of its row and
    column of frequencies. *)
Lemma pixel_sum_ext (c1 c2 : float -> float) g oy ox v u :
  (forall i, (i < 8)%nat -> c1 (angle i u) = c2 (angle i u)) ->
  (forall i, (i < 8)%nat -> c1 (angle i v) = c2 (angle i v)) ->
  pixel_sum c1 g oy ox v u = pixel_sum c2 g oy ox v u.
Proof.
  intros Hu Hv. unfold pixel_sum.
  apply fold_left_ext_in. intros a i_y Hy. apply in_seq in Hy.
  apply fold_left_ext_in. intros a' i_x Hx. apply in_seq in Hx.
  rewrite Hu, Hv by lia. reflexivity.
Qed.

(** For the frequency 0 every angle is 0. *)
Lemma angle_zero i : (i < 8)%nat -> angle i 0 = 0%float.
Proof.
  intros Hi.
  do 8 (destruct i as [|i]; [vm_compute; reflexivity|]). lia.
Qed.

Lemma frequency_cell (np_cos : float -> float) g oy ox (v u : nat) :
  (v < 8)%nat -> (u < 8)%nat ->
  get2 0%float (perform_DCT_on_block np_cos g oy ox) (v, u)
  = frequency np_cos g oy ox v u.
Proof.
  intros Hv Hu. unfold perform_DCT_on_block.
  do 8 (destruct v as [|v];
        [do 8 (destruct u as [|u]; [reflexivity|]); lia|]).
  lia.
Qed.

Lemma uniform_block_get2 k p : get2 0 (uniform_block k) p = k \/ get2 0 (uniform_block k) p = 0.
Proof.
  unfold get2, uniform_block. destruct p as [r c]. cbn [fst snd].
  destruct (Nat.lt_ge_cases r 8) as [Hr | Hr].
  - rewrite nth_repeat_lt by assumption.
    destruct (Nat.lt_ge_cases c 8) as [Hc | Hc].
    + left. now apply nth_repeat_lt.
    + right. apply nth_overflow. now rewrite repeat_length.
  - right. rewrite (nth_overflow (repeat (repeat k 8) 8))
      by now rewrite repeat_length.
    now destruct c.
Qed.

Lemma zero_block_get2 p : of_int8 (get2 0 (uniform_block 0) p) = 0%float.
Proof. destruct (uniform_block_get2 0 p) as [-> | ->]; reflexivity. Qed.

Lemma Prim2SF_zero : Prim2SF 0%float = S754_zero false.
Proof. reflexivity. Qed.

(** Adding the product of zero with two finite values to [0.0] leaves
    [0.0]. *)
Lemma add_zero_product (c1 c2 : float) :
  finite_float c1 = true -> finite_float c2 = true ->
  (0 + 0 * c1 * c2)%float = 0%float.
Proof.
  unfold finite_float. intros H1 H2.
  apply Prim2SF_inj. rewrite add_spec, !mul_spec, Prim2SF_zero.
  destruct (Prim2SF c1) as [s1 | s1 | | s1 m1 e1]; try discriminate;
    destruct (Prim2SF c2) as [s2 | s2 | | s2 m2 e2]; try discriminate;
    destruct s1, s2; reflexivity.
Qed.

Lemma zero_times_scale v u :
  (0 * (1.0 / 4.0 * alpha v * alpha u))%float = 0%float.
Proof.
  unfold alpha. destruct (v =? 0)%nat, (u =? 0)%nat; vm_compute; reflexivity.
Qed.

Lemma frequency_of_zero_block (np_cos : float -> float) v u :
  cosine_finite np_cos -> (v < 8)%nat -> (u < 8)%nat ->
  frequency np_cos (uniform_block 0) 0 0 v u = 0%float.
Proof.
  intros Hfin Hv Hu. unfold frequency.
  assert (E : pixel_sum np_cos (uniform_block 0) 0 0 v u = 0%float).
  { unfold pixel_sum. cbn [fold_left seq].
    rewrite !zero_block_get2.
    rewrite !add_zero_product by (apply Hfin; lia).
    reflexivity. }
  rewrite E. apply zero_times_scale.
Qed.

Lemma dc_of_uniform_block (np_cos : float -> float) k :
  np_cos 0%float = 1%float ->
  frequency np_cos (uniform_block k) 0 0 0 0 = dc_of_uniform k.
Proof.
  intros H0. unfold dc_of_uniform, frequency. f_equal.
  apply pixel_sum_ext; intros i Hi; now rewrite angle_zero.
Qed.

Lemma forallb_In {A : Type} (f : A -> bool) (l : list A) (x : A) :
  forallb f l = true -> In x l -> f x = true.
Proof. intros H. rewrite forallb_forall in H. apply H. Qed.

(** All 256 samples, by evaluation. *)
Lemma dc_near_8k_all : forallb dc_near_8k int8_values = true.
Proof. vm_compute. reflexivity. Qed.

Lemma in_int8_values k : in_int8 k -> In k int8_values.
Proof.
  unfold in_int8, int8_values. intros Hk.
  replace k with (Z.of_nat (Z.to_nat (k + 128)) - 128) by lia.
  apply (in_map (fun i => Z.of_nat i - 128)). apply in_seq. lia.
Qed.

End DCTFacts.

Lemma cos_approx_finite : cosine_finite cos_approx.
Proof.
  intros i j Hi Hj.
  do 8 (destruct i as [|i];
        [do 8 (destruct j as [|j]; [vm_compute; reflexivity|]); lia|]).
  lia.
Qed.

(* ================================================================== *)
(** ** Forward DCT of a uniform block *)

Section UniformBlock.
Local Open Scope Q_scope.

Lemma value_check_sound x q : value_check x q = true -> value_of x q.
Proof.
  unfold value_check, finite_float, float_value, value_of.
  intros H. apply andb_true_iff in H. destruct H as [Hf He].
  apply Qeq_bool_eq in He.
  destruct (Prim2SF x); try discriminate; cbn [has_value]; now symmetry.
Qed.

Lemma float_value_of x : finite_float x = true -> value_of x (float_value x).
Proof.
  unfold value_of, finite_float, float_value.
  destruct (Prim2SF x); try discriminate; intros _; reflexivity.
Qed.

Lemma of_int8_values_checked :
  forallb (fun k => value_check (of_int8 k) (inject_Z k)) int8_values = true.
Proof. vm_compute. reflexivity. Qed.

Lemma of_int8_value k : in_int8 k -> value_of (of_int8 k) (inject_Z k).
Proof.
  intros Hk. apply value_check_sound.
  exact (forallb_In _ _ _ of_int8_values_checked (in_int8_values k Hk)).
Qed.

Lemma Qabs_inject k : Qabs (inject_Z k) == inject_Z (Z.abs k).
Proof. unfold Qabs, inject_Z. reflexivity. Qed.

Lemma Qabs_int8 k : in_int8 k -> Qabs (inject_Z k) <= 128.
Proof.
  intros Hk. rewrite Qabs_inject. change 128 with (inject_Z 128).
  rewrite <- Zle_Qle. unfold in_int8 in Hk. lia.
Qed.

Lemma Qabs_nonzero_int k : k <> 0%Z -> 1 <= Qabs (inject_Z k).
Proof.
  intros Hn. rewrite Qabs_inject. change 1 with (inject_Z 1).
  rewrite <- Zle_Qle. lia.
Qed.

Lemma value_of_zero : value_of 0%float 0.
Proof. reflexivity. Qed.

Lemma in_seq_8 i : (i < 8)%nat -> In i (seq 0 8).
Proof. intros H. apply in_seq. lia. Qed.

Lemma Forall_seq_8 : Forall (fun i => (i < 8)%nat) (seq 0 8).
Proof. apply Forall_forall. intros i Hi. apply in_seq in Hi. lia. Qed.

Lemma count_bounds (n : nat) :
  (n <= 64)%nat ->
  0 <= inject_Z (Z.of_nat n) /\ inject_Z (Z.of_nat n) <= 64.
Proof.
  intros H. change 0 with (inject_Z 0). change 64 with (inject_Z 64).
  rewrite <- !Zle_Qle. lia.
Qed.

Lemma count_succ (n : nat) :
  inject_Z (Z.of_nat (S n)) == inject_Z (Z.of_nat n) + 1.
Proof. rewrite Nat2Z.inj_succ. unfold Z.succ. now rewrite inject_Z_plus. Qed.

Variable np_cos : float -> float.
Variable k : Z.
Hypothesis Hcos : cosine_balanced np_cos.
Hypothesis Hk : in_int8 k.

Lemma cos_value_of i j :
  (i < 8)%nat -> (j < 8)%nat ->
  value_of (np_cos (angle i j)) (cos_value np_cos i j)
  /\ Qabs (cos_value np_cos i j) <= 1.
Proof.
  intros Hi Hj. pose proof Hcos as H. unfold cosine_balanced, cosine_balancedb in H.
  apply andb_true_iff in H. destruct H as [H _].
  rewrite forallb_forall in H. specialize (H i (in_seq_8 i Hi)).
  rewrite forallb_forall in H. specialize (H j (in_seq_8 j Hj)).
  apply andb_true_iff in H. destruct H as [Hf Hb]. split.
  - now apply float_value_of.
  - now apply Qle_bool_imp_le.
Qed.

Lemma column_sum_le_8 u : (u < 8)%nat -> Qabs (column_sum np_cos u) <= 8.
Proof.
  intros Hu. unfold column_sum. cbn [fold_left seq].
  pose proof (fun i Hi => proj2 (cos_value_of i u Hi Hu)) as H.
  setoid_replace 8 with (0 + 1 + 1 + 1 + 1 + 1 + 1 + 1 + 1) by reflexivity.
  repeat (apply Qabs_plus_le; [|apply H; lia]).
  discriminate.
Qed.

Lemma column_sum_small u :
  (u < 8)%nat -> u <> 0%nat -> Qabs (column_sum np_cos u) <= cos_sum_eps.
Proof.
  intros Hu Hn. pose proof Hcos as H. unfold cosine_balanced, cosine_balancedb in H.
  apply andb_true_iff in H. destruct H as [_ H].
  rewrite forallb_forall in H.
  apply Qle_bool_imp_le. apply H. apply in_seq. lia.
Qed.

Lemma exact_sum_factors K v u :
  exact_sum np_cos K v u == K * (column_sum np_cos u * column_sum np_cos v).
Proof. unfold exact_sum, column_sum. cbn [fold_left seq]. ring. Qed.

Lemma exact_sum_small K v u :
  (v < 8)%nat -> (u < 8)%nat -> (v <> 0%nat \/ u <> 0%nat) ->
  Qabs (exact_sum np_cos K v u) <= Qabs K * (8 * cos_sum_eps).
Proof.
  intros Hv Hu Hn. rewrite exact_sum_factors, Qabs_Qmult.
  apply Qmult_le_l_nonneg; [apply Qabs_nonneg|].
  destruct Hn as [Hn | Hn].
  - apply Qabs_mult_le.
    + now apply column_sum_le_8.
    + now apply column_sum_small.
  - rewrite (Qmult_comm 8 cos_sum_eps). apply Qabs_mult_le.
    + now apply column_sum_small.
    + now apply column_sum_le_8.
Qed.

(** One term of the pixel sum. *)
Lemma term_value ix iy u v :
  (ix < 8)%nat -> (iy < 8)%nat -> (u < 8)%nat -> (v < 8)%nat ->
  exists t,
    value_of (of_int8 k * np_cos (angle ix u) * np_cos (angle iy v))%float t
    /\ Qabs (t - inject_Z k * (cos_value np_cos ix u * cos_value np_cos iy v))
       <= 2 * delta
    /\ Qabs (inject_Z k * (cos_value np_cos ix u * cos_value np_cos iy v))
       <= Qabs (inject_Z k).
Proof.
  intros Hix Hiy Hu Hv.
  destruct (cos_value_of ix u Hix Hu) as [Hc1 Hb1].
  destruct (cos_value_of iy v Hiy Hv) as [Hc2 Hb2].
  pose proof (Qabs_int8 k Hk) as HK.
  pose proof (of_int8_value k Hk) as HKv.
  set (c1 := cos_value np_cos ix u) in *.
  set (c2 := cos_value np_cos iy v) in *.
  destruct (mul_value _ _ _ _ HKv Hc1) as (p1 & Hp1 & He1).
  { apply Qle_trans with (128 * 1); [now apply Qabs_mult_le|].
    apply Qle_bool_imp_le. reflexivity. }
  assert (Hp1b : Qabs p1 <= 129).
  { apply Qle_trans with (128 * 1 + delta).
    - apply Qabs_near with (inject_Z k * c1); [exact He1 | now apply Qabs_mult_le].
    - apply Qle_bool_imp_le. reflexivity. }
  destruct (mul_value _ _ _ _ Hp1 Hc2) as (p2 & Hp2 & He2).
  { apply Qle_trans with (129 * 1); [now apply Qabs_mult_le|].
    apply Qle_bool_imp_le. reflexivity. }
  exists p2. split; [exact Hp2|]. split.
  - setoid_replace (inject_Z k * (c1 * c2)) with (inject_Z k * c1 * c2) by ring.
    setoid_replace (2 * delta) with (delta + delta * 1) by ring.
    apply Qabs_chain with (p1 * c2); [exact He2|].
    setoid_replace (p1 * c2 - inject_Z k * c1 * c2)
      with ((p1 - inject_Z k * c1) * c2) by ring.
    now apply Qabs_mult_le.
  - apply Qle_trans with (Qabs (inject_Z k) * (1 * 1)).
    + apply Qabs_mult_le; [apply Qle_refl|]. now apply Qabs_mult_le.
    + setoid_replace (Qabs (inject_Z k) * (1 * 1)) with (Qabs (inject_Z k))
        by ring.
      apply Qle_refl.
Qed.

(** Adding one term keeps the invariant. *)
Lemma sum_step acc s n ix iy u v :
  (n < 64)%nat -> sum_invariant (inject_Z k) acc s n ->
  (ix < 8)%nat -> (iy < 8)%nat -> (u < 8)%nat -> (v < 8)%nat ->
  sum_invariant (inject_Z k)
    (acc + of_int8 k * np_cos (angle ix u) * np_cos (angle iy v))%float
    (s + inject_Z k * (cos_value np_cos ix u * cos_value np_cos iy v)) (S n).
Proof.
  intros Hn (a & Ha & Hd & Hs) Hix Hiy Hu Hv.
  destruct (term_value ix iy u v Hix Hiy Hu Hv) as (t & Ht & Hte & Htb).
  pose proof (Qabs_int8 k Hk) as HK.
  pose proof (Qabs_nonneg (inject_Z k)) as HK0.
  destruct (count_bounds n) as [HN0 HN]; [lia|].
  set (N := inject_Z (Z.of_nat n)) in *.
  set (X := inject_Z k * (cos_value np_cos ix u * cos_value np_cos iy v)) in *.
  assert (HE : 0 <= step_err /\ step_err <= 1)
    by (split; apply Qle_bool_imp_le; reflexivity).
  assert (HNE : N * step_err <= 64 * 1)
    by (apply Qmult_le_compat_nonneg; split; tauto).
  assert (HNK : N * Qabs (inject_Z k) <= 64 * 128)
    by (apply Qmult_le_compat_nonneg; split; assumption).
  assert (Hab : Qabs a <= 64 * 128 + 64 * 1).
  { apply Qle_trans with (N * Qabs (inject_Z k) + N * step_err).
    - now apply Qabs_near with s.
    - now apply Qplus_le_compat. }
  assert (Htb' : Qabs t <= 128 + 2 * delta).
  { apply Qle_trans with (Qabs (inject_Z k) + 2 * delta).
    - now apply Qabs_near with X.
    - apply Qplus_le_l. exact HK. }
  destruct (add_value _ _ _ _ Ha Ht) as (a' & Ha' & He').
  { apply Qle_trans with (64 * 128 + 64 * 1 + (128 + 2 * delta)).
    - now apply Qabs_plus_le.
    - apply Qle_bool_imp_le. reflexivity. }
  exists a'. split; [exact Ha'|]. rewrite count_succ. fold N. split.
  - setoid_replace ((N + 1) * step_err)
      with (delta + (N * step_err + 2 * delta)) by (unfold step_err; ring).
    apply Qabs_chain with (a + t); [exact He'|].
    setoid_replace (a + t - (s + X)) with ((a - s) + (t - X)) by ring.
    now apply Qabs_plus_le.
  - setoid_replace ((N + 1) * Qabs (inject_Z k))
      with (N * Qabs (inject_Z k) + Qabs (inject_Z k)) by ring.
    now apply Qabs_plus_le.
Qed.

Lemma fold_invariant {A : Type} (fstep : float -> A -> float)
      (qstep : Q -> A -> Q) (c : nat) (P : A -> Prop) :
  (forall acc s n x, P x -> (n + c <= 64)%nat ->
     sum_invariant (inject_Z k) acc s n ->
     sum_invariant (inject_Z k) (fstep acc x) (qstep s x) (n + c)) ->
  forall l acc s n,
    Forall P l -> (n + c * length l <= 64)%nat ->
    sum_invariant (inject_Z k) acc s n ->
    sum_invariant (inject_Z k) (fold_left fstep l acc) (fold_left qstep l s)
                  (n + c * length l).
Proof.
  intros Hstep. induction l as [|x l IH]; intros acc s n HP Hn Hinv.
  - cbn [fold_left length]. now replace (n + c * 0)%nat with n by lia.
  - cbn [fold_left length] in *.
    apply Forall_cons_iff in HP. destruct HP as [Hx HP].
    replace (n + c * S (length l))%nat with (n + c + c * length l)%nat by lia.
    apply IH; [exact HP | lia |]. apply Hstep; [exact Hx | lia | exact Hinv].
Qed.

Lemma sum_invariant_start : sum_invariant (inject_Z k) 0%float 0 0.
Proof.
  exists 0. split; [exact value_of_zero|]. cbn [Z.of_nat]. split.
  - setoid_replace (inject_Z 0 * step_err) with 0 by ring. discriminate.
  - setoid_replace (inject_Z 0 * Qabs (inject_Z k)) with 0 by ring. discriminate.
Qed.

Lemma uniform_block_in i j :
  (i < 8)%nat -> (j < 8)%nat -> get2 0%Z (uniform_block k) (i, j) = k.
Proof.
  intros Hi Hj. unfold get2, uniform_block. cbn [fst snd].
  rewrite nth_repeat_lt by assumption. now apply nth_repeat_lt.
Qed.

(** The pixel sum of the uniform block reads the sample [k] 64 times. *)
Lemma pixel_sum_uniform v u :
  pixel_sum np_cos (uniform_block k) 0 0 v u
  = fold_left
      (fun acc i_y =>
         fold_left
           (fun acc i_x =>
              (acc + of_int8 k * np_cos (angle i_x u) * np_cos (angle i_y v))%float)
           (seq 0 8) acc)
      (seq 0 8) 0%float.
Proof.
  unfold pixel_sum.
  apply fold_left_ext_in. intros a i_y Hy. apply in_seq in Hy.
  apply fold_left_ext_in. intros a' i_x Hx. apply in_seq in Hx.
  cbn [Nat.add]. rewrite uniform_block_in by lia. reflexivity.
Qed.

Lemma pixel_sum_value v u :
  (v < 8)%nat -> (u < 8)%nat ->
  sum_invariant (inject_Z k) (pixel_sum np_cos (uniform_block k) 0 0 v u)
                (exact_sum np_cos (inject_Z k) v u) 64.
Proof.
  intros Hv Hu. rewrite pixel_sum_uniform. unfold exact_sum.
  change 64%nat with (0 + 8 * length (seq 0 8))%nat.
  apply (fold_invariant _ _ 8 (fun i => (i < 8)%nat));
    [| exact Forall_seq_8 | cbn; lia | exact sum_invariant_start].
  intros acc s n i_y Hy Hn Hinv.
  change (n + 8)%nat with (n + 1 * length (seq 0 8))%nat.
  apply (fold_invariant _ _ 1 (fun i => (i < 8)%nat));
    [| exact Forall_seq_8 | cbn [length seq]; lia | exact Hinv].
  intros acc' s' n' i_x Hx Hn' Hinv'.
  replace (n' + 1)%nat with (S n') by lia.
  apply sum_step; try assumption. lia.
Qed.

(** The factor [1./4. * alpha_v * alpha_u] is a finite value of at most 1. *)
Lemma scale_value v u :
  exists sc, value_of (1.0 / 4.0 * alpha v * alpha u)%float sc /\ Qabs sc <= 1.
Proof.
  unfold alpha.
  destruct (v =? 0)%nat, (u =? 0)%nat;
    (eexists; split;
     [apply value_check_sound;
      unfold value_check; apply andb_true_iff; split;
      [vm_compute; reflexivity | apply Qeq_bool_iff; reflexivity]
     | apply Qle_bool_imp_le; vm_compute; reflexivity]).
Qed.

(** The AC terms of a uniform block are below a millionth of [8 * k]. *)
Lemma ac_term_value v u :
  (v < 8)%nat -> (u < 8)%nat -> (v <> 0%nat \/ u <> 0%nat) -> k <> 0%Z ->
  exists g,
    value_of (frequency np_cos (uniform_block k) 0 0 v u) g
    /\ 1000000 * Qabs g <= 8 * Qabs (inject_Z k).
Proof.
  intros Hv Hu Hn Hk0. unfold frequency.
  destruct (pixel_sum_value v u Hv Hu) as (a & Ha & Hd & _).
  destruct (scale_value v u) as (sc & Hsc & Hscb).
  pose proof (exact_sum_small (inject_Z k) v u Hv Hu Hn) as HS.
  pose proof (Qabs_int8 k Hk) as HK.
  pose proof (Qabs_nonzero_int k Hk0) as HK1.
  change (inject_Z (Z.of_nat 64)) with 64 in Hd.
  assert (Hab : Qabs a <= Qabs (inject_Z k) * (8 * cos_sum_eps) + 64 * step_err).
  { now apply Qabs_near with (exact_sum np_cos (inject_Z k) v u). }
  assert (Hab' : Qabs a <= 128 * (8 * cos_sum_eps) + 64 * step_err).
  { apply Qle_trans with (1 := Hab). apply Qplus_le_l.
    apply Qmult_le_compat_r; [exact HK | apply Qle_bool_imp_le; reflexivity]. }
  destruct (mul_value _ _ _ _ Ha Hsc) as (g & Hg & He).
  { apply Qle_trans with ((128 * (8 * cos_sum_eps) + 64 * step_err) * 1);
      [now apply Qabs_mult_le|]. apply Qle_bool_imp_le. reflexivity. }
  exists g. split; [exact Hg|].
  assert (Hgb : Qabs g
                <= (Qabs (inject_Z k) * (8 * cos_sum_eps) + 64 * step_err) * 1
                   + delta).
  { apply Qabs_near with (a * sc); [exact He | now apply Qabs_mult_le]. }
  assert (Hdelta : 193 * delta <= 193 * delta * Qabs (inject_Z k)).
  { setoid_replace (193 * delta) with (193 * delta * 1) at 1 by ring.
    apply Qmult_le_l_nonneg; [apply Qle_bool_imp_le; reflexivity | exact HK1]. }
  apply Qle_trans
    with (1000000 * ((8 * cos_sum_eps + 193 * delta) * Qabs (inject_Z k))).
  - apply Qmult_le_l_nonneg; [discriminate|].
    apply Qle_trans with (1 := Hgb). unfold step_err.
    setoid_replace ((Qabs (inject_Z k) * (8 * cos_sum_eps)
                     + 64 * (3 * delta)) * 1 + delta)
      with (193 * delta + 8 * cos_sum_eps * Qabs (inject_Z k)) by ring.
    setoid_replace ((8 * cos_sum_eps + 193 * delta) * Qabs (inject_Z k))
      with (193 * delta * Qabs (inject_Z k)
            + 8 * cos_sum_eps * Qabs (inject_Z k)) by ring.
    now apply Qplus_le_l.
  - rewrite Qmult_assoc. apply Qmult_le_compat_r; [|apply Qabs_nonneg].
    apply Qle_bool_imp_le. reflexivity.
Qed.

End UniformBlock.

Section Fractions.
Local Open Scope Q_scope.

(** A finite value as the fraction [fraction] gives. *)
Lemma value_fraction x v :
  value_of x v ->
  exists num den,
    fraction x = Some (num, den) /\ (0 < den)%Z
    /\ v * inject_Z den == inject_Z num.
Proof.
  unfold value_of, fraction. intros H.
  destruct (Prim2SF x) as [s | s | | s m e]; cbn [has_value] in H;
    try contradiction; cbn [SF_fraction].
  - exists 0%Z, 1%Z. split; [reflexivity|]. split; [lia|]. rewrite H. ring.
  - cbv zeta. destruct (Z.leb_spec 0 e) as [He | He].
    + eexists _, 1%Z. split; [reflexivity|]. split; [lia|].
      rewrite H. unfold signed.
      rewrite inject_Z_mult, (pow2_inject e He). ring.
    + eexists _, _. split; [reflexivity|]. split; [lia|].
      rewrite H. unfold signed.
      rewrite (pow2_inject (- e)) by lia. rewrite <- Qmult_assoc, <- pow2_add.
      replace (e + - e)%Z with 0%Z by lia. change (pow2 0) with 1. ring.
Qed.

Lemma negligible_of_value v num den ref :
  (0 < den)%Z -> v * inject_Z den == inject_Z num ->
  1000000 * Qabs v <= 8 * Qabs (inject_Z ref) ->
  negligible_against num den (8 * ref).
Proof.
  intros Hden E H. unfold negligible_against.
  rewrite Zle_Qle. rewrite !inject_Z_mult, Z.abs_mul, inject_Z_mult.
  rewrite <- !Qabs_inject, <- E, Qabs_Qmult.
  rewrite (Qabs_pos (inject_Z den))
    by (change 0 with (inject_Z 0); rewrite <- Zle_Qle; lia).
  change (Qabs (inject_Z 8)) with 8. change (inject_Z 1000000) with 1000000.
  rewrite !Qmult_assoc. apply Qmult_le_compat_r; [exact H|].
  change 0 with (inject_Z 0). rewrite <- Zle_Qle. lia.
Qed.

End Fractions.

Section UniformBlockClaim.

Lemma cosine_balanced_finite np_cos : cosine_balanced np_cos -> cosine_finite np_cos.
Proof.
  intros H i j Hi Hj. unfold cosine_balanced, cosine_balancedb in H.
  apply andb_true_iff in H. destruct H as [H _].
  rewrite forallb_forall in H. specialize (H i (in_seq_8 i Hi)).
  rewrite forallb_forall in H. specialize (H j (in_seq_8 j Hj)).
  apply andb_true_iff in H. tauto.
Qed.

Lemma cos_approx_balanced : cosine_balanced cos_approx.
Proof. vm_compute. reflexivity. Qed.

Lemma ac_of_uniform_block np_cos k v u :
  cosine_balanced np_cos -> in_int8 k ->
  (v < 8)%nat -> (u < 8)%nat -> (v, u) <> (0, 0)%nat ->
  exists num den,
    fraction (frequency np_cos (uniform_block k) 0 0 v u) = Some (num, den)
    /\ 0 < den /\ negligible_against num den (8 * k).
Proof.
  intros Hcos Hk Hv Hu Hn.
  destruct (Z.eq_dec k 0) as [-> | Hk0].
  - rewrite frequency_of_zero_block
      by (try apply cosine_balanced_finite; assumption).
    exists 0, 1. split; [reflexivity|]. split; [lia|].
    unfold negligible_against. lia.
  - assert (Hvu : v <> 0%nat \/ u <> 0%nat).
    { destruct v; [|left; discriminate]. destruct u; [|right; discriminate].
      now contradiction Hn. }
    destruct (ac_term_value np_cos k Hcos Hk v u Hv Hu Hvu Hk0) as (g & Hg & Hb).
    destruct (value_fraction _ _ Hg) as (num & den & Hf & Hden & E).
    exists num, den. split; [exact Hf|]. split; [exact Hden|].
    now apply negligible_of_value with g.
Qed.

End UniformBlockClaim.

(** C8 (as the code has it).  Over any cosine that is 1 at 0 and finite on
    the angles used, the forward DCT maps the all-zero block to the
    all-zero frequency block, and maps the block of uniform value [k], a
    signed byte, to a frequency block whose (0,0) term is within the
    relative tolerance 1e-6 of [8 * k], which is
    [k * 64 * alpha(0) * alpha(0) / 4].  Where moreover the values of the
    cosine lie within [-1, 1] and the eight of each frequency other than 0
    cancel up to [2 ^ -20], each of the other 63 terms is a finite value
    that is zero within the same tolerance of [8 * k]. *)
Theorem dct_of_zero_and_uniform_blocks :
  forall np_cos : float -> float,
    np_cos 0%float = 1%float -> cosine_finite np_cos ->
    (forall v u, (v < 8)%nat -> (u < 8)%nat ->
       get2 0%float (perform_DCT_on_block np_cos (uniform_block 0) 0 0) (v, u)
       = 0%float)
    /\ (forall k, in_int8 k ->
          exists num den,
            fraction (get2 0%float
                        (perform_DCT_on_block np_cos (uniform_block k) 0 0)
                        (0, 0)%nat)
            = Some (num, den)
            /\ 0 < den
            /\ within_relative_tolerance num den (8 * k) 1)
    /\ (cosine_balanced np_cos ->
        forall k v u, in_int8 k ->
          (v < 8)%nat -> (u < 8)%nat -> (v, u) <> (0, 0)%nat ->
          exists num den,
            fraction (get2 0%float
                        (perform_DCT_on_block np_cos (uniform_block k) 0 0)
                        (v, u))
            = Some (num, den)
            /\ 0 < den
            /\ negligible_against num den (8 * k)).
Proof.
  intros np_cos H0 Hfin. split; [|split].
  - intros v u Hv Hu. rewrite frequency_cell by assumption.
    now apply frequency_of_zero_block.
  - intros k Hk. rewrite frequency_cell by lia.
    rewrite dc_of_uniform_block by assumption.
    pose proof (forallb_In _ _ _ dc_near_8k_all (in_int8_values k Hk)) as H.
    unfold dc_near_8k in H.
    destruct (fraction (dc_of_uniform k)) as [[num den]|]; [|discriminate].
    apply andb_true_iff in H. destruct H as [Hden Hnear].
    apply Z.ltb_lt in Hden. apply Z.leb_le in Hnear.
    exists num, den. split; [reflexivity|]. split; [assumption|].
    unfold within_relative_tolerance. exact Hnear.
  - intros Hcos k v u Hk Hv Hu Hn. rewrite frequency_cell by assumption.
    now apply ac_of_uniform_block.
Qed.

Lemma dct_of_zero_and_uniform_blocks_witness :
  (forall v u, (v < 8)%nat -> (u < 8)%nat ->
     get2 0%float (perform_DCT_on_block cos_approx (uniform_block 0) 0 0) (v, u)
     = 0%float)
  /\ (forall k, in_int8 k ->
        exists num den,
          fraction (get2 0%float
                      (perform_DCT_on_block cos_approx (uniform_block k) 0 0)
                      (0, 0)%nat)
          = Some (num, den)
          /\ 0 < den
          /\ within_relative_tolerance num den (8 * k) 1)
  /\ (forall k v u, in_int8 k ->
        (v < 8)%nat -> (u < 8)%nat -> (v, u) <> (0, 0)%nat ->
        exists num den,
          fraction (get2 0%float
                      (perform_DCT_on_block cos_approx (uniform_block k) 0 0)
                      (v, u))
          = Some (num, den)
          /\ 0 < den
          /\ negligible_against num den (8 * k)).
Proof.
  destruct (dct_of_zero_and_uniform_blocks cos_approx) as (Hzero & Hdc & Hac).
  - vm_compute. reflexivity.
  - exact cos_approx_finite.
  - split; [exact Hzero|]. split; [exact Hdc|]. exact (Hac cos_approx_balanced).
Defined.

(** C8, as stated, fails on the DC term: for the uniform block of value 1
    the (0,0) term is 7.9999999999999982 whatever the cosine is away from
    0, while [k * 8 * alpha(0) * alpha(0)] is 4 (3.9999999999999991 in
    float64); the two differ by a factor of two. *)
Lemma dct_dc_term_counterexample :
  (forall np_cos : float -> float,
     np_cos 0%float = 1%float ->
     get2 0%float (perform_DCT_on_block np_cos (uniform_block 1) 0 0) (0, 0)%nat
     = 7.9999999999999982%float)
  /\ fraction 7.9999999999999982%float
     = Some (9007199254740990, 1125899906842624)
  /\ fraction (1 * 8 * sqrt2_inv * sqrt2_inv)%float
     = Some (9007199254740990, 2251799813685248)
  /\ ~ within_relative_tolerance 9007199254740990 1125899906842624
                                 9007199254740990 2251799813685248
  /\ ~ within_relative_tolerance 9007199254740990 1125899906842624 4 1.
Proof.
  split.
  { intros np_cos H0. rewrite frequency_cell by lia.
    rewrite dc_of_uniform_block by assumption. vm_compute. reflexivity. }
  split; [vm_compute; reflexivity|].
  split; [vm_compute; reflexivity|].
  unfold within_relative_tolerance. split; lia.
Qed.

(** With [cos_approx] for the cosine the AC terms of a uniform block are
    small residues of the summation, not zeros. *)
Example dct_uniform_block_residue :
  get2 0%float (perform_DCT_on_block cos_approx (uniform_block 1) 0 0) (0, 1)%nat
  = (-4.2074552661578458e-13)%float.
Proof. vm_compute. reflexivity. Qed.

(* ================================================================== *)
(** * Further properties of the pipeline *)

(* ================================================================== *)
(** ** Clipping and the block grid *)

Section PlaneFacts.

Lemma has_shapeb_ok {A : Type} N_y N_x (data : array2 A) :
  has_shapeb N_y N_x data = true -> has_shape N_y N_x data.
Proof.
  unfold has_shapeb, has_shape. rewrite andb_true_iff, Nat.eqb_eq.
  intros [Hlen Hrows]. split; [assumption|].
  rewrite forallb_forall in Hrows. apply Forall_forall.
  intros row Hin. apply Nat.eqb_eq. now apply Hrows.
Qed.

Lemma clipped_bounds N :
  (clipped N <= N /\ N < clipped N + 16 /\ clipped N mod 16 = 0)%nat.
Proof.
  unfold clipped.
  pose proof (Nat.div_mod_eq N 16) as E.
  pose proof (Nat.mod_upper_bound N 16 ltac:(lia)) as Hm.
  repeat split; try lia.
  apply Nat.Div0.mod_mul.
Qed.

Lemma in_firstn {A : Type} (x : A) : forall n l, In x (firstn n l) -> In x l.
Proof.
  intros n l H. rewrite <- (firstn_skipn n l). apply in_or_app. now left.
Qed.

Lemma clip_shape {A : Type} N_y N_x (data : array2 A) :
  has_shape N_y N_x data -> has_shape (clipped N_y) (clipped N_x) (clip N_y N_x data).
Proof.
  intros [Hlen Hrows]. unfold has_shape, clip.
  pose proof (clipped_bounds N_y) as (Hy & _).
  pose proof (clipped_bounds N_x) as (Hx & _).
  split.
  - rewrite length_map, length_firstn. lia.
  - apply Forall_forall. intros row Hin.
    apply in_map_iff in Hin. destruct Hin as (row0 & <- & Hin0).
    apply in_firstn in Hin0.
    rewrite Forall_forall in Hrows. specialize (Hrows row0 Hin0).
    rewrite length_firstn. lia.
Qed.

Lemma nth_firstn_lt {A : Type} (d : A) (l : list A) n i :
  (i < n)%nat -> nth i (firstn n l) d = nth i l d.
Proof.
  intros Hi. rewrite nth_firstn.
  destruct (Nat.ltb_spec i n); [reflexivity | lia].
Qed.

Lemma clip_get2 {A : Type} (d : A) N_y N_x (data : array2 A) i_y i_x :
  (i_y < clipped N_y)%nat -> (i_x < clipped N_x)%nat ->
  get2 d (clip N_y N_x data) (i_y, i_x) = get2 d data (i_y, i_x).
Proof.
  intros Hy Hx. unfold get2, clip. cbn [fst snd].
  destruct (Nat.lt_ge_cases i_y (length (firstn (clipped N_y) data))) as [Hl | Hl].
  - rewrite (nth_indep _ [] (firstn (clipped N_x) [])) by now rewrite length_map.
    rewrite map_nth, nth_firstn_lt by assumption.
    now rewrite nth_firstn_lt.
  - rewrite (nth_overflow (map _ _)) by now rewrite length_map.
    rewrite length_firstn in Hl.
    rewrite (nth_overflow data) by lia. reflexivity.
Qed.

Lemma block_grid_exact N :
  (N_blocks (clipped N) * 8 = clipped N
   /\ N_blocks_c (clipped N) * 8 = clipped N / 2)%nat.
Proof.
  unfold N_blocks, N_blocks_c, clipped.
  set (q := (N / 16)%nat).
  assert (E8 : (q * 16 / 8 = 2 * q)%nat).
  { replace (q * 16)%nat with (2 * q * 8)%nat by lia. apply Nat.div_mul. lia. }
  assert (E2 : (q * 16 / 2 = 8 * q)%nat).
  { replace (q * 16)%nat with (8 * q * 2)%nat by lia. apply Nat.div_mul. lia. }
  assert (E : (2 * q / 2 = q)%nat).
  { rewrite Nat.mul_comm. apply Nat.div_mul. lia. }
  rewrite E8, E2, E. lia.
Qed.

End PlaneFacts.

(** X1.  Clipping keeps the leading rows and columns: the clipped image of
    an [N_y] x [N_x] image has [(N_y // 16) * 16] rows and
    [(N_x // 16) * 16] columns, both multiples of 16 and fewer than 16
    below the original size, and every kept cell is unchanged.  On the
    clipped sizes the block loops tile the planes exactly: [N // 8] blocks
    of 8 cover the luma axis and [N // 8 // 2] blocks of 8 cover the
    subsampled axis of [N // 2] samples. *)
Theorem clipping_fits_block_grid :
  forall (A : Type) (d : A) (N_y N_x : nat) (data : array2 A),
    has_shape N_y N_x data ->
    has_shape (clipped N_y) (clipped N_x) (clip N_y N_x data)
    /\ (forall i_y i_x, (i_y < clipped N_y)%nat -> (i_x < clipped N_x)%nat ->
          get2 d (clip N_y N_x data) (i_y, i_x) = get2 d data (i_y, i_x))
    /\ (forall N, (clipped N <= N < clipped N + 16)%nat
                  /\ (clipped N mod 16 = 0)%nat
                  /\ (N_blocks (clipped N) * 8 = clipped N)%nat
                  /\ (N_blocks_c (clipped N) * 8 = clipped N / 2)%nat).
Proof.
  intros A d N_y N_x data Hs.
  split; [now apply clip_shape|].
  split; [intros; now apply clip_get2|].
  intros N. pose proof (clipped_bounds N) as (H1 & H2 & H3).
  pose proof (block_grid_exact N) as (H4 & H5).
  repeat split; assumption.
Qed.

Lemma clipping_fits_block_grid_witness :
  has_shape (clipped 3) (clipped 17) (clip 3 17 (repeat (repeat 7 17) 3))
  /\ (forall i_y i_x, (i_y < clipped 3)%nat -> (i_x < clipped 17)%nat ->
        get2 0 (clip 3 17 (repeat (repeat 7 17) 3)) (i_y, i_x)
        = get2 0 (repeat (repeat 7 17) 3) (i_y, i_x))
  /\ (forall N, (clipped N <= N < clipped N + 16)%nat
                /\ (clipped N mod 16 = 0)%nat
                /\ (N_blocks (clipped N) * 8 = clipped N)%nat
                /\ (N_blocks_c (clipped N) * 8 = clipped N / 2)%nat).
Proof.
  apply (clipping_fits_block_grid Z 0 3 17 (repeat (repeat 7 17) 3)).
  apply has_shapeb_ok. reflexivity.
Defined.

(* ================================================================== *)
(** ** Chroma subsampling and range modification *)

Section SubsampleFacts.

Lemma mapM_map_Some {A B : Type} (f : A -> option B) (g : A -> B) (l : list A) :
  (forall x, In x l -> f x = Some (g x)) -> Opt.mapM f l = Some (map g l).
Proof.
  induction l as [|x l IH]; intros H; [reflexivity|].
  cbn [Opt.mapM map]. rewrite (H x) by (left; reflexivity).
  rewrite IH by (intros y Hy; apply H; now right). reflexivity.
Qed.

Lemma mapM_None {A B : Type} (f : A -> option B) (l : list A) (x : A) :
  In x l -> f x = None -> Opt.mapM f l = None.
Proof.
  induction l as [|y l IH]; intros Hin Hx; [contradiction|].
  cbn [Opt.mapM]. destruct Hin as [-> | Hin].
  - now rewrite Hx.
  - destruct (f y); [|reflexivity]. now rewrite IH.
Qed.

Lemma read2_inside {A : Type} (d : A) N_y N_x (data : array2 A) i_y i_x :
  has_shape N_y N_x data -> (i_y < N_y)%nat -> (i_x < N_x)%nat ->
  read2 data i_y i_x = Some (get2 d data (i_y, i_x)).
Proof.
  intros [Hlen Hrows] Hy Hx. unfold read2, get2. cbn [fst snd].
  rewrite (nth_error_nth' data []) by lia.
  apply nth_error_nth'.
  rewrite Forall_forall in Hrows. rewrite (Hrows (nth i_y data [])); [assumption|].
  apply nth_In. lia.
Qed.

Lemma read2_outside {A : Type} N_y N_x (data : array2 A) i_y i_x :
  has_shape N_y N_x data -> (N_y <= i_y \/ N_x <= i_x)%nat ->
  read2 data i_y i_x = None.
Proof.
  intros [Hlen Hrows] Hout. unfold read2.
  destruct (nth_error data i_y) as [row|] eqn:E; [|reflexivity].
  apply nth_error_None.
  rewrite Forall_forall in Hrows. rewrite (Hrows row) by (eapply nth_error_In; eassumption).
  destruct Hout as [Hy | Hx]; [|assumption].
  assert (nth_error data i_y = None) by (apply nth_error_None; lia). congruence.
Qed.

Lemma evens_even N :
  Nat.even N = true -> evens N = map (fun j => (2 * j)%nat) (seq 0 (N / 2)).
Proof.
  intros H. unfold evens. f_equal. f_equal.
  apply Nat.even_spec in H. destruct H as [k ->].
  replace (2 * k + 1)%nat with (1 + k * 2)%nat by lia.
  rewrite Nat.div_add by lia.
  rewrite (Nat.mul_comm 2 k), Nat.div_mul by lia. reflexivity.
Qed.

Lemma evens_odd_last N : Nat.odd N = true -> In (N - 1)%nat (evens N).
Proof.
  intros H. unfold evens.
  apply Nat.odd_spec in H. destruct H as [k ->].
  replace (2 * k + 1 + 1)%nat with ((k + 1) * 2)%nat by lia.
  rewrite Nat.div_mul by lia.
  apply in_map_iff. exists k. split; [lia|]. apply in_seq. lia.
Qed.

Lemma evens_zero N : (0 < N)%nat -> In 0%nat (evens N).
Proof.
  intros H. unfold evens. apply in_map_iff. exists 0%nat. split; [reflexivity|].
  apply in_seq. split; [lia|].
  assert (1 <= (N + 1) / 2)%nat by (apply Nat.div_le_lower_bound; lia). lia.
Qed.

Lemma np_uint16_small z : 0 <= z < 65536 -> np_uint16 z = z.
Proof. intros H. unfold np_uint16. now apply Z.mod_small. Qed.

Lemma subsample_cell_mean a b c d :
  0 <= a <= 255 -> 0 <= b <= 255 -> 0 <= c <= 255 -> 0 <= d <= 255 ->
  subsample_cell a b c d = (a + b + c + d) / 4.
Proof.
  intros Ha Hb Hc Hd. unfold subsample_cell.
  rewrite (np_uint16_small a), (np_uint16_small b), (np_uint16_small c),
    (np_uint16_small d) by lia.
  rewrite (np_uint16_small (a + b)) by lia.
  rewrite (np_uint16_small (a + b + c)) by lia.
  rewrite (np_uint16_small (a + b + c + d)) by lia.
  unfold np_uint8. apply Z.mod_small.
  pose proof (Z.div_pos (a + b + c + d) 4 ltac:(lia) ltac:(lia)).
  pose proof (Z.div_lt_upper_bound (a + b + c + d) 4 256 ltac:(lia) ltac:(lia)).
  lia.
Qed.

Lemma subsample_at_inside N_y N_x data i j :
  has_shape N_y N_x data -> (2 * i + 1 < N_y)%nat -> (2 * j + 1 < N_x)%nat ->
  subsample_at data (2 * i) (2 * j) = Some (mean_of_2x2 data i j).
Proof.
  intros Hs Hi Hj. unfold subsample_at, mean_of_2x2.
  rewrite !(read2_inside 0 N_y N_x) by (assumption || lia).
  reflexivity.
Qed.

Lemma subsample_plane_even N_y N_x data :
  has_shape N_y N_x data -> Nat.even N_y = true -> Nat.even N_x = true ->
  subsample_plane N_y N_x data
  = Some (map (fun i => map (fun j => mean_of_2x2 data i j) (seq 0 (N_x / 2)))
              (seq 0 (N_y / 2))).
Proof.
  intros Hs Hy Hx. unfold subsample_plane.
  rewrite (evens_even N_y Hy), (evens_even N_x Hx).
  apply Nat.even_spec in Hy, Hx. destruct Hy as [ky Eky], Hx as [kx Ekx].
  assert (Hky : (N_y / 2 = ky)%nat)
    by (subst N_y; rewrite Nat.mul_comm; apply Nat.div_mul; lia).
  assert (Hkx : (N_x / 2 = kx)%nat)
    by (subst N_x; rewrite Nat.mul_comm; apply Nat.div_mul; lia).
  rewrite (mapM_map_Some _
             (fun i_y => map (fun i_x => mean_of_2x2 data (i_y / 2) (i_x / 2))
                             (map (fun j => (2 * j)%nat) (seq 0 (N_x / 2))))).
  - cbn [option_map]. f_equal.
    rewrite firstn_all2 by (rewrite !length_map, length_seq; lia).
    rewrite map_map. apply map_ext. intros i.
    rewrite map_map. apply map_ext. intros j.
    rewrite !(Nat.mul_comm 2), !Nat.div_mul by lia. reflexivity.
  - intros i_y Hin. apply in_map_iff in Hin. destruct Hin as (i & <- & Hi).
    apply in_seq in Hi.
    apply mapM_map_Some. intros i_x Hjn.
    apply in_map_iff in Hjn. destruct Hjn as (j & <- & Hj). apply in_seq in Hj.
    rewrite !(Nat.mul_comm 2), !Nat.div_mul by lia.
    rewrite !(Nat.mul_comm _ 2).
    apply (subsample_at_inside N_y N_x); [assumption | lia | lia].
Qed.

Lemma subsample_plane_odd N_y N_x data :
  has_shape N_y N_x data ->
  (Nat.odd N_y = true /\ 0 < N_x)%nat \/ (Nat.odd N_x = true /\ 0 < N_y)%nat ->
  subsample_plane N_y N_x data = None.
Proof.
  intros Hs H. unfold subsample_plane.
  assert (E : Opt.mapM
                (fun i_y => Opt.mapM (fun i_x => subsample_at data i_y i_x)
                                     (evens N_x))
                (evens N_y) = None); [|now rewrite E].
  destruct H as [[Hodd Hpos] | [Hodd Hpos]].
  - apply (mapM_None _ _ (N_y - 1)%nat); [now apply evens_odd_last|].
    apply (mapM_None _ _ 0%nat); [now apply evens_zero|].
    apply Nat.odd_spec in Hodd. destruct Hodd as [k Ek].
    unfold subsample_at.
    rewrite (read2_inside 0 N_y N_x) by (assumption || lia).
    rewrite (read2_outside N_y N_x data (N_y - 1 + 1)) by (assumption || lia).
    reflexivity.
  - apply (mapM_None _ _ 0%nat); [now apply evens_zero|].
    apply (mapM_None _ _ (N_x - 1)%nat); [now apply evens_odd_last|].
    apply Nat.odd_spec in Hodd. destruct Hodd as [k Ek].
    unfold subsample_at.
    rewrite (read2_inside 0 N_y N_x) by (assumption || lia).
    cbn [Opt.bind].
    destruct (read2 data (0 + 1) (N_x - 1)); [|reflexivity]. cbn [Opt.bind].
    rewrite (read2_outside N_y N_x data 0 (N_x - 1 + 1)) by (assumption || lia).
    reflexivity.
Qed.

Lemma nth_map_seq {A : Type} (f : nat -> A) (d : A) n i :
  (i < n)%nat -> nth i (map f (seq 0 n)) d = f i.
Proof.
  intros Hi. rewrite (nth_indep _ d (f 0%nat)) by now rewrite length_map, length_seq.
  rewrite map_nth, seq_nth by assumption. reflexivity.
Qed.

End SubsampleFacts.

(** X2.  On four unsigned bytes the subsampled value is the floor of their
    mean: neither the [uint16] sums nor the cast to [uint8] wrap.  It lies
    between the smallest and the largest of the four, and four equal
    samples give that sample. *)
Theorem subsample_cell_is_floor_mean :
  forall a b c d : Z,
    0 <= a <= 255 -> 0 <= b <= 255 -> 0 <= c <= 255 -> 0 <= d <= 255 ->
    subsample_cell a b c d = (a + b + c + d) / 4
    /\ Z.min (Z.min a b) (Z.min c d) <= subsample_cell a b c d
       <= Z.max (Z.max a b) (Z.max c d)
    /\ (a = b -> b = c -> c = d -> subsample_cell a b c d = a).
Proof.
  intros a b c d Ha Hb Hc Hd.
  rewrite subsample_cell_mean by assumption.
  pose proof (Z.div_mod (a + b + c + d) 4 ltac:(lia)) as E.
  pose proof (Z.mod_pos_bound (a + b + c + d) 4 ltac:(lia)) as Hm.
  repeat split; lia.
Qed.

Lemma subsample_cell_is_floor_mean_witness :
  subsample_cell 255 255 255 254 = (255 + 255 + 255 + 254) / 4
  /\ Z.min (Z.min 255 255) (Z.min 255 254) <= subsample_cell 255 255 255 254
     <= Z.max (Z.max 255 255) (Z.max 255 254)
  /\ (255 = 255 -> 255 = 255 -> 255 = 254 -> subsample_cell 255 255 255 254 = 255).
Proof.
  apply (subsample_cell_is_floor_mean 255 255 255 254); lia.
Defined.

(** X3.  On a plane of even height and width the subsampling loops fill an
    array of half the height and half the width, whose cell [(i, j)] is the
    subsampled value of the 2x2 block at [(2i, 2j)].  On a plane with an odd
    height (and at least one column) or an odd width (and at least one row)
    the last iteration reads outside the plane: the loops raise and there
    is no result. *)
Theorem subsample_plane_halves :
  forall (N_y N_x : nat) (data : array2 Z),
    has_shape N_y N_x data ->
    (Nat.even N_y = true -> Nat.even N_x = true ->
       exists out,
         subsample_plane N_y N_x data = Some out
         /\ has_shape (N_y / 2) (N_x / 2) out
         /\ forall i j, (i < N_y / 2)%nat -> (j < N_x / 2)%nat ->
              get2 0 out (i, j) = mean_of_2x2 data i j)
    /\ ((Nat.odd N_y = true /\ 0 < N_x)%nat \/ (Nat.odd N_x = true /\ 0 < N_y)%nat ->
        subsample_plane N_y N_x data = None).
Proof.
  intros N_y N_x data Hs. split; [|now apply subsample_plane_odd].
  intros Hy Hx. eexists. split; [now apply subsample_plane_even|].
  split.
  - split; [now rewrite length_map, length_seq|].
    apply Forall_forall. intros row Hin. apply in_map_iff in Hin.
    destruct Hin as (i & <- & _). now rewrite length_map, length_seq.
  - intros i j Hi Hj. unfold get2. cbn [fst snd].
    rewrite (nth_map_seq _ [] (N_y / 2) i Hi).
    now rewrite nth_map_seq.
Qed.

Lemma subsample_plane_halves_witness :
  (Nat.even 2 = true -> Nat.even 4 = true ->
     exists out,
       subsample_plane 2 4 [[1; 2; 3; 4]; [5; 6; 7; 9]] = Some out
       /\ has_shape (2 / 2) (4 / 2) out
       /\ forall i j, (i < 2 / 2)%nat -> (j < 4 / 2)%nat ->
            get2 0 out (i, j) = mean_of_2x2 [[1; 2; 3; 4]; [5; 6; 7; 9]] i j)
  /\ ((Nat.odd 2 = true /\ 0 < 4)%nat \/ (Nat.odd 4 = true /\ 0 < 2)%nat ->
      subsample_plane 2 4 [[1; 2; 3; 4]; [5; 6; 7; 9]] = None).
Proof.
  apply (subsample_plane_halves 2 4 [[1; 2; 3; 4]; [5; 6; 7; 9]]).
  apply has_shapeb_ok. reflexivity.
Defined.

(** A 2x4 plane, and a 3x2 plane on which the loops raise. *)
Example subsample_plane_samples :
  subsample_plane 2 4 [[1; 2; 3; 4]; [5; 6; 7; 9]] = Some [[3; 5]]
  /\ subsample_plane 3 2 [[1; 2]; [3; 4]; [5; 6]] = None.
Proof. split; reflexivity. Qed.

(** X4.  The range modification takes an unsigned byte [y] to [y - 128],
    a signed byte, without wrapping, whether NumPy carries the difference
    in a wide integer or wraps it as a [uint8] first; it preserves the
    order of the samples and maps 0..255 onto -128..127. *)
Theorem range_modification_is_exact :
  forall y : Z,
    0 <= y <= 255 ->
    shift_sample y = y - 128
    /\ in_int8 (shift_sample y)
    /\ np_int8 (np_uint8 (y - 128)) = shift_sample y
    /\ (forall y', 0 <= y' <= 255 ->
          (y <= y' <-> shift_sample y <= shift_sample y'))
    /\ (forall s, in_int8 s ->
          0 <= s + 128 <= 255 /\ shift_sample (s + 128) = s).
Proof.
  intros y Hy. unfold shift_sample.
  assert (E : forall z, 0 <= z <= 255 -> np_int8 (z - 128) = z - 128)
    by (intros z Hz; apply np_int8_small; unfold in_int8; lia).
  split; [now apply E|].
  split; [apply np_int8_range|].
  split.
  { apply np_int8_of_congruent. unfold np_uint8. apply Z.mod_mod. lia. }
  split.
  - intros y' Hy'. rewrite !E by assumption. lia.
  - intros s Hs. unfold in_int8 in Hs. split; [lia|].
    rewrite E by lia. lia.
Qed.

Lemma range_modification_is_exact_witness :
  shift_sample 0 = 0 - 128
  /\ in_int8 (shift_sample 0)
  /\ np_int8 (np_uint8 (0 - 128)) = shift_sample 0
  /\ (forall y', 0 <= y' <= 255 ->
        (0 <= y' <-> shift_sample 0 <= shift_sample y'))
  /\ (forall s, in_int8 s ->
        0 <= s + 128 <= 255 /\ shift_sample (s + 128) = s).
Proof.
  apply (range_modification_is_exact 0). lia.
Defined.

(* ================================================================== *)
(** ** The encoder's output stream *)

Section StreamFacts.

Lemma get2_Forall {A : Type} (P : A -> Prop) (d : A) (B : array2 A) p :
  Forall (Forall P) B -> P d -> P (get2 d B p).
Proof.
  intros HB Hd. unfold get2.
  destruct (nth_in_or_default (fst p) B []) as [Hin | ->].
  - rewrite Forall_forall in HB. specialize (HB _ Hin).
    destruct (nth_in_or_default (snd p) (nth (fst p) B []) d) as [Hin' | ->];
      [|assumption].
    rewrite Forall_forall in HB. now apply HB.
  - now destruct (snd p).
Qed.

Lemma flatten_Forall (P : Z -> Prop) (B : block) :
  Forall (Forall P) B -> P 0 -> Forall P (flatten B).
Proof.
  intros HB H0. unfold flatten. apply Forall_forall. intros x Hin.
  apply in_map_iff in Hin. destruct Hin as (p & <- & _).
  now apply get2_Forall.
Qed.

Lemma flatten_length (B : block) : length (flatten B) = 64%nat.
Proof. unfold flatten. now rewrite length_map, zig_zag_flat_length. Qed.

Lemma pending_overflow_pairs_S r c :
  pending_overflow_pairs r (S c) = overflow_pair r ++ pending_overflow_pairs r c.
Proof. reflexivity. Qed.

Lemma pending_overflow_pairs_length r c :
  length (pending_overflow_pairs r c) = (2 * c)%nat.
Proof.
  induction c as [|c IH]; [reflexivity|].
  rewrite pending_overflow_pairs_S, length_app, IH. cbn [overflow_pair length]. lia.
Qed.

Lemma run_output fuel : forall l st st',
  Forall in_int8 l -> Huffman.run fuel st l = Some st' ->
  output st' = output st ++ pairs_from (runlength st) (overflow_counter st) l.
Proof.
  induction l as [|a l IH]; intros st st' Hl Hrun.
  - cbn in Hrun. injection Hrun as <-. cbn. now rewrite app_nil_r.
  - inversion Hl as [|? ? Ha Hl']; subst.
    cbn [Huffman.run] in Hrun.
    destruct (Huffman.step fuel st a) as [st1|] eqn:Est; [|discriminate].
    rewrite (IH _ _ Hl' Hrun). cbn [pairs_from].
    destruct (Z.eq_dec a 0) as [-> | Hne].
    + rewrite step_zero in Est. injection Est as <-. cbn [Z.eqb].
      destruct (runlength st + 1 =? 15); reflexivity.
    + apply (step_nonzero_inv fuel st a st1 Hne Ha) in Est. subst st1.
      rewrite (proj2 (Z.eqb_neq a 0) Hne).
      cbn [output runlength overflow_counter].
      now rewrite <- !app_assoc.
Qed.

Lemma run_some_amplitude_ok fuel : forall l st st',
  Forall in_int8 l -> Huffman.run fuel st l = Some st' -> Forall amplitude_ok l.
Proof.
  induction l as [|a l IH]; intros st st' Hl Hrun; [constructor|].
  inversion Hl as [|? ? Ha Hl']; subst.
  cbn [Huffman.run] in Hrun.
  destruct (Huffman.step fuel st a) as [st1|] eqn:Est; [|discriminate].
  constructor; [|now apply (IH st1 st')].
  destruct (in_int8_cases a Ha) as [Hok | ->]; [assumption|].
  rewrite step_diverges in Est. discriminate.
Qed.

(** *** Length of the stream *)

Lemma zeros_nonzeros_length l : (zeros l + nonzeros l = length l)%nat.
Proof.
  unfold zeros, nonzeros. induction l as [|a l IH]; [reflexivity|].
  cbn [filter length]. destruct (a =? 0); cbn [negb length]; lia.
Qed.

Lemma pairs_from_length : forall l r c C,
  0 <= r < 15 ->
  (15 * Z.of_nat c + r + Z.of_nat (zeros l) <= 15 * Z.of_nat C + 14) ->
  (2 * nonzeros l <= length (pairs_from r c l) <= 2 * nonzeros l * (1 + C))%nat
  /\ Nat.even (length (pairs_from r c l)) = true.
Proof.
  induction l as [|a l IH]; intros r c C Hr HC.
  - cbn. split; [lia | reflexivity].
  - cbn [pairs_from]. unfold zeros, nonzeros in *. cbn [filter] in *.
    destruct (a =? 0) eqn:Ea; cbn [negb length] in *.
    + destruct (r + 1 =? 15) eqn:Er.
      * apply Z.eqb_eq in Er. apply IH; lia.
      * apply Z.eqb_neq in Er. apply IH; lia.
    + destruct (IH 0 c C ltac:(lia) ltac:(lia)) as [[Hlo Hhi] Hev].
      rewrite !length_app, pending_overflow_pairs_length. cbn [length].
      split.
      * split; [lia|]. assert (c <= C)%nat by lia. nia.
      * replace (2 * c + (2 + length (pairs_from 0 c l)))%nat
          with (length (pairs_from 0 c l) + 2 * (c + 1))%nat by lia.
        rewrite Nat.even_add_mul_2. assumption.
Qed.

Lemma stream_at_most_198 (z n C : nat) (len : nat) :
  (z + n = 63)%nat -> (15 * C <= z)%nat -> (len <= 2 * n * (1 + C))%nat ->
  (len <= 198)%nat.
Proof.
  intros Hzn HC Hlen.
  assert (HC4 : (C <= 4)%nat) by lia.
  assert (Hn : (n <= 63 - 15 * C)%nat) by lia.
  destruct C as [|[|[|[|[|C]]]]]; try lia; nia.
Qed.

(** *** Reading the stream back *)

Lemma decode_pending : forall c cp k r rest,
  decode_pairs cp k (map np_int8 (pending_overflow_pairs r c) ++ rest)
  = decode_pairs cp (k + c) rest.
Proof.
  induction c as [|c IH]; intros cp k r rest.
  - cbn. now rewrite Nat.add_0_r.
  - rewrite pending_overflow_pairs_S, map_app, <- app_assoc.
    cbn [overflow_pair map app decode_pairs].
    change (np_int8 (np_int8 0) =? 0) with true. cbv iota.
    rewrite IH. f_equal. lia.
Qed.

Lemma decode_symbol cp k r a rest :
  0 <= r < 15 -> a <> 0 -> amplitude_ok a ->
  decode_pairs cp k
    (np_int8 (Z.shiftl (np_int8 r) 4 + np_int8 (popcount 8 (Z.abs a)))
     :: np_int8 (np_int8 a) :: rest)
  = repeat 0 (15 * (k - cp) + Z.to_nat r) ++ a :: decode_pairs k 0 rest.
Proof.
  intros Hr Hne Ha. cbn [decode_pairs].
  assert (Ea : np_int8 a = a)
    by (apply np_int8_small; unfold amplitude_ok in Ha; unfold in_int8; lia).
  rewrite !Ea. rewrite (proj2 (Z.eqb_neq a 0) Hne).
  pose proof (popcount8_bounds (Z.abs a)) as Hp.
  rewrite (np_int8_small r) by (unfold in_int8; lia).
  rewrite (np_int8_small (popcount 8 (Z.abs a))) by (unfold in_int8; lia).
  rewrite run_field_packed by lia. reflexivity.
Qed.

Lemma pad_app p n x : pad (length p + n) (p ++ x) = p ++ pad n x.
Proof.
  unfold pad. rewrite <- app_assoc, length_app. do 3 f_equal. lia.
Qed.

Lemma repeat_snoc_app (z : nat) (l : list Z) :
  repeat 0 (z + 1) ++ l = repeat 0 z ++ 0 :: l.
Proof. now rewrite repeat_app, <- app_assoc. Qed.

Lemma decode_pairs_from : forall l r c cp,
  Forall amplitude_ok l -> 0 <= r < 15 -> (cp <= c)%nat ->
  pad (15 * (c - cp) + Z.to_nat r + length l)
      (decode_pairs cp 0 (map np_int8 (pairs_from r c l) ++ [0]))
  = repeat 0 (15 * (c - cp) + Z.to_nat r) ++ l.
Proof.
  induction l as [|a l IH]; intros r c cp Hl Hr Hcp.
  - cbn [pairs_from map app decode_pairs length]. unfold pad. cbn [length app].
    rewrite app_nil_r. f_equal. lia.
  - inversion Hl as [|? ? Ha Hl']; subst. cbn [pairs_from length].
    destruct (Z.eq_dec a 0) as [-> | Hne].
    + cbn [Z.eqb]. rewrite <- repeat_snoc_app.
      destruct (r + 1 =? 15) eqn:Er.
      * apply Z.eqb_eq in Er.
        specialize (IH 0 (S c) cp Hl' ltac:(lia) ltac:(lia)).
        replace (15 * (S c - cp) + Z.to_nat 0)%nat
          with (15 * (c - cp) + Z.to_nat r + 1)%nat in IH by lia.
        rewrite <- IH. f_equal. lia.
      * apply Z.eqb_neq in Er.
        specialize (IH (r + 1) c cp Hl' ltac:(lia) ltac:(lia)).
        replace (15 * (c - cp) + Z.to_nat (r + 1))%nat
          with (15 * (c - cp) + Z.to_nat r + 1)%nat in IH by lia.
        rewrite <- IH. f_equal. lia.
    + rewrite (proj2 (Z.eqb_neq a 0) Hne).
      rewrite !map_app, <- !app_assoc, decode_pending.
      cbn [map app Nat.add].
      rewrite (decode_symbol cp c r a _ Hr Hne Ha).
      specialize (IH 0 c c Hl' ltac:(lia) ltac:(lia)).
      replace (15 * (c - c) + Z.to_nat 0 + length l)%nat with (length l) in IH by lia.
      replace (15 * (c - c) + Z.to_nat 0)%nat with 0%nat in IH by lia.
      cbn [repeat app] in IH.
      set (z := (15 * (c - cp) + Z.to_nat r)%nat).
      replace (z + S (length l))%nat
        with (length (repeat 0%Z z ++ [a]) + length l)%nat
        by (rewrite length_app, repeat_length; cbn [length]; lia).
      replace (repeat 0 z ++ a :: decode_pairs c 0 (map np_int8 (pairs_from 0 c l) ++ [0]))
        with ((repeat 0 z ++ [a]) ++ decode_pairs c 0 (map np_int8 (pairs_from 0 c l) ++ [0]))
        by (now rewrite <- app_assoc).
      rewrite pad_app, IH, <- app_assoc. reflexivity.
Qed.

Lemma encode_sequence_pairs fuel (s : list Z) dc ac :
  Forall in_int8 s -> encode_sequence fuel s = Some (dc, ac) ->
  dc = hd 0 s
  /\ ac = map np_int8 (pairs_from 0 0 (tl s)) ++ [0]
  /\ Forall amplitude_ok (tl s).
Proof.
  intros Hs Henc. unfold encode_sequence in Henc.
  destruct (Huffman.run fuel Huffman.init (tl s)) as [st|] eqn:Erun; [|discriminate].
  injection Henc as <- <-.
  assert (Htl : Forall in_int8 (tl s)) by (destruct s; [constructor | now inversion Hs]).
  split.
  - apply np_int8_small. destruct s; cbn; [unfold in_int8; lia | now inversion Hs].
  - split; [|now apply (run_some_amplitude_ok fuel _ _ _ Htl Erun)].
    rewrite finish_output, (run_output fuel _ _ _ Htl Erun). reflexivity.
Qed.

Lemma decode_sequence fuel (s : list Z) dc ac :
  length s = 64%nat -> Forall in_int8 s ->
  encode_sequence fuel s = Some (dc, ac) ->
  dc :: pad 63 (decode_pairs 0 0 ac) = s.
Proof.
  intros Hlen Hs Henc.
  destruct (encode_sequence_pairs fuel s dc ac Hs Henc) as (-> & -> & Hok).
  destruct s as [|d l]; [discriminate|]. cbn [hd tl] in *.
  f_equal.
  pose proof (decode_pairs_from l 0 0 0 Hok ltac:(lia) ltac:(lia)) as H.
  cbn [Nat.sub Nat.mul Z.to_nat Nat.add repeat app] in H.
  replace (length l) with 63%nat in H by (cbn in Hlen; lia).
  exact H.
Qed.

Lemma decode_block_encoded fuel (B : block) dc ac :
  is_8x8 B -> int8_block B ->
  apply_Huffman_encoding fuel B = Some (dc, ac) ->
  decode_block dc ac = B.
Proof.
  intros H8 Hint Henc. rewrite apply_Huffman_encoding_flatten in Henc.
  unfold decode_block.
  rewrite (decode_sequence fuel (flatten B) dc ac (flatten_length B)); 
    [now apply unflatten_flatten | | assumption].
  apply flatten_Forall; [assumption | unfold in_int8; lia].
Qed.

Lemma encode_sequence_shape fuel (s : list Z) :
  (8 <= fuel)%nat -> length s = 64%nat -> Forall amplitude_ok s ->
  exists ac,
    encode_sequence fuel s = Some (hd 0 s, ac)
    /\ Forall in_int8 ac
    /\ last ac 1 = 0
    /\ Nat.odd (length ac) = true
    /\ (2 * nonzeros (tl s) + 1 <= length ac <= 199)%nat
    /\ (ac = [0] <-> nonzeros (tl s) = 0%nat).
Proof.
  intros Hfuel Hlen Hs.
  destruct s as [|d l]; [discriminate|].
  inversion Hs as [|? ? Hd Htl]; subst. cbn [hd tl].
  assert (Hl : length l = 63%nat) by (cbn [length] in Hlen; lia).
  assert (Hint : Forall in_int8 l).
  { eapply Forall_impl; [|exact Htl]. unfold amplitude_ok, in_int8. intros; lia. }
  destruct (run_returns fuel l Huffman.init Hfuel Htl) as [st Hrun].
  pose proof (run_output fuel _ _ _ Hint Hrun) as Hout.
  cbn [Huffman.init output runlength overflow_counter app] in Hout.
  unfold encode_sequence. cbn [hd tl]. rewrite Hrun.
  rewrite (np_int8_small d) by (unfold amplitude_ok in Hd; unfold in_int8; lia).
  eexists. split; [reflexivity|].
  rewrite finish_output, Hout.
  pose proof (zeros_nonzeros_length l) as Hzn. rewrite Hl in Hzn.
  pose proof (Nat.div_mod_eq (zeros l) 15) as Ediv.
  pose proof (Nat.mod_upper_bound (zeros l) 15 ltac:(lia)) as Hmod.
  destruct (pairs_from_length l 0 0 (zeros l / 15) ltac:(lia) ltac:(lia))
    as [[Hlo Hhi] Hev].
  assert (H198 : (length (pairs_from 0 0 l) <= 198)%nat).
  { apply (stream_at_most_198 (zeros l) (nonzeros l) (zeros l / 15));
      [assumption | lia | assumption]. }
  split.
  { apply Forall_app. split; [|repeat constructor; unfold in_int8; lia].
    apply Forall_forall. intros x Hin. apply in_map_iff in Hin.
    destruct Hin as (y & <- & _). apply np_int8_range. }
  split; [apply last_last|].
  rewrite length_app, length_map. cbn [length].
  split.
  { rewrite Nat.add_1_r, Nat.odd_succ. assumption. }
  split; [lia|].
  split.
  - intros E. apply (f_equal (@length Z)) in E.
    rewrite length_app, length_map in E. cbn [length] in E. lia.
  - intros E. destruct (pairs_from 0 0 l); [reflexivity | cbn [length] in Hhi; lia].
Qed.

End StreamFacts.

(** X5.  The encoder loses nothing: on an 8x8 block of signed bytes on
    which it returns, reading the stored stream back (overflow pairs told
    by their amplitude byte 0, each coefficient placed after fifteen zeros
    for every overflow pair not yet accounted for and the zeros of its run
    field) gives the block again.  Hence two blocks with the same DC value
    and AC stream are the same block. *)
Theorem encoder_is_lossless :
  forall (fuel : nat) (B : block) (dc : Z) (ac : list Z),
    is_8x8 B -> int8_block B ->
    apply_Huffman_encoding fuel B = Some (dc, ac) ->
    decode_block dc ac = B
    /\ (forall (fuel' : nat) (B' : block),
          is_8x8 B' -> int8_block B' ->
          apply_Huffman_encoding fuel' B' = Some (dc, ac) -> B' = B).
Proof.
  intros fuel B dc ac H8 Hint Henc.
  pose proof (decode_block_encoded fuel B dc ac H8 Hint Henc) as HB.
  split; [exact HB|].
  intros fuel' B' H8' Hint' Henc'.
  rewrite <- HB. symmetry. now apply (decode_block_encoded fuel').
Qed.

Lemma encoder_is_lossless_witness :
  decode_block 7 [0; 0; 2; 3; 0; 0; 3; 7; 0]
  = unflatten (7 :: repeat 0 15 ++ [3; 7] ++ repeat 0 46)
  /\ (forall (fuel' : nat) (B' : block),
        is_8x8 B' -> int8_block B' ->
        apply_Huffman_encoding fuel' B' = Some (7, [0; 0; 2; 3; 0; 0; 3; 7; 0]) ->
        B' = unflatten (7 :: repeat 0 15 ++ [3; 7] ++ repeat 0 46)).
Proof.
  apply (encoder_is_lossless 8 (unflatten (7 :: repeat 0 15 ++ [3; 7] ++ repeat 0 46))
           7 [0; 0; 2; 3; 0; 0; 3; 7; 0]).
  - apply is_8x8b_ok. reflexivity.
  - apply int8_blockb_ok. reflexivity.
  - reflexivity.
Defined.

(** X6.  On an 8x8 block with entries in -127..127 the encoder returns the
    DC value unchanged and an AC stream of signed bytes that ends in the
    end-of-block byte 0 and has odd length: two bytes at least for every
    nonzero AC coefficient, 199 bytes at most (more than the 63
    coefficients it stands for).  The stream is the single end-of-block
    byte exactly when all AC coefficients are zero. *)
Theorem encoder_output_shape :
  forall (fuel : nat) (B : block),
    (8 <= fuel)%nat -> is_8x8 B -> Forall (Forall amplitude_ok) B ->
    exists ac,
      apply_Huffman_encoding fuel B = Some (get2 0 B (0, 0)%nat, ac)
      /\ Forall in_int8 ac
      /\ last ac 1 = 0
      /\ Nat.odd (length ac) = true
      /\ (2 * nonzeros (tl (flatten B)) + 1 <= length ac <= 199)%nat
      /\ (ac = [0] <-> nonzeros (tl (flatten B)) = 0%nat).
Proof.
  intros fuel B Hfuel H8 Hok.
  rewrite apply_Huffman_encoding_flatten, <- hd_flatten.
  apply encode_sequence_shape; [assumption | apply flatten_length |].
  apply flatten_Forall; [assumption | unfold amplitude_ok; lia].
Qed.

Lemma encoder_output_shape_witness :
  exists ac,
    apply_Huffman_encoding 8 (unflatten (7 :: repeat 0 30 ++ repeat 1 33))
    = Some (get2 0 (unflatten (7 :: repeat 0 30 ++ repeat 1 33)) (0, 0)%nat, ac)
    /\ Forall in_int8 ac
    /\ last ac 1 = 0
    /\ Nat.odd (length ac) = true
    /\ (2 * nonzeros (tl (flatten (unflatten (7 :: repeat 0 30 ++ repeat 1 33)%Z))) + 1
        <= length ac <= 199)%nat
    /\ (ac = [0]
        <-> nonzeros (tl (flatten (unflatten (7 :: repeat 0 30 ++ repeat 1 33)))) = 0%nat).
Proof.
  apply (encoder_output_shape 8 (unflatten (7 :: repeat 0 30 ++ repeat 1 33))).
  - lia.
  - apply is_8x8b_ok. reflexivity.
  - apply Forall_forall. intros row Hrow. apply Forall_forall. intros a Ha.
    assert (Hb : forallb (forallb (fun z => (-127 <=? z) && (z <=? 127)))
                   (unflatten (7 :: repeat 0 30 ++ repeat 1 33)) = true)
      by reflexivity.
    rewrite forallb_forall in Hb. specialize (Hb row Hrow).
    rewrite forallb_forall in Hb. specialize (Hb a Ha).
    unfold amplitude_ok. lia.
Defined.

(** The bound of 199 bytes is met: thirty zeros, then thirty-three nonzero
    coefficients, each preceded by two overflow pairs. *)
Example encoder_longest_stream :
  option_map (fun r => length (snd r))
    (apply_Huffman_encoding 8 (unflatten (7 :: repeat 0 30 ++ repeat 1 33)))
  = Some 199%nat.
Proof. vm_compute. reflexivity. Qed.

(* ================================================================== *)
(** ** The transform at an offset and the loops over the blocks *)

Section ChannelFacts.

Lemma block_inside (N i_b i : nat) :
  (i_b < N_blocks N)%nat -> (i < 8)%nat -> (i_b * 8 + i < N)%nat.
Proof.
  unfold N_blocks. intros Hb Hi.
  pose proof (Nat.div_mod_eq N 8). lia.
Qed.

Lemma block_inside_chroma (N i_b i : nat) :
  (i_b < N_blocks_c N)%nat -> (i < 8)%nat -> (i_b * 8 + i < N / 2)%nat.
Proof.
  unfold N_blocks_c. intros Hb Hi.
  pose proof (Nat.div_mod_eq N 8) as E8.
  pose proof (Nat.div_mod_eq (N / 8) 2) as E2.
  pose proof (Nat.mod_upper_bound N 8 ltac:(lia)).
  assert (16 * (i_b + 1) <= N)%nat by lia.
  apply Nat.div_le_lower_bound; lia.
Qed.

Lemma frequency_window (np_cos : float -> float) (g g' : block)
  (oy ox oy' ox' v u : nat) :
  (forall i j, (i < 8)%nat -> (j < 8)%nat ->
     get2 0 g (oy + i, ox + j)%nat = get2 0 g' (oy' + i, ox' + j)%nat) ->
  frequency np_cos g oy ox v u = frequency np_cos g' oy' ox' v u.
Proof.
  intros H. unfold frequency, pixel_sum. f_equal.
  apply fold_left_ext_in. intros acc i Hi. apply in_seq in Hi.
  apply fold_left_ext_in. intros acc' j Hj. apply in_seq in Hj.
  rewrite H by lia. reflexivity.
Qed.

Lemma perform_DCT_window (np_cos : float -> float) (g g' : block)
  (oy ox oy' ox' : nat) :
  (forall i j, (i < 8)%nat -> (j < 8)%nat ->
     get2 0 g (oy + i, ox + j)%nat = get2 0 g' (oy' + i, ox' + j)%nat) ->
  perform_DCT_on_block np_cos g oy ox = perform_DCT_on_block np_cos g' oy' ox'.
Proof.
  intros H. unfold perform_DCT_on_block.
  apply map_ext. intros v. apply map_ext. intros u.
  now apply frequency_window.
Qed.

Lemma window_get2 (g : block) (oy ox i j : nat) :
  (i < 8)%nat -> (j < 8)%nat ->
  get2 0 (window g oy ox) (i, j) = get2 0 g (oy + i, ox + j)%nat.
Proof.
  intros Hi Hj. unfold window, get2 at 1. cbn [fst snd].
  rewrite (nth_map_seq _ [] 8 i Hi). now rewrite nth_map_seq.
Qed.

Lemma perform_DCT_8x8 (np_cos : float -> float) g oy ox :
  is_8x8 (perform_DCT_on_block np_cos g oy ox).
Proof.
  unfold perform_DCT_on_block. split; [reflexivity|].
  apply Forall_forall. intros row Hin. apply in_map_iff in Hin.
  destruct Hin as (v & <- & _). reflexivity.
Qed.

(** *** A window of zeros *)

Lemma perform_DCT_zero_window (np_cos : float -> float) g oy ox :
  cosine_finite np_cos ->
  (forall i j, (i < 8)%nat -> (j < 8)%nat -> get2 0 g (oy + i, ox + j)%nat = 0) ->
  perform_DCT_on_block np_cos g oy ox = constant_block 0%float.
Proof.
  intros Hcos Hz. unfold perform_DCT_on_block.
  transitivity (map (fun _ : nat => map (fun _ : nat => 0%float) (seq 0 8)) (seq 0 8));
    [|reflexivity].
  apply map_ext_in. intros v Hv. apply in_seq in Hv.
  apply map_ext_in. intros u Hu. apply in_seq in Hu.
  rewrite (frequency_window np_cos g (uniform_block 0) oy ox 0 0 v u).
  - apply frequency_of_zero_block; [assumption | lia | lia].
  - intros i j Hi Hj. rewrite Hz by assumption.
    destruct (uniform_block_get2 0 (0 + i, 0 + j)%nat) as [E | E]; now rewrite E.
Qed.

Lemma quantized_zero_block :
  all_defined (perform_quantization_on_block (constant_block 0%float) Q_50)
  = Some (uniform_block 0).
Proof. vm_compute. reflexivity. Qed.

Lemma flatten_zero_block : flatten (uniform_block 0) = repeat 0 64.
Proof. vm_compute. reflexivity. Qed.

Lemma encode_zero_block fuel :
  apply_Huffman_encoding fuel (uniform_block 0) = Some (0, [0]).
Proof.
  rewrite apply_Huffman_encoding_flatten, flatten_zero_block.
  unfold encode_sequence.
  change (tl (repeat 0 64)) with (repeat 0 63).
  rewrite run_zeros by apply init_runlength_ok.
  reflexivity.
Qed.

Lemma encode_block_zero_window (np_cos : float -> float) fuel g i_y_b i_x_b :
  cosine_finite np_cos ->
  (forall i j, (i < 8)%nat -> (j < 8)%nat ->
     get2 0 g (i_y_b * 8 + i, i_x_b * 8 + j)%nat = 0) ->
  encode_block np_cos fuel g i_y_b i_x_b = Some (0, [0]).
Proof.
  intros Hcos Hz. unfold encode_block.
  rewrite (perform_DCT_zero_window np_cos g _ _ Hcos Hz), quantized_zero_block.
  cbn [Opt.bind]. apply encode_zero_block.
Qed.

Lemma map_const_seq {A : Type} (c : A) : forall n a,
  map (fun _ : nat => c) (seq a n) = repeat c n.
Proof.
  induction n as [|n IH]; intros a; [reflexivity|].
  cbn [seq map repeat]. now rewrite IH.
Qed.

Lemma concat_repeat_repeat {A : Type} (x : A) (m : nat) : forall n,
  concat (repeat (repeat x m) n) = repeat x (n * m).
Proof.
  induction n as [|n IH]; [reflexivity|].
  cbn [repeat concat Nat.mul]. now rewrite IH, repeat_app.
Qed.

Lemma concat_repeat_singleton {A : Type} (x : A) : forall n,
  concat (repeat [x] n) = repeat x n.
Proof.
  induction n as [|n IH]; [reflexivity|].
  cbn [repeat concat app]. now rewrite IH.
Qed.

Lemma shift_plane_get2 N_y N_x (data : array2 Z) i j :
  has_shape N_y N_x data -> (i < N_y)%nat -> (j < N_x)%nat ->
  get2 0 (shift_plane data) (i, j) = shift_sample (get2 0 data (i, j)).
Proof.
  intros [Hlen Hrows] Hi Hj. unfold get2, shift_plane. cbn [fst snd].
  change (@nil Z) with (map shift_sample []) at 1.
  rewrite map_nth.
  assert (Hrow : length (nth i data []) = N_x).
  { rewrite Forall_forall in Hrows. apply Hrows. apply nth_In. lia. }
  rewrite (nth_indep _ 0 (shift_sample 0)) by (rewrite length_map; lia).
  apply map_nth.
Qed.

(** *** What a returned channel consists of *)

Lemma mapM_Some_inv {A B : Type} (f : A -> option B) : forall l ys,
  Opt.mapM f l = Some ys -> Forall2 (fun x y => f x = Some y) l ys.
Proof.
  induction l as [|x l IH]; intros ys H.
  - cbn in H. injection H as <-. constructor.
  - cbn [Opt.mapM] in H.
    destruct (f x) as [y|] eqn:Ex; [|discriminate].
    destruct (Opt.mapM f l) as [ys'|] eqn:El; [|discriminate].
    injection H as <-. constructor; [assumption | now apply IH].
Qed.

Lemma Forall2_length_eq {A B : Type} (R : A -> B -> Prop) l ys :
  Forall2 R l ys -> length ys = length l.
Proof. induction 1; cbn; congruence. Qed.

Lemma Forall2_right {A B : Type} (R : A -> B -> Prop) (P : B -> Prop) l ys :
  Forall2 R l ys -> (forall x y, In x l -> R x y -> P y) -> Forall P ys.
Proof.
  induction 1 as [|x y l ys Hxy Hrest IH]; intros HP; constructor.
  - apply (HP x); [now left | assumption].
  - apply IH. intros x' y' Hin. apply HP. now right.
Qed.

Lemma all_defined_quantized (G : array2 float) (Q : array2 Z) (B : block) :
  all_defined (perform_quantization_on_block G Q) = Some B ->
  is_8x8 B /\ int8_block B.
Proof.
  unfold all_defined, perform_quantization_on_block. intros H.
  apply mapM_Some_inv in H.
  assert (Hlen : length B = 8%nat)
    by (rewrite (Forall2_length_eq _ _ _ H), length_map, length_seq; reflexivity).
  assert (Hrows : Forall (fun row => length row = 8%nat /\ Forall in_int8 row) B).
  { apply (Forall2_right _ _ _ _ H). intros x row Hin Hrow.
    apply in_map_iff in Hin. destruct Hin as (v & <- & _).
    apply mapM_Some_inv in Hrow. split.
    - rewrite (Forall2_length_eq _ _ _ Hrow), length_map, length_seq. reflexivity.
    - apply (Forall2_right _ _ _ _ Hrow). intros c z Hc Hz.
      apply in_map_iff in Hc. destruct Hc as (u & <- & _).
      now apply quantize_cell_in_int8 in Hz. }
  split; [split; [assumption|] |].
  - eapply Forall_impl; [|exact Hrows]. now intros row [? _].
  - eapply Forall_impl; [|exact Hrows]. now intros row [_ ?].
Qed.

Lemma tl_length_63 {A : Type} (s : list A) :
  length s = 64%nat -> length (tl s) = 63%nat.
Proof. destruct s; cbn [length tl]; lia. Qed.

Lemma hd_Forall {A : Type} (P : A -> Prop) (d : A) (s : list A) :
  Forall P s -> P d -> P (hd d s).
Proof. intros Hs Hd. destruct s; cbn [hd]; [assumption | now inversion Hs]. Qed.

Lemma stream_shape (l : list Z) :
  length l = 63%nat ->
  Forall in_int8 (map np_int8 (pairs_from 0 0 l) ++ [0])
  /\ (2 * nonzeros l + 1 <= length (map np_int8 (pairs_from 0 0 l) ++ [0%Z]) <= 199)%nat.
Proof.
  intros Hl.
  pose proof (zeros_nonzeros_length l) as Hzn. rewrite Hl in Hzn.
  pose proof (Nat.div_mod_eq (zeros l) 15) as Ediv.
  pose proof (Nat.mod_upper_bound (zeros l) 15 ltac:(lia)) as Hmod.
  destruct (pairs_from_length l 0 0 (zeros l / 15) ltac:(lia) ltac:(lia))
    as [[Hlo Hhi] Hev].
  assert (H198 : (length (pairs_from 0 0 l) <= 198)%nat).
  { apply (stream_at_most_198 (zeros l) (nonzeros l) (zeros l / 15));
      [assumption | lia | assumption]. }
  split.
  - apply Forall_app. split; [|repeat constructor; unfold in_int8; lia].
    apply Forall_forall. intros x Hin. apply in_map_iff in Hin.
    destruct Hin as (y & <- & _). apply np_int8_range.
  - rewrite length_app, length_map. cbn [length]. lia.
Qed.

Lemma bind_Some_inv {A B : Type} (x : option A) (f : A -> option B) r :
  Opt.bind x f = Some r -> exists a, x = Some a /\ f a = Some r.
Proof. destruct x as [a|]; [|discriminate]. intros H. now exists a. Qed.

Lemma huffman_result_ok (B : block) fuel dc ac :
  is_8x8 B -> int8_block B ->
  apply_Huffman_encoding fuel B = Some (dc, ac) -> block_result_ok (dc, ac).
Proof.
  intros H8 Hint H.
  rewrite apply_Huffman_encoding_flatten in H.
  assert (Hflat : Forall in_int8 (flatten B))
    by (apply flatten_Forall; [assumption | unfold in_int8; lia]).
  destruct (encode_sequence_pairs fuel _ dc ac Hflat H) as (Hdc & Hac & _).
  pose proof (flatten_length B) as Hlen.
  pose proof (tl_length_63 _ Hlen) as Hl.
  destruct (stream_shape _ Hl) as [Hbytes Hbound].
  unfold block_result_ok. cbn [fst snd]. subst dc ac.
  split; [|split; [assumption | lia]].
  apply hd_Forall; [assumption | unfold in_int8; lia].
Qed.

Lemma encode_block_unfold (np_cos : float -> float) fuel g i_y_b i_x_b :
  encode_block np_cos fuel g i_y_b i_x_b
  = Opt.bind (all_defined (perform_quantization_on_block
                 (perform_DCT_on_block np_cos g (i_y_b * 8) (i_x_b * 8)) Q_50))
             (apply_Huffman_encoding fuel).
Proof. reflexivity. Qed.

Lemma encode_block_result (np_cos : float -> float) fuel g i_y_b i_x_b r :
  encode_block np_cos fuel g i_y_b i_x_b = Some r -> block_result_ok r.
Proof.
  rewrite encode_block_unfold.
  generalize (perform_DCT_on_block np_cos g (i_y_b * 8) (i_x_b * 8)). intros G.
  intros H. apply bind_Some_inv in H. destruct H as (B & EB & H).
  destruct (all_defined_quantized _ _ _ EB) as [H8 Hint].
  destruct r as [dc ac]. now apply (huffman_result_ok B fuel).
Qed.

Lemma concat_length_between {A : Type} (a b : nat) (ls : list (list A)) :
  Forall (fun l => (a <= length l <= b)%nat) ls ->
  (a * length ls <= length (concat ls) <= b * length ls)%nat.
Proof.
  induction 1 as [|l ls Hl Hrest IH]; cbn [concat length]; [lia|].
  rewrite length_app. lia.
Qed.

Lemma concat_length_rows {A : Type} (n : nat) (ls : list (list A)) :
  Forall (fun l => length l = n) ls -> length (concat ls) = (length ls * n)%nat.
Proof.
  induction 1 as [|l ls Hl Hrest IH]; cbn [concat length]; [reflexivity|].
  rewrite length_app. lia.
Qed.

Lemma Forall_concat {A : Type} (P : A -> Prop) (ls : list (list A)) :
  Forall (Forall P) ls -> Forall P (concat ls).
Proof.
  induction 1 as [|l ls Hl Hrest IH]; cbn [concat]; [constructor|].
  apply Forall_app. now split.
Qed.

Lemma Forall_map_iff {A B : Type} (P : B -> Prop) (f : A -> B) (l : list A) :
  Forall (fun x => P (f x)) l -> Forall P (map f l).
Proof. induction 1; cbn [map]; constructor; assumption. Qed.

End ChannelFacts.

(** X7.  Where the 8x8 window at the offset lies inside the plane, no read
    of the transform is outside it, and the transform depends on that
    window and on nothing else in the plane: two planes that agree on
    their windows give the same 8x8 frequency block, and the transform at
    an offset is the transform, at offset 0, of the window cut out. *)
Theorem dct_reads_only_its_window :
  forall (np_cos : float -> float) (N_y N_x N_y' N_x' : nat) (g g' : block)
         (oy ox oy' ox' : nat),
    has_shape N_y N_x g -> has_shape N_y' N_x' g' ->
    (oy + 8 <= N_y)%nat -> (ox + 8 <= N_x)%nat ->
    (oy' + 8 <= N_y')%nat -> (ox' + 8 <= N_x')%nat ->
    (forall i j, (i < 8)%nat -> (j < 8)%nat ->
       get2 0 g (oy + i, ox + j)%nat = get2 0 g' (oy' + i, ox' + j)%nat) ->
    (forall i j, (i < 8)%nat -> (j < 8)%nat ->
       read2 g (oy + i) (ox + j) = Some (get2 0 g (oy + i, ox + j)%nat))
    /\ perform_DCT_on_block np_cos g oy ox = perform_DCT_on_block np_cos g' oy' ox'
    /\ is_8x8 (perform_DCT_on_block np_cos g oy ox)
    /\ has_shape 8 8 (window g oy ox)
    /\ perform_DCT_on_block np_cos g oy ox
       = perform_DCT_on_block np_cos (window g oy ox) 0 0.
Proof.
  intros np_cos N_y N_x N_y' N_x' g g' oy ox oy' ox' Hs Hs' Hy Hx Hy' Hx' H.
  split.
  { intros i j Hi Hj. apply (read2_inside 0 N_y N_x); [assumption | lia | lia]. }
  split; [now apply perform_DCT_window|].
  split; [apply perform_DCT_8x8|].
  split.
  { apply has_shapeb_ok. reflexivity. }
  apply perform_DCT_window. intros i j Hi Hj.
  cbn [Nat.add]. now rewrite window_get2.
Qed.

Lemma dct_reads_only_its_window_witness :
  (forall i j, (i < 8)%nat -> (j < 8)%nat ->
     read2 example_plane (0 + i) (7 + j)
     = Some (get2 0 example_plane (0 + i, 7 + j)%nat))
  /\ perform_DCT_on_block cos_approx example_plane 0 7
     = perform_DCT_on_block cos_approx example_plane 0 0
  /\ is_8x8 (perform_DCT_on_block cos_approx example_plane 0 7)
  /\ has_shape 8 8 (window example_plane 0 7)
  /\ perform_DCT_on_block cos_approx example_plane 0 7
     = perform_DCT_on_block cos_approx (window example_plane 0 7) 0 0.
Proof.
  apply (dct_reads_only_its_window cos_approx 8 16 8 16
           example_plane example_plane 0 7 0 0).
  - apply has_shapeb_ok. reflexivity.
  - apply has_shapeb_ok. reflexivity.
  - lia.
  - lia.
  - lia.
  - lia.
  - intros i j Hi Hj.
    do 8 (destruct i as [|i]; [do 8 (destruct j as [|j]; [reflexivity|]); lia|]).
    lia.
Defined.

(** X8.  A plane of unsigned bytes that is 128 everywhere goes through the
    whole chain (range modification, transform of every block, quantization
    with [Q_50], encoding) to a DC array of zeros, one for each block, and
    an AC stream of one end-of-block byte for each block, whatever finite
    values the cosine takes. *)
Theorem flat_plane_encodes_to_zeros :
  forall (np_cos : float -> float) (fuel N_y N_x : nat) (data : array2 Z),
    cosine_finite np_cos ->
    has_shape N_y N_x data ->
    (forall i j, (i < N_y)%nat -> (j < N_x)%nat -> get2 0 data (i, j) = 128) ->
    encode_channel np_cos fuel (shift_plane data) (N_blocks N_y) (N_blocks N_x)
    = Some (repeat (repeat 0 (N_blocks N_x)) (N_blocks N_y),
            repeat 0 (N_blocks N_y * N_blocks N_x)).
Proof.
  intros np_cos fuel N_y N_x data Hcos Hs Hflat. unfold encode_channel.
  rewrite (mapM_map_Some _ (fun _ : nat => repeat (0, [0]) (N_blocks N_x))).
  - cbn [Opt.bind]. rewrite map_const_seq.
    rewrite !map_repeat, concat_repeat_repeat, !map_repeat.
    cbn [fst snd]. rewrite concat_repeat_singleton, map_repeat. reflexivity.
  - intros i_y_b Hy. apply in_seq in Hy.
    rewrite <- (map_const_seq (0, [0]) (N_blocks N_x) 0).
    apply mapM_map_Some. intros i_x_b Hx. apply in_seq in Hx.
    apply encode_block_zero_window; [assumption|].
    intros i j Hi Hj.
    pose proof (block_inside N_y i_y_b i ltac:(lia) Hi) as Hin_y.
    pose proof (block_inside N_x i_x_b j ltac:(lia) Hj) as Hin_x.
    rewrite (shift_plane_get2 N_y N_x) by assumption.
    rewrite Hflat by assumption. reflexivity.
Qed.

Lemma flat_plane_encodes_to_zeros_witness :
  encode_channel cos_approx 1 (shift_plane (repeat (repeat 128 33) 17))
    (N_blocks 17) (N_blocks 33)
  = Some (repeat (repeat 0 (N_blocks 33)) (N_blocks 17),
          repeat 0 (N_blocks 17 * N_blocks 33)).
Proof.
  apply (flat_plane_encodes_to_zeros cos_approx 1 17 33 (repeat (repeat 128 33) 17)).
  - exact cos_approx_finite.
  - apply has_shapeb_ok. reflexivity.
  - intros i j Hi Hj. unfold get2. cbn [fst snd].
    rewrite (nth_indep _ [] (repeat 128 33)) by (rewrite repeat_length; lia).
    rewrite nth_repeat.
    destruct (nth_in_or_default j (repeat 128 33) 0) as [Hin | E].
    + now apply repeat_spec in Hin.
    + exfalso. pose proof (nth_In (repeat 128 33) 0 (n := j)) as Hn.
      rewrite repeat_length in Hn. specialize (Hn Hj).
      apply repeat_spec in Hn. lia.
Defined.

(** X9.  Whenever the loops over the blocks of a channel return, the DC
    array has one signed byte for each block, and the AC stream consists of
    signed bytes, at least one (the end-of-block byte) and at most 199 for
    each block. *)
Theorem channel_stream_bounds :
  forall (np_cos : float -> float) (fuel : nat) (data_int : array2 Z)
         (N_y_blocks N_x_blocks : nat) (dc : array2 Z) (ac : list Z),
    encode_channel np_cos fuel data_int N_y_blocks N_x_blocks = Some (dc, ac) ->
    has_shape N_y_blocks N_x_blocks dc
    /\ Forall (Forall in_int8) dc
    /\ Forall in_int8 ac
    /\ (N_y_blocks * N_x_blocks <= length ac <= 199 * (N_y_blocks * N_x_blocks))%nat.
Proof.
  intros np_cos fuel data_int Nyb Nxb dc ac H.
  apply bind_Some_inv in H. destruct H as (blocks & Hblocks & H).
  injection H as <- <-.
  apply mapM_Some_inv in Hblocks.
  assert (Hlen : length blocks = Nyb)
    by (rewrite (Forall2_length_eq _ _ _ Hblocks), length_seq; reflexivity).
  assert (Hrows : Forall (fun row => length row = Nxb /\ Forall block_result_ok row)
                         blocks).
  { apply (Forall2_right _ _ _ _ Hblocks). intros i_y_b row _ Hrow.
    apply mapM_Some_inv in Hrow. split.
    - rewrite (Forall2_length_eq _ _ _ Hrow), length_seq. reflexivity.
    - apply (Forall2_right _ _ _ _ Hrow). intros i_x_b r _ Hr.
      now apply encode_block_result in Hr. }
  assert (Hshape : Forall (fun row => length row = Nxb) blocks)
    by (eapply Forall_impl; [|exact Hrows]; now intros row [? _]).
  assert (Hall : Forall block_result_ok (concat blocks)).
  { apply Forall_concat. eapply Forall_impl; [|exact Hrows]. now intros row [_ ?]. }
  assert (Hcount : length (concat blocks) = (Nyb * Nxb)%nat)
    by (rewrite (concat_length_rows Nxb) by assumption; now rewrite Hlen).
  split.
  { split; [now rewrite length_map|].
    apply Forall_map_iff. eapply Forall_impl; [|exact Hshape].
    intros row Hrow. now rewrite length_map. }
  split.
  { apply Forall_map_iff. eapply Forall_impl; [|exact Hrows].
    intros row [_ Hrow]. apply Forall_map_iff.
    eapply Forall_impl; [|exact Hrow]. now intros r [? _]. }
  split.
  { apply Forall_map_iff. apply Forall_forall. intros x _. apply np_int8_range. }
  rewrite length_map.
  pose proof (concat_length_between 1 199 (map snd (concat blocks))) as Hb.
  rewrite length_map, Hcount in Hb.
  assert (Hsnd : Forall (fun l : list Z => (1 <= length l <= 199)%nat)
                        (map snd (concat blocks))).
  { apply Forall_map_iff. eapply Forall_impl; [|exact Hall].
    now intros r (_ & _ & ?). }
  specialize (Hb Hsnd). lia.
Qed.

Lemma channel_stream_bounds_witness :
  has_shape 1 2 [[0; 0]]
  /\ Forall (Forall in_int8) [[0; 0]]
  /\ Forall in_int8
       [17; -1; 1; -1; 17; -1; 17; -1; 1; -1; 1; 1; 33; -2; 49; -2; 1; -1;
        1; 1; 65; -1; 17; -1; 65; 1; 1; 1; 0; 1; 1; 17; -1; 1; 1; 33; 1;
        1; 1; 33; -1; 1; -1; 1; 1; 33; 1; 17; -1; 97; -1; 1; -1; 49; -1;
        1; -1; 0]
  /\ (1 * 2 <= length
       ([17; -1; 1; -1; 17; -1; 17; -1; 1; -1; 1; 1; 33; -2; 49; -2; 1; -1;
        1; 1; 65; -1; 17; -1; 65; 1; 1; 1; 0; 1; 1; 17; -1; 1; 1; 33; 1;
        1; 1; 33; -1; 1; -1; 1; 1; 33; 1; 17; -1; 97; -1; 1; -1; 49; -1;
        1; -1; 0])%Z <= 199 * (1 * 2))%nat.
Proof.
  apply (channel_stream_bounds cos_approx 8 example_plane 1 2).
  vm_compute. reflexivity.
Defined.

(* ================================================================== *)
(** ** Symmetry of the quantizer *)

Section QuantizerSymmetry.








End QuantizerSymmetry.



(** The exception: -2048 / 16 is -128, and so is the byte stored for
    2048 / 16 = 128. *)
Example quantizer_wraps_at_128 :
  quantize_cell (-2048)%float 16 = Some (-128)
  /\ quantize_cell 2048%float 16 = Some (-128).
Proof. split; reflexivity. Qed.

(* ================================================================== *)
(** ** Grey pixels *)

Section GreyPixels.

Lemma greys_checked :
  forallb
    (fun k =>
       match convert_pixel k k k with
       | (Some Y, Some Cb, Some Cr) =>
           (k - 1 <=? Y) && (Y <=? k)
           && (127 <=? Cb) && (Cb <=? 128)
           && (127 <=? Cr) && (Cr <=? 128)
       | _ => false
       end)
    (map Z.of_nat (seq 0 256)) = true.
Proof. vm_compute. reflexivity. Qed.

Lemma byte_in_range k : 0 <= k <= 255 -> In k (map Z.of_nat (seq 0 256)).
Proof.
  intros H. apply in_map_iff. exists (Z.to_nat k). split; [lia|].
  apply in_seq. lia.
Qed.

End GreyPixels.

(** X11.  A grey pixel [(k, k, k)] does not always come out as
    [(k, 128, 128)]: the float sums can fall just below the integer and the
    cast truncates.  The luma is [k] or [k - 1], both chroma values are 128
    or 127. *)
Theorem grey_pixel_within_one :
  forall k : Z,
    0 <= k <= 255 ->
    exists Y Cb Cr,
      convert_pixel k k k = (Some Y, Some Cb, Some Cr)
      /\ k - 1 <= Y <= k
      /\ 127 <= Cb <= 128
      /\ 127 <= Cr <= 128.
Proof.
  intros k Hk.
  pose proof (forallb_In _ _ k greys_checked (byte_in_range k Hk)) as H.
  cbv beta in H.
  destruct (convert_pixel k k k) as [[[Y|] [Cb|]] [Cr|]]; try discriminate.
  exists Y, Cb, Cr. split; [reflexivity|].
  rewrite !andb_true_iff, !Z.leb_le in H. lia.
Qed.

Lemma grey_pixel_within_one_witness :
  exists Y Cb Cr,
    convert_pixel 1 1 1 = (Some Y, Some Cb, Some Cr)
    /\ 1 - 1 <= Y <= 1
    /\ 127 <= Cb <= 128
    /\ 127 <= Cr <= 128.
Proof.
  apply (grey_pixel_within_one 1). lia.
Defined.

(** Both deviations occur: the darkest grey but one loses its luma, and
    white loses one step of Cr. *)
Example grey_pixel_samples :
  convert_pixel 1 1 1 = (Some 0, Some 128, Some 128)
  /\ convert_pixel 255 255 255 = (Some 255, Some 128, Some 127)
  /\ convert_pixel 128 128 128 = (Some 127, Some 128, Some 128).
Proof. repeat split; reflexivity. Qed.

(* ================================================================== *)
(** ** The zig-zag traversal as a path *)

Section ZigZagPath.

Lemma zig_zag_steps_checked :
  forallb
    (fun i =>
       let p := nth i zig_zag_flat (0, 0)%nat in
       let q := nth (S i) zig_zag_flat (0, 0)%nat in
       (fst p <=? fst q + 1)%nat && (fst q <=? fst p + 1)%nat
       && (snd p <=? snd q + 1)%nat && (snd q <=? snd p + 1)%nat
       && (fst p + snd p <=? fst q + snd q)%nat
       && (fst q + snd q <=? fst p + snd p + 1)%nat)
    (seq 0 63) = true.
Proof. vm_compute. reflexivity. Qed.

End ZigZagPath.

(** X12.  Each pass of the inner loop of the zig-zag construction lists
    cells of one anti-diagonal: the coordinates of every cell add up to
    [length] and lie between [start] and [length - start].  The flattened
    sequence is a path: from one position to the next each coordinate
    changes by one at most, and the sum of the coordinates stays or grows
    by one, so that lower frequencies come first. *)
Theorem zig_zag_is_a_path :
  (forall (left_right : bool) (start length : nat) (p : nat * nat),
     In p (diagonal left_right start length) ->
     (fst p + snd p = length
      /\ start <= fst p <= length - start
      /\ start <= snd p <= length - start)%nat)
  /\ (forall i : nat,
        (i < 63)%nat ->
        let p := nth i zig_zag_flat (0, 0)%nat in
        let q := nth (S i) zig_zag_flat (0, 0)%nat in
        (fst p <= fst q + 1 /\ fst q <= fst p + 1
         /\ snd p <= snd q + 1 /\ snd q <= snd p + 1
         /\ fst p + snd p <= fst q + snd q <= fst p + snd p + 1)%nat).
Proof.
  split.
  - intros lr start length p Hin. unfold diagonal in Hin.
    apply in_map_iff in Hin. destruct Hin as (index_1 & <- & Hi).
    apply in_seq in Hi. destruct lr; cbn [fst snd]; lia.
  - intros i Hi.
    assert (Hin : In i (seq 0 63)) by (apply in_seq; lia).
    pose proof (forallb_In _ _ i zig_zag_steps_checked Hin) as H.
    cbv beta zeta in H. cbv zeta.
    rewrite !andb_true_iff, !Nat.leb_le in H. lia.
Qed.

(* ================================================================== *)
(** ** Subsampling a clipped plane *)

Section ClippedPlane.

Lemma clipped_even N : Nat.even (clipped N) = true.
Proof.
  apply Nat.even_spec. exists (N / 16 * 8)%nat. unfold clipped. lia.
Qed.

Lemma mean_of_2x2_uint8 (data : array2 Z) i j :
  uint8_plane data -> 0 <= mean_of_2x2 data i j <= 255.
Proof.
  intros Hu. unfold mean_of_2x2.
  assert (Hc : forall p, 0 <= get2 0 data p <= 255)
    by (intros p; apply (get2_Forall (fun z => 0 <= z <= 255)); [exact Hu | lia]).
  pose proof (Hc (2 * i, 2 * j)%nat). pose proof (Hc (2 * i + 1, 2 * j)%nat).
  pose proof (Hc (2 * i, 2 * j + 1)%nat). pose proof (Hc (2 * i + 1, 2 * j + 1)%nat).
  rewrite subsample_cell_mean by assumption.
  split; [apply Z.div_pos; lia | apply Z.lt_succ_r, Z.div_lt_upper_bound; lia].
Qed.

End ClippedPlane.

(** X13.  On a plane of unsigned bytes with the shape of a clipped image
    the subsampling loops never read outside the plane: they return a
    plane of unsigned bytes of half the height and half the width.  The
    chroma block loops then read inside that plane only. *)
Theorem clipped_plane_subsamples :
  forall (N_y N_x : nat) (data : array2 Z),
    has_shape (clipped N_y) (clipped N_x) data ->
    uint8_plane data ->
    exists out,
      subsample_plane (clipped N_y) (clipped N_x) data = Some out
      /\ has_shape (clipped N_y / 2) (clipped N_x / 2) out
      /\ uint8_plane out
      /\ (forall i_b i, (i_b < N_blocks_c (clipped N_y))%nat -> (i < 8)%nat ->
            (i_b * 8 + i < clipped N_y / 2)%nat)
      /\ (forall i_b i, (i_b < N_blocks_c (clipped N_x))%nat -> (i < 8)%nat ->
            (i_b * 8 + i < clipped N_x / 2)%nat).
Proof.
  intros N_y N_x data Hs Hu.
  eexists. split.
  { apply subsample_plane_even; [assumption | apply clipped_even | apply clipped_even]. }
  split.
  { split; [now rewrite length_map, length_seq|].
    apply Forall_forall. intros row Hin. apply in_map_iff in Hin.
    destruct Hin as (i & <- & _). now rewrite length_map, length_seq. }
  split.
  { unfold uint8_plane. apply Forall_forall. intros row Hin.
    apply in_map_iff in Hin. destruct Hin as (i & <- & _).
    apply Forall_forall. intros z Hz. apply in_map_iff in Hz.
    destruct Hz as (j & <- & _). now apply mean_of_2x2_uint8. }
  split; intros i_b i; apply block_inside_chroma.
Qed.

Lemma clipped_plane_subsamples_witness :
  exists out,
    subsample_plane (clipped 17) (clipped 35) (repeat (repeat 200 32) 16) = Some out
    /\ has_shape (clipped 17 / 2) (clipped 35 / 2) out
    /\ uint8_plane out
    /\ (forall i_b i, (i_b < N_blocks_c (clipped 17))%nat -> (i < 8)%nat ->
          (i_b * 8 + i < clipped 17 / 2)%nat)
    /\ (forall i_b i, (i_b < N_blocks_c (clipped 35))%nat -> (i < 8)%nat ->
          (i_b * 8 + i < clipped 35 / 2)%nat).
Proof.
  apply (clipped_plane_subsamples 17 35 (repeat (repeat 200 32) 16)).
  - apply has_shapeb_ok. reflexivity.
  - unfold uint8_plane. apply Forall_forall. intros row Hrow.
    apply repeat_spec in Hrow. subst row.
    apply Forall_forall. intros z Hz. apply repeat_spec in Hz. lia.
Defined.

(* ================================================================== *)
(** ** Block boundaries in the AC stream *)

Section StreamBoundaries.




End StreamBoundaries.


